(** * node-cachefy: store lifecycle and driver layer

    A shallow embedding of the in-process driver
    (src/drivers/memory.driver.ts), of the reconnection logic of the
    networked driver (src/drivers/redis.driver.ts) and of the facade
    (Cache, CacheStoreProxy), with the properties the specification
    states about them.

    Conventions.
    - A JavaScript [number] is an integer of [Z]: the amounts, time stamps
      (milliseconds, as [Date.now()] gives them), delays and counters of
      this code are integers; NaN and fractions are outside the model.
    - [T | undefined] and [T | null] are [option T].
    - Every call of [Date.now()] is an argument of the operation that
      makes it, in the order of the calls, so nothing is assumed about
      the clock.
    - An [async] method whose body never suspends on a pending promise is
      a function from the state before to the result and the state after.
      Where suspension matters (timers, [await driver.initialize()]) the
      method is cut at its await points into steps.
    - A [Map] is a table of its keys.  A plain object read or written
      under a computed name is the table of its own properties together
      with its prototype: a read falls back on [Object.prototype], and an
      assignment to ["__proto__"] reaches the setter found there. *)

From Stdlib Require Import ZArith Lia Bool.
From stdpp Require Import gmap strings list.

Local Open Scope Z_scope.

(** ** The in-process driver *)

Module Memory.

(** What a cache slot can hold.  Objects and arrays are kept by
    reference, as the JavaScript [Map] keeps them. *)
Inductive Value : Type :=
| VNull
| VBool (b : bool)
| VNum (n : Z)
| VStr (s : string)
| VRef (addr : nat).


Record CacheEntry : Type := mkEntry {
  value : Value;
  expiresAt : option Z;
  createdAt : Z;
  accessedAt : Z
}.

Record MemoryConfig : Type := mkConfig {
  maxSize : option Z;
  cleanupInterval : option Z
}.

(** The options as the caller hands them to the constructor. *)
Record DriverOptions : Type := mkOptions {
  opt_keyPrefix : option string;
  opt_defaultTtl : option Z
}.

(** [this.options] after the constructor has filled the defaults in. *)
Record ResolvedOptions : Type := mkResolved {
  keyPrefix : string;
  defaultTtl : Z
}.

Record Stats : Type := mkStats {
  hits : nat;
  misses : nat;
  sets : nat;
  deletes : nat
}.

(** The [Map<string, CacheEntry>]: keys in insertion order, each key
    once. *)
Definition Table : Type := list (string * CacheEntry).

Record MemoryDriver : Type := mkDriver {
  store : Table;
  config : MemoryConfig;
  options : ResolvedOptions;
  cleanupTimer : bool;
  stats : Stats
}.

Definition zeroStats : Stats := mkStats 0 0 0 0.

(** [new MemoryDriver(config, options)] *)
Definition new_MemoryDriver (c : MemoryConfig) (o : DriverOptions) : MemoryDriver :=
  {| store := [];
     config := c;
     options := {| keyPrefix := default EmptyString (opt_keyPrefix o);
                   defaultTtl := default 3600 (opt_defaultTtl o) |};
     cleanupTimer := false;
     stats := zeroStats |}.

(** *** [Map] primitives *)

Fixpoint map_get (k : string) (m : Table) : option CacheEntry :=
  match m with
  | [] => None
  | (k', e) :: rest => if String.eqb k' k then Some e else map_get k rest
  end.

Definition map_has (k : string) (m : Table) : bool :=
  match map_get k m with Some _ => true | None => false end.

(** [Map.set]: an existing key keeps its place, a new key goes last. *)
Fixpoint map_set (k : string) (e : CacheEntry) (m : Table) : Table :=
  match m with
  | [] => [(k, e)]
  | (k', e') :: rest =>
      if String.eqb k' k then (k, e) :: rest else (k', e') :: map_set k e rest
  end.

Fixpoint map_delete (k : string) (m : Table) : Table :=
  match m with
  | [] => []
  | (k', e') :: rest =>
      if String.eqb k' k then rest else (k', e') :: map_delete k rest
  end.

Definition keys (m : Table) : list string := map fst m.

(** Each key once: what [Map] guarantees. *)
Definition wf (m : Table) : Prop := NoDup (keys m).

(** *** State updates *)

Definition with_store (m : Table) (d : MemoryDriver) : MemoryDriver :=
  {| store := m; config := config d; options := options d;
     cleanupTimer := cleanupTimer d; stats := stats d |}.

Definition with_stats (s : Stats) (d : MemoryDriver) : MemoryDriver :=
  {| store := store d; config := config d; options := options d;
     cleanupTimer := cleanupTimer d; stats := s |}.

Definition hit (s : Stats) : Stats :=
  mkStats (S (hits s)) (misses s) (sets s) (deletes s).
Definition miss (s : Stats) : Stats :=
  mkStats (hits s) (S (misses s)) (sets s) (deletes s).
Definition count_set (s : Stats) : Stats :=
  mkStats (hits s) (misses s) (S (sets s)) (deletes s).
Definition count_delete (s : Stats) : Stats :=
  mkStats (hits s) (misses s) (sets s) (S (deletes s)).

Definition touch (t : Z) (e : CacheEntry) : CacheEntry :=
  {| value := value e; expiresAt := expiresAt e;
     createdAt := createdAt e; accessedAt := t |}.

(** *** Operations *)

(** [getFullKey] *)
Definition getFullKey (d : MemoryDriver) (key : string) : string :=
  if String.eqb (keyPrefix (options d)) EmptyString
  then key
  else (keyPrefix (options d) ++ key)%string.

(** [entry.expiresAt !== null && Date.now() > entry.expiresAt] *)
Definition expired (now : Z) (e : CacheEntry) : bool :=
  match expiresAt e with
  | Some t => now >? t
  | None => false
  end.

(** [get(key)]; [t_check] is the clock read by the expiry test,
    [t_touch] the one stored in [accessedAt]. *)
Definition get (t_check t_touch : Z) (key : string) (d : MemoryDriver)
  : Value * MemoryDriver :=
  let fullKey := getFullKey d key in
  match map_get fullKey (store d) with
  | None => (VNull, with_stats (miss (stats d)) d)
  | Some entry =>
      if expired t_check entry then
        (VNull,
         with_stats (miss (stats d)) (with_store (map_delete fullKey (store d)) d))
      else
        (value entry,
         with_stats (hit (stats d))
           (with_store (map_set fullKey (touch t_touch entry) (store d)) d))
  end.

(** The scan of [evictLeastRecentlyUsed]: the pair
    [(oldestKey, oldestAccessTime)] after the loop. *)
Definition scan_step (acc : option string * Z) (ke : string * CacheEntry)
  : option string * Z :=
  if accessedAt (snd ke) <? snd acc then (Some (fst ke), accessedAt (snd ke))
  else acc.

Definition scan_oldest (m : Table) (init : option string * Z) : option string * Z :=
  fold_left scan_step m init.

(** [evictLeastRecentlyUsed()]; [now] is its own reading of the clock.
    [if (oldestKey)] is false for [null] and for the empty string. *)
Definition evictLeastRecentlyUsed (now : Z) (d : MemoryDriver) : MemoryDriver :=
  match fst (scan_oldest (store d) (None, now)) with
  | Some oldestKey =>
      if String.eqb oldestKey EmptyString then d
      else with_store (map_delete oldestKey (store d)) d
  | None => d
  end.

(** [ttl ?? this.options.defaultTtl] *)
Definition effectiveTtl (ttl : option Z) (d : MemoryDriver) : Z :=
  match ttl with
  | Some t => t
  | None => defaultTtl (options d)
  end.

(** [effectiveTtl && effectiveTtl > 0 ? now + effectiveTtl * 1000 : null] *)
Definition expiry (now ttl : Z) : option Z :=
  if (negb (ttl =? 0)) && (ttl >? 0) then Some (now + ttl * 1000) else None.

(** [this.config.maxSize && this.store.size >= this.config.maxSize
     && !this.store.has(fullKey)] *)
Definition at_capacity (fullKey : string) (d : MemoryDriver) : bool :=
  match maxSize (config d) with
  | Some m =>
      negb (m =? 0) && (Z.of_nat (length (store d)) >=? m)
      && negb (map_has fullKey (store d))
  | None => false
  end.

(** [set(key, value, ttl?)]; [now] is the clock read by [set] itself,
    [t_evict] the one read inside [evictLeastRecentlyUsed]. *)
Definition set (now t_evict : Z) (key : string) (v : Value) (ttl : option Z)
    (d : MemoryDriver) : MemoryDriver :=
  let fullKey := getFullKey d key in
  let eff := effectiveTtl ttl d in
  let d1 := if at_capacity fullKey d then evictLeastRecentlyUsed t_evict d else d in
  let entry := {| value := v; expiresAt := expiry now eff;
                  createdAt := now; accessedAt := now |} in
  with_stats (count_set (stats d1)) (with_store (map_set fullKey entry (store d1)) d1).

(** [delete(key)] *)
Definition delete (key : string) (d : MemoryDriver) : bool * MemoryDriver :=
  let fullKey := getFullKey d key in
  let existed := map_has fullKey (store d) in
  if existed then
    (true, with_stats (count_delete (stats d))
             (with_store (map_delete fullKey (store d)) d))
  else (false, d).

(** [exists(key)] *)
Definition exists_ (now : Z) (key : string) (d : MemoryDriver)
  : bool * MemoryDriver :=
  let fullKey := getFullKey d key in
  match map_get fullKey (store d) with
  | None => (false, d)
  | Some entry =>
      if expired now entry
      then (false, with_store (map_delete fullKey (store d)) d)
      else (true, d)
  end.

(** [clear()] *)
Definition clear (d : MemoryDriver) : MemoryDriver :=
  with_stats zeroStats (with_store [] d).

(** The loop of [deleteMultiple], with its counter. *)
Definition deleteMultiple_step (acc : Z * MemoryDriver) (key : string)
  : Z * MemoryDriver :=
  let '(wasDeleted, d') := delete key (snd acc) in
  (if wasDeleted then fst acc + 1 else fst acc, d').

Definition deleteMultiple (ks : list string) (d : MemoryDriver) : Z * MemoryDriver :=
  fold_left deleteMultiple_step ks (0, d).

(** [increment(key, increment = 1)]; the four clock readings are those
    of the [get] and of the [set] it performs. *)
Definition increment (t_check t_touch t_set t_evict : Z)
    (key : string) (amount : option Z) (d : MemoryDriver) : Z * MemoryDriver :=
  let inc := default 1 amount in
  let '(currentValue, d1) := get t_check t_touch key d in
  let numericValue := match currentValue with VNum x => x | _ => 0 end in
  let newValue := numericValue + inc in
  (newValue, set t_set t_evict key (VNum newValue) None d1).

(** [decrement(key, decrement = 1)] *)
Definition decrement (t_check t_touch t_set t_evict : Z)
    (key : string) (amount : option Z) (d : MemoryDriver) : Z * MemoryDriver :=
  increment t_check t_touch t_set t_evict key (Some (- default 1 amount)) d.

(** [cleanup()], the periodic sweep. *)
Definition cleanup (now : Z) (d : MemoryDriver) : MemoryDriver :=
  let keysToDelete := keys (filter (fun ke => expired now (snd ke) = true) (store d)) in
  with_store (fold_left (fun m k => map_delete k m) keysToDelete (store d)) d.

(** *** Sample drivers *)

(** A driver that holds one entry at most. *)
Definition capacity_one : MemoryDriver :=
  new_MemoryDriver (mkConfig (Some 1) None) (mkOptions None None).

(** A driver with a default time-to-live of one hour. *)
Definition memory_hour : MemoryDriver :=
  new_MemoryDriver (mkConfig None None) (mkOptions None (Some 3600)).

End Memory.

(** ** The networked driver: time-to-live and reconnection *)

Module Redis.

Record ReconnectOptions : Type := mkReconnect {
  maxRetries : option Z;
  retryDelay : option Z;
  exponentialBackoff : option bool
}.

(** The options as the caller hands them to the constructor. *)
Record DriverOptions : Type := mkOptions {
  opt_keyPrefix : option string;
  opt_defaultTtl : option Z;
  opt_reconnect : option ReconnectOptions
}.

(** [this.options]: the type leaves [reconnect] optional and the
    handlers test it, the constructor always fills it in. *)
Record ResolvedOptions : Type := mkResolved {
  keyPrefix : string;
  defaultTtl : Z;
  reconnect : option ReconnectOptions
}.

Record RedisDriver : Type := mkDriver {
  options : ResolvedOptions;
  reconnectTimer : option nat;
  reconnectAttempts : Z;
  isConnecting : bool
}.

(** A timer of the event loop that has been set and has neither fired
    nor been cleared. *)
Record Timer : Type := mkTimer {
  timer_id : nat;
  timer_delay : Z
}.

(** The driver together with the timers of the event loop. *)
Record World : Type := mkWorld {
  driver : RedisDriver;
  timers : list Timer;
  nextTimer : nat
}.

Definition defaultReconnect : ReconnectOptions :=
  {| maxRetries := Some 5; retryDelay := Some 1000; exponentialBackoff := Some true |}.

(** [new RedisDriver(config, options)] *)
Definition new_RedisDriver (o : DriverOptions) : RedisDriver :=
  {| options := {| keyPrefix := default EmptyString (opt_keyPrefix o);
                   defaultTtl := default 3600 (opt_defaultTtl o);
                   reconnect := Some (default defaultReconnect (opt_reconnect o)) |};
     reconnectTimer := None;
     reconnectAttempts := 0;
     isConnecting := false |}.

Definition new_World (o : DriverOptions) : World :=
  {| driver := new_RedisDriver o; timers := []; nextTimer := 0%nat |}.

(** *** [set]: the command sent to the server *)

Inductive Command : Type :=
| SETEX (fullKey : string) (seconds : Z) (payload : string)
| SET (fullKey : string) (payload : string).

Definition getFullKey (d : RedisDriver) (key : string) : string :=
  if String.eqb (keyPrefix (options d)) EmptyString
  then key
  else (keyPrefix (options d) ++ key)%string.

(** [ttl ?? this.options.defaultTtl] *)
Definition effectiveTtl (ttl : option Z) (d : RedisDriver) : Z :=
  match ttl with
  | Some t => t
  | None => defaultTtl (options d)
  end.

(** The body of the [try] block of [set]; [payload] is the serialized
    value. *)
Definition set_command (key payload : string) (ttl : option Z) (d : RedisDriver)
  : Command :=
  let fullKey := getFullKey d key in
  let eff := effectiveTtl ttl d in
  if negb (eff =? 0) && (eff >? 0)
  then SETEX fullKey eff payload
  else SET fullKey payload.

(** *** Reconnection *)

Definition with_driver (d : RedisDriver) (w : World) : World :=
  {| driver := d; timers := timers w; nextTimer := nextTimer w |}.

Definition with_timer (t : option nat) (d : RedisDriver) : RedisDriver :=
  {| options := options d; reconnectTimer := t;
     reconnectAttempts := reconnectAttempts d; isConnecting := isConnecting d |}.

Definition with_attempts (n : Z) (d : RedisDriver) : RedisDriver :=
  {| options := options d; reconnectTimer := reconnectTimer d;
     reconnectAttempts := n; isConnecting := isConnecting d |}.

Definition with_connecting (b : bool) (d : RedisDriver) : RedisDriver :=
  {| options := options d; reconnectTimer := reconnectTimer d;
     reconnectAttempts := reconnectAttempts d; isConnecting := b |}.

(** [setTimeout(callback, delay)]: the handle and the new event loop. *)
Definition setTimeout (delay : Z) (w : World) : nat * World :=
  (nextTimer w,
   {| driver := driver w;
      timers := timers w ++ [mkTimer (nextTimer w) delay];
      nextTimer := S (nextTimer w) |}).

Definition clearTimeout (id : nat) (w : World) : World :=
  {| driver := driver w;
     timers := filter (fun t => timer_id t ≠ id) (timers w);
     nextTimer := nextTimer w |}.

(** [this.options.reconnect.maxRetries ?? 5] *)
Definition resolved_maxRetries (ro : ReconnectOptions) : Z :=
  default 5 (maxRetries ro).

(** [this.options.reconnect?.retryDelay ?? 1000] *)
Definition resolved_baseDelay (d : RedisDriver) : Z :=
  default 1000 (reconnect (options d) ≫= retryDelay).

(** [this.options.reconnect?.exponentialBackoff ?? true] *)
Definition resolved_backoff (d : RedisDriver) : bool :=
  default true (reconnect (options d) ≫= exponentialBackoff).

(** The [delay] computed by [scheduleReconnect]. *)
Definition reconnectDelay (d : RedisDriver) : Z :=
  if resolved_backoff d
  then resolved_baseDelay d * 2 ^ Z.min (reconnectAttempts d) 6
  else resolved_baseDelay d.

(** [scheduleReconnect()], up to the call of [setTimeout]. *)
Definition scheduleReconnect (w : World) : World :=
  match reconnectTimer (driver w) with
  | Some _ => w
  | None =>
      let '(id, w') := setTimeout (reconnectDelay (driver w)) w in
      with_driver (with_timer (Some id) (driver w')) w'
  end.

(** [handleConnectionError()] *)
Definition handleConnectionError (w : World) : World :=
  if isConnecting (driver w) then w else
  match reconnect (options (driver w)) with
  | None => w
  | Some ro =>
      if reconnectAttempts (driver w) >=? resolved_maxRetries ro then w
      else scheduleReconnect w
  end.

(** The timer part of [disconnect()] and of the ['connect'] listener:
    [if (this.reconnectTimer) { clearTimeout(...); this.reconnectTimer = null }] *)
Definition clearReconnectTimer (w : World) : World :=
  match reconnectTimer (driver w) with
  | Some id =>
      let w' := clearTimeout id w in
      with_driver (with_timer None (driver w')) w'
  | None => w
  end.

(** [disconnect()] up to [await this.client.disconnect()]: the
    reconnection timer is cleared.  What the client emits while that
    call is awaited reaches the driver through the listeners, as an
    event of its own ([ClientEnd] below). *)
Definition disconnect (w : World) : World := clearReconnectTimer w.

(** [initialize()]: a successful connect resets the counter, a failed
    one throws and leaves it. *)
Definition initialize (ok : bool) (w : World) : World :=
  if ok then with_driver (with_attempts 0 (driver w)) w else w.

(** The ['connect'] listener. *)
Definition onConnect (w : World) : World :=
  clearReconnectTimer (with_driver (with_attempts 0 (driver w)) w).

(** The timer callback up to [await this.reconnect()], which has run
    [disconnect()] by the time it suspends. *)
Definition timerCallback_begin (w : World) : World :=
  let d := driver w in
  let d1 := with_timer None d in
  let d2 := with_attempts (reconnectAttempts d1 + 1) d1 in
  let d3 := with_connecting true d2 in
  disconnect (with_driver d3 w).

(** The timer callback from the point where [this.reconnect()] settles. *)
Definition timerCallback_end (ok : bool) (w : World) : World :=
  if ok then
    let w1 := initialize true w in
    with_driver (with_connecting false (driver w1)) w1
  else
    handleConnectionError (with_driver (with_connecting false (driver w)) w).

Definition timer_pending (id : nat) (w : World) : bool :=
  existsb (fun t => Nat.eqb (timer_id t) id) (timers w).

(** What can happen to a driver. *)
Inductive Event : Type :=
| ClientError                       (* the client emits 'error' *)
| ClientEnd                         (* the client emits 'end' *)
| ClientConnect                     (* the client emits 'connect' *)
| TimerFires (id : nat)             (* a pending timer elapses *)
| ReconnectSettles (ok : bool)      (* the reconnect() awaited by the callback settles *)
| CallDisconnect                    (* disconnect() is called: its own steps *)
| CallInitialize (ok : bool)        (* initialize() is called and settles *)
| CallReconnect (ok : bool).        (* reconnect() is called and settles *)

(** One event.  A timer fires only while it is pending, and the callback
    resumes only while one is suspended, which is when [isConnecting]
    holds.  The calls are the driver's own steps; the ['end'] that a
    client emits when it is disconnected is the event [ClientEnd]. *)
Definition step (w : World) (e : Event) : World :=
  match e with
  | ClientError | ClientEnd => handleConnectionError w
  | ClientConnect => onConnect w
  | TimerFires id =>
      if timer_pending id w
      then timerCallback_begin (clearTimeout id w)
      else w
  | ReconnectSettles ok =>
      if isConnecting (driver w) then timerCallback_end ok w else w
  | CallDisconnect => disconnect w
  | CallInitialize ok => initialize ok w
  | CallReconnect ok => initialize ok (disconnect w)
  end.

Definition run (w : World) (es : list Event) : World := fold_left step es w.

(** The events that report a failed connection: the client's 'error'
    and 'end', and a reconnection attempt that fails; [TimerFires] is the
    passage of time between them. *)
Definition is_failure (e : Event) : bool :=
  match e with
  | ClientError | ClientEnd | TimerFires _ | ReconnectSettles false => true
  | _ => false
  end.

(** *** Invariants of the reconnection state *)

(** The handle the driver keeps and the timers of the event loop
    agree: the pending timers are exactly the one the handle names. *)
Definition timer_inv (w : World) : Prop :=
  match reconnectTimer (driver w) with
  | Some id => exists delay, timers w = [mkTimer id delay]
  | None => timers w = []
  end.

(** The counter stays within [0 .. bound], and strictly below the bound
    while a timer is pending. *)
Definition count_inv (bound : Z) (w : World) : Prop :=
  0 <= reconnectAttempts (driver w) <= bound /\
  (reconnectTimer (driver w) <> None -> reconnectAttempts (driver w) < bound).

(** The retry bound in force: [maxRetries ?? 5] of the reconnect
    options. *)
Definition bound_is (bound : Z) (w : World) : Prop :=
  exists ro, reconnect (options (driver w)) = Some ro /\ resolved_maxRetries ro = bound.

(** Nothing pending and the counter at the bound. *)
Definition exhausted (bound : Z) (w : World) : Prop :=
  timers w = [] /\ reconnectTimer (driver w) = None /\
  reconnectAttempts (driver w) = bound.

(** *** Sample drivers and runs *)

(** A driver with a default time-to-live of one hour. *)
Definition redis_hour : RedisDriver :=
  new_RedisDriver (mkOptions None (Some 3600) None).

(** [{maxRetries: 2, retryDelay: 100, exponentialBackoff: true}] *)
Definition two_retries : DriverOptions :=
  mkOptions None None (Some (mkReconnect (Some 2) (Some 100) (Some true))).

(** A lost connection, then two reconnection attempts that fail: three
    failures in a row. *)
Definition three_failures : list Event :=
  [ClientError; TimerFires 0; ReconnectSettles false;
   TimerFires 1; ReconnectSettles false].

End Redis.

(** ** The distributed-object driver: counters *)

Module Memcached.

(** How the client library answers through its callback
    [(err, result)]; [promisify] rejects on [err] and resolves with
    [result] otherwise. *)
Inductive Reply (A : Type) : Type :=
| Resolved (result : A)
| Rejected.
Arguments Resolved {A} result.
Arguments Rejected {A}.

(** A [result] of [incr]/[decr]: a number or something else (the type
    admits a boolean). *)
Inductive CounterResult : Type :=
| IsNumber (n : Z)
| NotNumber.

(** The commands the driver hands to the client. *)
Inductive ClientCall : Type :=
| CallIncr (fullKey : string) (amount : Z)
| CallDecr (fullKey : string) (amount : Z)
| CallSet (fullKey : string) (payload : Z) (lifetime : Z).

Inductive DriverError : Type :=
| CacheConnectionError
| CacheDriverError (operation : string).

Record MemcachedDriver : Type := mkDriver {
  keyPrefix : string;
  defaultTtl : Z;
  isConnected : bool;
  hasClient : bool
}.

(** [isReady()] *)
Definition isReady (d : MemcachedDriver) : bool := isConnected d && hasClient d.

Definition getFullKey (d : MemcachedDriver) (key : string) : string :=
  if String.eqb (keyPrefix d) EmptyString then key else (keyPrefix d ++ key)%string.

(** [set(key, value)] without a time-to-live, for a numeric value:
    the call made and whether it went through. *)
Definition set_number (key : string) (v : Z) (reply : Reply unit) (d : MemcachedDriver)
  : (DriverError + unit) * list ClientCall :=
  if negb (isReady d) then (inl CacheConnectionError, [])
  else
    let call := CallSet (getFullKey d key) v (defaultTtl d) in
    match reply with
    | Resolved _ => (inr tt, [call])
    | Rejected => (inl (CacheDriverError "set"), [call])
    end.

(** [increment(key, increment = 1)], given the client's answer to
    [incr] and, should the driver fall back to [set], to that. *)
Definition increment (key : string) (amount : option Z)
    (incrReply : Reply CounterResult) (setReply : Reply unit) (d : MemcachedDriver)
  : (DriverError + Z) * list ClientCall :=
  let inc := default 1 amount in
  if negb (isReady d) then (inl CacheConnectionError, [])
  else
    let fullKey := getFullKey d key in
    match incrReply with
    | Resolved (IsNumber r) => (inr r, [CallIncr fullKey inc])
    | Resolved NotNumber => (inr inc, [CallIncr fullKey inc])
    | Rejected =>
        match set_number key inc setReply d with
        | (inr _, calls) => (inr inc, CallIncr fullKey inc :: calls)
        | (inl _, calls) => (inl (CacheDriverError "increment"), CallIncr fullKey inc :: calls)
        end
    end.

(** [decrement(key, decrement = 1)] *)
Definition decrement (key : string) (amount : option Z)
    (decrReply : Reply CounterResult) (setReply : Reply unit) (d : MemcachedDriver)
  : (DriverError + Z) * list ClientCall :=
  let dec := default 1 amount in
  if negb (isReady d) then (inl CacheConnectionError, [])
  else
    let fullKey := getFullKey d key in
    match decrReply with
    | Resolved (IsNumber r) => (inr r, [CallDecr fullKey dec])
    | Resolved NotNumber => (inr (- dec), [CallDecr fullKey dec])
    | Rejected =>
        let newValue := - dec in
        match set_number key newValue setReply d with
        | (inr _, calls) => (inr newValue, CallDecr fullKey dec :: calls)
        | (inl _, calls) => (inl (CacheDriverError "decrement"), CallDecr fullKey dec :: calls)
        end
    end.

End Memcached.

(** ** The facade and its stores *)

Module Facade.

Inductive CacheError : Type :=
| CacheConfigurationError (message : string)
| CacheInitializationError (storeName : string).

Definition notInitialized : CacheError :=
  CacheConfigurationError "Cache not initialized. Call Cache.initialize() first.".

Definition storeNotFound (storeName : string) : CacheError :=
  CacheConfigurationError
    ("Store '" ++ storeName ++ "' not found in configuration.").

Definition unknownDriver (tag : string) : CacheError :=
  CacheConfigurationError ("Unknown driver type: " ++ tag).

(** The operations of the facade and of a store proxy, with their
    arguments. *)
Inductive Operation : Type :=
| Get (key : string)
| Set_ (key : string) (v : Memory.Value) (ttl : option Z)
| Delete (key : string)
| Exists (key : string)
| Clear
| GetMultiple (ks : list string)
| SetMultiple (entries : list (string * Memory.Value)) (ttl : option Z)
| DeleteMultiple (ks : list string)
| Increment (key : string) (amount : option Z)
| Decrement (key : string) (amount : option Z)
| GetStats.

(** What reaches a backend: every constructor call and every method
    call on a driver, in order.  A driver is named by the address of
    the store instance that holds it. *)
Inductive BackendCall : Type :=
| Construct (storeName : string) (tag : string) (instance : nat)
| Initialize (instance : nat)
| Invoke (instance : nat) (op : Operation)
| Disconnect (instance : nat).

Record StoreConfig : Type := mkStoreConfig {
  driver : string
}.

Record CacheConfig : Type := mkCacheConfig {
  default_ : string;
  cfg_stores : gmap string StoreConfig
}.

(** A [StoreInstance] object; several holders may point at one. *)
Record StoreInstance : Type := mkInstance {
  inst_name : string;
  initialized : bool
}.

(** The static fields of [Cache], the store instances they point at,
    and the calls made on backends so far. *)
Record Cache : Type := mkCache {
  config : option CacheConfig;
  stores : gmap string nat;
  defaultStore : option string;
  heap : list StoreInstance;
  log : list BackendCall
}.

(** Before [Cache.initialize] has run. *)
Definition initial : Cache :=
  {| config := None; stores := ∅; defaultStore := None; heap := []; log := [] |}.

Definition known_driver (tag : string) : bool :=
  String.eqb tag "memory" || String.eqb tag "redis" || String.eqb tag "memcached".

Definition with_log (c : Cache) (call : BackendCall) : Cache :=
  {| config := config c; stores := stores c; defaultStore := defaultStore c;
     heap := heap c; log := log c ++ [call] |}.

(** [storeInstance.initialized = true], on the object at [a]. *)
Definition mark_initialized (a : nat) (c : Cache) : Cache :=
  {| config := config c; stores := stores c; defaultStore := defaultStore c;
     heap := alter (fun i => mkInstance (inst_name i) true) a (heap c);
     log := log c |}.

(** Allocate a fresh instance for [storeName] and record it in
    [this.stores]. *)
Definition add_instance (storeName : string) (c : Cache) : nat * Cache :=
  let a := length (heap c) in
  (a, {| config := config c;
         stores := <[storeName := a]> (stores c);
         defaultStore := defaultStore c;
         heap := heap c ++ [mkInstance storeName false];
         log := log c |}).

(** Where a call of [getStoreInstance] stands when it gives control
    back. *)
Inductive Outcome : Type :=
| Threw (e : CacheError)
| Returned (instance : nat)       (* the driver of that instance *)
| AwaitingInit (instance : nat).  (* suspended in [initializeStore] *)

(** The names every plain object inherits from [Object.prototype]. *)
Definition object_prototype_names : list string :=
  ["constructor"; "__defineGetter__"; "__defineSetter__"; "hasOwnProperty";
   "__lookupGetter__"; "__lookupSetter__"; "isPrototypeOf"; "propertyIsEnumerable";
   "toString"; "valueOf"; "__proto__"; "toLocaleString"].

(** What [this.config.stores[storeName]] finds.  [stores] is a plain
    object and [cfg_stores] holds its own properties: a name it does
    not hold itself is looked up in [Object.prototype], whose members
    (functions, and the prototype itself for ["__proto__"]) are truthy
    and have no [driver] field. *)
Inductive StoreEntry : Type :=
| Listed (storeConfig : StoreConfig)
| Inherited.

Definition config_stores_get (cfg : CacheConfig) (storeName : string)
  : option StoreEntry :=
  match cfg_stores cfg !! storeName with
  | Some storeConfig => Some (Listed storeConfig)
  | None =>
      if bool_decide (storeName ∈ object_prototype_names) then Some Inherited
      else None
  end.

(** [getStoreInstance(storeName)] from the call to the first point
    where it gives control back: it throws, returns the driver, or has
    called [driver.initialize()] and awaits it.  [createDriver] throws
    in the [default] branch of its [switch] for every [config.driver]
    that is none of the three tags, [undefined] included, which the
    message prints as ["undefined"].  [StoreManager.getStore] takes the
    same steps from the lookup of [storeConfig] on.  An address read
    from [stores] is always allocated: instances are never freed. *)
Definition getStoreInstance (storeName : string) (c : Cache) : Outcome * Cache :=
  match config c with
  | None => (Threw notInitialized, c)
  | Some cfg =>
      match config_stores_get cfg storeName with
      | None => (Threw (storeNotFound storeName), c)
      | Some entry =>
          let found :=
            match stores c !! storeName with
            | Some a => inr (a, c)
            | None =>
                match entry with
                | Listed storeConfig =>
                    if known_driver (driver storeConfig) then
                      let '(a, c1) := add_instance storeName c in
                      inr (a, with_log c1 (Construct storeName (driver storeConfig) a))
                    else inl (unknownDriver (driver storeConfig))
                | Inherited => inl (unknownDriver "undefined")
                end
            end in
          match found with
          | inl e => (Threw e, c)
          | inr (a, c1) =>
              match heap c1 !! a with
              | Some inst =>
                  if initialized inst then (Returned a, c1)
                  else (AwaitingInit a, with_log c1 (Initialize a))
              | None => (Returned a, c1)
              end
          end
      end
  end.

(** [initializeStore] from the point where [driver.initialize()]
    settles. *)
Definition initializeStore_resume (a : nat) (ok : bool) (c : Cache)
  : Outcome * Cache :=
  if ok then (Returned a, mark_initialized a c)
  else
    (Threw (CacheInitializationError
              (default EmptyString (inst_name <$> heap c !! a))), c).

(** [getDefaultStore()] up to the first point where it gives control
    back; [!this.defaultStore] holds for [null] and for the empty
    string. *)
Definition getDefaultStore (c : Cache) : Outcome * Cache :=
  match defaultStore c with
  | None => (Threw notInitialized, c)
  | Some name =>
      if String.eqb name EmptyString then (Threw notInitialized, c)
      else getStoreInstance name c
  end.

(** A call in progress: the store lookup it waits for, and the
    operation it will hand to the driver, if any. *)
Inductive Task : Type :=
| Failed (e : CacheError)
| Suspended (instance : nat) (then_ : option Operation)
| Done (instance : nat).

(** What a method does once it holds the driver: [store.op(...)]. *)
Definition deliver (a : nat) (then_ : option Operation) (c : Cache) : Task * Cache :=
  match then_ with
  | Some op => (Done a, with_log c (Invoke a op))
  | None => (Done a, c)
  end.

Definition continue_with (then_ : option Operation) (r : Outcome * Cache)
  : Task * Cache :=
  match fst r with
  | Threw e => (Failed e, snd r)
  | Returned a => deliver a then_ (snd r)
  | AwaitingInit a => (Suspended a then_, snd r)
  end.

(** [Cache.get(key)], [Cache.set(...)], ...: every operation of the
    facade is [const store = await this.getDefaultStore(); return
    store.op(...)]. *)
Definition Cache_call (op : Operation) (c : Cache) : Task * Cache :=
  continue_with (Some op) (getDefaultStore c).

(** [Cache.store(name).get(key)], ...: the same through
    [getStoreInstance(this.storeName)]. *)
Definition Proxy_call (storeName : string) (op : Operation) (c : Cache)
  : Task * Cache :=
  continue_with (Some op) (getStoreInstance storeName c).

(** A bare acquisition of a store. *)
Definition acquire (storeName : string) (c : Cache) : Task * Cache :=
  continue_with None (getStoreInstance storeName c).

(** A suspended call resumes when the [initialize()] it awaits settles. *)
Definition resume (t : Task) (ok : bool) (c : Cache) : Task * Cache :=
  match t with
  | Suspended a then_ =>
      match initializeStore_resume a ok c with
      | (Returned a', c1) => deliver a' then_ c1
      | (Threw e, c1) => (Failed e, c1)
      | (AwaitingInit a', c1) => (Suspended a' then_, c1)
      end
  | _ => (t, c)
  end.

(** [Cache.initialize(config)] up to the first point where it gives
    control back. *)
Definition Cache_initialize (cfg : CacheConfig) (c : Cache) : Task * Cache :=
  let c1 := {| config := Some cfg; stores := ∅;
               defaultStore := Some (default_ cfg);
               heap := heap c; log := log c |} in
  acquire (default_ cfg) c1.

(** Calls running side by side on the one thread: each action either
    starts a call, which runs until it gives control back, or lets the
    [initialize()] awaited by the call numbered [i] settle. *)
Inductive Action : Type :=
| Start (storeName : string)
| Settle (i : nat) (ok : bool).

Definition schedule (st : list Task * Cache) (act : Action) : list Task * Cache :=
  let '(tasks, c) := st in
  match act with
  | Start storeName =>
      let '(t, c1) := acquire storeName c in (tasks ++ [t], c1)
  | Settle i ok =>
      match tasks !! i with
      | Some t => let '(t1, c1) := resume t ok c in (<[i := t1]> tasks, c1)
      | None => (tasks, c)
      end
  end.

Definition interleave (acts : list Action) (c : Cache) : list Task * Cache :=
  fold_left schedule acts ([], c).

Definition is_initialize (a : nat) (call : BackendCall) : bool :=
  match call with Initialize a' => Nat.eqb a' a | _ => false end.

Definition is_construct (storeName : string) (call : BackendCall) : bool :=
  match call with Construct n _ _ => String.eqb n storeName | _ => false end.

(** How often [initialize()] was invoked on the driver of instance [a]. *)
Definition initialize_calls (a : nat) (c : Cache) : nat :=
  length (filter (fun call => is_initialize a call = true) (log c)).

(** How many drivers were constructed for [storeName]. *)
Definition construct_calls (storeName : string) (c : Cache) : nat :=
  length (filter (fun call => is_construct storeName call = true) (log c)).

(** *** States of a store *)

(** The store [s] has an instance at [a] whose driver has not been
    marked initialized. *)
Definition uninitialized_at (s : string) (a : nat) (c : Cache) : Prop :=
  (exists cfg sc, config c = Some cfg /\ cfg_stores cfg !! s = Some sc) /\
  stores c !! s = Some a /\
  exists inst, heap c !! a = Some inst /\ initialized inst = false.

(** The store [s] has an instance at [a] marked initialized. *)
Definition initialized_at (s : string) (a : nat) (c : Cache) : Prop :=
  (exists cfg sc, config c = Some cfg /\ cfg_stores cfg !! s = Some sc) /\
  stores c !! s = Some a /\
  exists inst, heap c !! a = Some inst /\ initialized inst = true.

(** *** A sample configuration *)

(** Two in-process stores, "main" being the default. *)
Definition two_stores : CacheConfig :=
  mkCacheConfig "main"
    (<["main" := mkStoreConfig "memory"]> (<["s" := mkStoreConfig "memory"]> ∅)).

(** The facade after [await Cache.initialize(two_stores)] has
    completed. *)
Definition ready : Cache :=
  let r := Cache_initialize two_stores initial in
  snd (resume (fst r) true (snd r)).

End Facade.

(** ** The in-process driver: bulk operations, runs and timers *)

Module MemoryOps.
Import Memory.

(** The answer of [getMultiple] is a plain object, [const result = {}]:
    the properties it holds itself, and its prototype. *)
Inductive Prototype : Type :=
| ObjectPrototype                (* [Object.prototype], as [{}] has it *)
| NullPrototype                  (* [null] *)
| CachedObject (addr : nat).     (* an object the cache holds *)

Record PlainObject : Type := mkObject {
  own : gmap string Value;
  prototype : Prototype
}.

(** [{}] *)
Definition emptyObject : PlainObject :=
  {| own := ∅; prototype := ObjectPrototype |}.

(** [result[key] = v].  The one accessor of [Object.prototype] is
    ["__proto__"]: an assignment to that name runs its setter, which
    replaces the prototype when [v] is an object or [null] and does
    nothing for another value, and adds no property; every other name
    becomes a property of the object itself.  An object without
    prototype inherits no setter: every name, ["__proto__"] included,
    becomes a property of its own.  Once a cached object is the
    prototype, what an assignment does depends on the properties of
    that object, which the driver does not hold: [None]. *)
Definition assign (key : string) (v : Value) (o : PlainObject) : option PlainObject :=
  match prototype o with
  | ObjectPrototype =>
      if String.eqb key "__proto__" then
        match v with
        | VNull => Some {| own := own o; prototype := NullPrototype |}
        | VRef addr => Some {| own := own o; prototype := CachedObject addr |}
        | _ => Some o
        end
      else Some {| own := <[key := v]> (own o); prototype := ObjectPrototype |}
  | NullPrototype => Some {| own := <[key := v]> (own o); prototype := NullPrototype |}
  | CachedObject _ => None
  end.

(** [getMultiple(keys)]: one [get] per key, in order, each result
    assigned under its key in the answer.  [clock i] gives the two
    clock readings of the [get] number [i].  The answer is [None] once
    an assignment is made that the driver's state does not determine
    (should that assignment throw, the loop ends there, and the driver
    is as after the call on the keys read so far). *)
Fixpoint getMultiple_from (i : nat) (clock : nat -> Z * Z) (ks : list string)
    (result : option PlainObject) (d : MemoryDriver)
  : option PlainObject * MemoryDriver :=
  match ks with
  | [] => (result, d)
  | key :: rest =>
      let '(v, d1) := get (fst (clock i)) (snd (clock i)) key d in
      getMultiple_from (S i) clock rest (result ≫= assign key v) d1
  end.

Definition getMultiple (clock : nat -> Z * Z) (ks : list string) (d : MemoryDriver)
  : option PlainObject * MemoryDriver :=
  getMultiple_from 0 clock ks (Some emptyObject) d.

(** [setMultiple(entries, ttl?)]: one [set] per entry of
    [Object.entries(entries)], in order.  [clock i] gives the two clock
    readings of the [set] number [i]. *)
Fixpoint setMultiple_from (i : nat) (clock : nat -> Z * Z)
    (entries : list (string * Value)) (ttl : option Z) (d : MemoryDriver)
  : MemoryDriver :=
  match entries with
  | [] => d
  | (key, v) :: rest =>
      setMultiple_from (S i) clock rest ttl
        (set (fst (clock i)) (snd (clock i)) key v ttl d)
  end.

Definition setMultiple (clock : nat -> Z * Z) (entries : list (string * Value))
    (ttl : option Z) (d : MemoryDriver) : MemoryDriver :=
  setMultiple_from 0 clock entries ttl d.

(** A call on the driver, with the clock readings it makes. *)
Inductive Call : Type :=
| CGet (t_check t_touch : Z) (key : string)
| CSet (now t_evict : Z) (key : string) (v : Value) (ttl : option Z)
| CDelete (key : string)
| CExists (now : Z) (key : string)
| CClear
| CGetMultiple (clock : nat -> Z * Z) (ks : list string)
| CSetMultiple (clock : nat -> Z * Z) (entries : list (string * Value)) (ttl : option Z)
| CDeleteMultiple (ks : list string)
| CIncrement (t_check t_touch t_set t_evict : Z) (key : string) (amount : option Z)
| CDecrement (t_check t_touch t_set t_evict : Z) (key : string) (amount : option Z)
| CCleanup (now : Z).

(** The driver after a call. *)
Definition after (d : MemoryDriver) (c : Call) : MemoryDriver :=
  match c with
  | CGet t_check t_touch key => snd (get t_check t_touch key d)
  | CSet now te key v ttl => set now te key v ttl d
  | CDelete key => snd (delete key d)
  | CExists now key => snd (exists_ now key d)
  | CClear => clear d
  | CGetMultiple clock ks => snd (getMultiple clock ks d)
  | CSetMultiple clock entries ttl => setMultiple clock entries ttl d
  | CDeleteMultiple ks => snd (deleteMultiple ks d)
  | CIncrement t1 t2 t3 t4 key amount => snd (increment t1 t2 t3 t4 key amount d)
  | CDecrement t1 t2 t3 t4 key amount => snd (decrement t1 t2 t3 t4 key amount d)
  | CCleanup now => cleanup now d
  end.

Definition after_all (d : MemoryDriver) (cs : list Call) : MemoryDriver :=
  fold_left after cs d.




(** [s] begins with [p]. *)
Fixpoint starts_with (p s : string) : bool :=
  match p, s with
  | EmptyString, _ => true
  | String a p', String b s' => Ascii.eqb a b && starts_with p' s'
  | String _ _, EmptyString => false
  end.

(** What every call keeps, from the driver [d] before to the driver
    [d'] after: the configuration and the options, the uniqueness of
    keys, and that a key of the table was there before or carries the
    configured prefix. *)
Definition keeps (d d' : MemoryDriver) : Prop :=
  options d' = options d /\
  config d' = config d /\
  (wf (store d) -> wf (store d')) /\
  (forall k, In k (keys (store d')) ->
     In k (keys (store d)) \/ starts_with (keyPrefix (options d)) k = true).


(** The key [k] holds [v] in an entry that none of the reads timed by
    [clock] finds expired. *)
Definition readable (clock : nat -> Z * Z) (d : MemoryDriver) (k : string) (v : Value)
  : Prop :=
  exists e, map_get (getFullKey d k) (store d) = Some e /\ value e = v /\
            forall i, expired (fst (clock i)) e = false.

(** *** The sweep timer *)

(** The interval timers of the event loop that are running, and the
    handle the driver keeps in [cleanupTimer]. *)
Record Lifecycle : Type := mkLifecycle {
  cleanupHandle : option nat;
  intervals : list (nat * Z);
  nextInterval : nat
}.

Definition fresh : Lifecycle :=
  {| cleanupHandle := None; intervals := []; nextInterval := 0%nat |}.

(** [validateConfig()]: the message of the error it throws, if any. *)
Definition validateConfig (c : MemoryConfig) : option string :=
  match maxSize c with
  | Some m =>
      if m <=? 0 then Some "maxSize must be greater than 0"
      else
        match cleanupInterval c with
        | Some i => if i <=? 0 then Some "cleanupInterval must be greater than 0" else None
        | None => None
        end
  | None =>
      match cleanupInterval c with
      | Some i => if i <=? 0 then Some "cleanupInterval must be greater than 0" else None
      | None => None
      end
  end.

(** [startCleanupTimer()]: a new interval of
    [(cleanupInterval ?? 60) * 1000] milliseconds, whose handle replaces
    the one kept. *)
Definition startCleanupTimer (c : MemoryConfig) (l : Lifecycle) : Lifecycle :=
  let interval := default 60 (cleanupInterval c) * 1000 in
  {| cleanupHandle := Some (nextInterval l);
     intervals := intervals l ++ [(nextInterval l, interval)];
     nextInterval := S (nextInterval l) |}.

(** [initialize()]: the error thrown, or the timers after it. *)
Definition initialize (c : MemoryConfig) (l : Lifecycle) : string + Lifecycle :=
  match validateConfig c with
  | Some message => inl message
  | None => inr (startCleanupTimer c l)
  end.

(** [disconnect()] *)
Definition disconnect (l : Lifecycle) : Lifecycle :=
  match cleanupHandle l with
  | Some h =>
      {| cleanupHandle := None;
         intervals := filter (fun t => fst t ≠ h) (intervals l);
         nextInterval := nextInterval l |}
  | None => l
  end.

(** [reconnect()] *)
Definition reconnect (c : MemoryConfig) (l : Lifecycle) : Lifecycle :=
  match cleanupHandle l with
  | Some _ => l
  | None => startCleanupTimer c l
  end.

(** The lifecycle calls a holder of the driver can make. *)
Inductive LifecycleCall : Type :=
| LInitialize
| LDisconnect
| LReconnect.

(** The timers after a lifecycle call; a failed [initialize()] leaves
    them as they were. *)
Definition lifecycle_step (c : MemoryConfig) (l : Lifecycle) (call : LifecycleCall)
  : Lifecycle :=
  match call with
  | LInitialize => match initialize c l with inr l' => l' | inl _ => l end
  | LDisconnect => disconnect l
  | LReconnect => reconnect c l
  end.

Definition lifecycle_run (c : MemoryConfig) (l : Lifecycle) (calls : list LifecycleCall)
  : Lifecycle :=
  fold_left (lifecycle_step c) calls l.

Definition is_initialize (call : LifecycleCall) : bool :=
  match call with LInitialize => true | _ => false end.

(** The running intervals are exactly the one the driver holds a
    handle to. *)
Definition single_timer (c : MemoryConfig) (l : Lifecycle) : Prop :=
  intervals l
  = match cleanupHandle l with
    | Some h => [(h, default 60 (cleanupInterval c) * 1000)]
    | None => []
    end.

(** An interval that runs although the driver holds no handle to it. *)
Definition orphan (h : nat) (period : Z) (l : Lifecycle) : Prop :=
  In (h, period) (intervals l) /\ cleanupHandle l <> Some h /\ (h < nextInterval l)%nat.

End MemoryOps.

(** ** The networked driver: bounds of the delay *)

Module RedisShutdown.
Import Redis.

(** [disconnect()] in full.  [isOpen] is [this.client &&
    this.client.isOpen]: an open client is disconnected, and emits
    ['end'] before [client.disconnect()] settles, so the listener that
    [setupEventListeners] registered runs while [disconnect()] is
    suspended, after the timer has been cleared. *)
Definition disconnect_call (isOpen : bool) (w : World) : World :=
  let w1 := disconnect w in
  if isOpen then step w1 ClientEnd else w1.

End RedisShutdown.

Module RedisBounds.
Import Redis.

(** The counter is not negative and every pending timer waits between
    the base delay [b] and 64 times it. *)
Definition delays_within (b : Z) (w : World) : Prop :=
  0 <= reconnectAttempts (driver w) /\
  Forall (fun t => b <= timer_delay t <= 64 * b) (timers w).

End RedisBounds.

(** ** The distributed-object driver: reconnection *)

Module MemcachedReconnect.

(** The driver, its reconnection fields and the timers of the event
    loop. *)
Record World : Type := mkWorld {
  driver : Memcached.MemcachedDriver;
  reconnect : option Redis.ReconnectOptions;
  reconnectTimer : option nat;
  reconnectAttempts : Z;
  timers : list Redis.Timer;
  nextTimer : nat
}.

(** [new MemcachedDriver(config, options)] *)
Definition new_World (o : Redis.DriverOptions) : World :=
  {| driver := {| Memcached.keyPrefix := default EmptyString (Redis.opt_keyPrefix o);
                  Memcached.defaultTtl := default 3600 (Redis.opt_defaultTtl o);
                  Memcached.isConnected := false;
                  Memcached.hasClient := false |};
     reconnect := Some (default Redis.defaultReconnect (Redis.opt_reconnect o));
     reconnectTimer := None;
     reconnectAttempts := 0;
     timers := [];
     nextTimer := 0%nat |}.

Definition with_connection (connected client : bool) (w : World) : World :=
  {| driver := {| Memcached.keyPrefix := Memcached.keyPrefix (driver w);
                  Memcached.defaultTtl := Memcached.defaultTtl (driver w);
                  Memcached.isConnected := connected;
                  Memcached.hasClient := client |};
     reconnect := reconnect w; reconnectTimer := reconnectTimer w;
     reconnectAttempts := reconnectAttempts w;
     timers := timers w; nextTimer := nextTimer w |}.

Definition with_attempts (n : Z) (w : World) : World :=
  {| driver := driver w; reconnect := reconnect w; reconnectTimer := reconnectTimer w;
     reconnectAttempts := n; timers := timers w; nextTimer := nextTimer w |}.

(** The [delay] computed by [scheduleReconnect]. *)
Definition reconnectDelay (w : World) : Z :=
  let baseDelay := default 1000 (reconnect w ≫= Redis.retryDelay) in
  if default true (reconnect w ≫= Redis.exponentialBackoff)
  then baseDelay * 2 ^ Z.min (reconnectAttempts w) 6
  else baseDelay.

(** [scheduleReconnect()], up to the call of [setTimeout]. *)
Definition scheduleReconnect (w : World) : World :=
  match reconnectTimer w with
  | Some _ => w
  | None =>
      {| driver := driver w; reconnect := reconnect w;
         reconnectTimer := Some (nextTimer w);
         reconnectAttempts := reconnectAttempts w;
         timers := timers w ++ [Redis.mkTimer (nextTimer w) (reconnectDelay w)];
         nextTimer := S (nextTimer w) |}
  end.

(** [handleConnectionError()] *)
Definition handleConnectionError (w : World) : World :=
  match reconnect w with
  | None => w
  | Some ro =>
      if reconnectAttempts w >=? default 5 (Redis.maxRetries ro) then w
      else scheduleReconnect w
  end.

(** [if (this.reconnectTimer) { clearTimeout(...); this.reconnectTimer = null }] *)
Definition clearReconnectTimer (w : World) : World :=
  match reconnectTimer w with
  | Some id =>
      {| driver := driver w; reconnect := reconnect w; reconnectTimer := None;
         reconnectAttempts := reconnectAttempts w;
         timers := filter (fun t => Redis.timer_id t ≠ id) (timers w);
         nextTimer := nextTimer w |}
  | None => w
  end.

(** [disconnect()] *)
Definition disconnect (w : World) : World :=
  with_connection false false (clearReconnectTimer w).

(** [initialize()]: a new client in either case; when the test of the
    connection succeeds the driver is connected and the counter
    reset. *)
Definition initialize (ok : bool) (w : World) : World :=
  let w1 := with_connection (Memcached.isConnected (driver w)) true w in
  if ok then with_attempts 0 (with_connection true true w1) else w1.

(** The timer callback up to the point where [this.reconnect()] waits
    for the test of the new connection. *)
Definition timerCallback_begin (w : World) : World :=
  let w1 :=
    {| driver := driver w; reconnect := reconnect w; reconnectTimer := None;
       reconnectAttempts := reconnectAttempts w + 1;
       timers := timers w; nextTimer := nextTimer w |} in
  with_connection false true (disconnect w1).

(** The timer callback from the point where [this.reconnect()] settles. *)
Definition timerCallback_end (ok : bool) (w : World) : World :=
  if ok then with_attempts 0 (with_connection true (Memcached.hasClient (driver w)) w)
  else handleConnectionError w.

Definition timer_pending (id : nat) (w : World) : bool :=
  existsb (fun t => Nat.eqb (Redis.timer_id t) id) (timers w).

Inductive Event : Type :=
| ServerFailure                     (* the client emits 'failure' *)
| ServerReconnect                   (* the client emits 'reconnect' *)
| TimerFires (id : nat)             (* a pending timer elapses *)
| ReconnectSettles (ok : bool)      (* the reconnect() awaited by a callback settles *)
| CallDisconnect                    (* disconnect() is called *)
| CallInitialize (ok : bool).       (* initialize() is called and settles *)

(** One event.  This driver keeps no record of an attempt in progress,
    so the model lets [ReconnectSettles] happen in any state. *)
Definition step (w : World) (e : Event) : World :=
  match e with
  | ServerFailure =>
      handleConnectionError
        (with_connection false (Memcached.hasClient (driver w)) w)
  | ServerReconnect =>
      clearReconnectTimer
        (with_attempts 0 (with_connection true (Memcached.hasClient (driver w)) w))
  | TimerFires id =>
      if timer_pending id w
      then timerCallback_begin
             {| driver := driver w; reconnect := reconnect w;
                reconnectTimer := reconnectTimer w;
                reconnectAttempts := reconnectAttempts w;
                timers := filter (fun t => Redis.timer_id t ≠ id) (timers w);
                nextTimer := nextTimer w |}
      else w
  | ReconnectSettles ok => timerCallback_end ok w
  | CallDisconnect => disconnect w
  | CallInitialize ok => initialize ok w
  end.

Definition run (w : World) (es : list Event) : World := fold_left step es w.

(** The events after which the connection has not come back. *)
Definition keeps_down (e : Event) : bool :=
  match e with
  | ServerFailure | TimerFires _ | ReconnectSettles false
  | CallDisconnect | CallInitialize false => true
  | _ => false
  end.

(** The handle and the pending timers agree, and the counter stays
    within [0 .. bound], strictly below it while a timer is pending. *)
Definition sound (bound : Z) (w : World) : Prop :=
  (exists ro, reconnect w = Some ro /\ default 5 (Redis.maxRetries ro) = bound) /\
  match reconnectTimer w with
  | Some id => (exists delay, timers w = [Redis.mkTimer id delay]) /\
               reconnectAttempts w < bound
  | None => timers w = []
  end /\
  0 <= reconnectAttempts w <= bound.

End MemcachedReconnect.

(** ** The facade: shutting down *)

Module FacadeShutdown.
Import Facade.

(** The instance at [a] is the one [this.stores] holds for its name
    and is marked initialized. *)
Definition is_target (c : Cache) (a : nat) : bool :=
  match heap c !! a with
  | Some inst => bool_decide (stores c !! inst_name inst = Some a) && initialized inst
  | None => false
  end.

(** The instances whose driver [Cache.disconnect()] disconnects, in
    the order of [this.stores.values()].  A [Map] iterates in insertion
    order; every insertion stores a newly allocated address and a name
    that is present is never set again, so that order is the order of
    the addresses. *)
Definition disconnect_targets (c : Cache) : list nat :=
  filter (fun a => is_target c a = true) (seq 0 (length (heap c))).

(** [Cache.disconnect()] up to [await Promise.all(disconnectPromises)]:
    [disconnect()] has been called on every target. *)
Definition Cache_disconnect_begin (c : Cache) : Cache :=
  {| config := config c; stores := stores c; defaultStore := defaultStore c;
     heap := heap c;
     log := log c ++ map Disconnect (disconnect_targets c) |}.

(** [Cache.disconnect()] from the point where [Promise.all] settles:
    when all the promises fulfilled, the fields are cleared; when one
    rejected, the method throws there and clears nothing. *)
Definition Cache_disconnect_end (ok : bool) (c : Cache) : Cache :=
  if ok then
    {| config := None; stores := ∅; defaultStore := None;
       heap := heap c; log := log c |}
  else c.

(** The whole call, given whether every driver disconnected. *)
Definition Cache_disconnect (ok : bool) (c : Cache) : Cache :=
  Cache_disconnect_end ok (Cache_disconnect_begin c).

(** The address [a] is allocated and no store name points at it: its
    driver is out of reach of the facade. *)
Definition unreachable (a : nat) (c : Cache) : Prop :=
  (a < length (heap c))%nat /\ forall s, stores c !! s <> Some a.

(** Since the state [c0], at most one driver was constructed for [s],
    and one exactly when [this.stores] holds the name. *)
Definition one_driver_since (s : string) (c0 c : Cache) : Prop :=
  construct_calls s c
  = (construct_calls s c0 + match stores c !! s with Some _ => 1 | None => 0 end)%nat.

End FacadeShutdown.

(** ** The driver registry (src/registry/driver.registry.ts) *)

Module Registry.
Section Registry.

(** A [DriverFactory]; what a factory builds plays no part in the
    registry.  [private static drivers = new Map<string, DriverFactory>()]
    is a [gmap string Factory]. *)
Context {Factory : Type}.

Inductive RegistryError : Type :=
| AlreadyRegistered (name : string)
| NotFound (name : string).

(** [DriverRegistry.has(name)] *)
Definition has (name : string) (d : gmap string Factory) : bool :=
  match d !! name with Some _ => true | None => false end.

(** [DriverRegistry.register(name, factory)] *)
Definition register (name : string) (f : Factory) (d : gmap string Factory)
  : RegistryError + gmap string Factory :=
  if has name d then inl (AlreadyRegistered name) else inr (<[name := f]> d).

(** [DriverRegistry.getFactory(name)]; a factory is a function, so
    [!factory] tests absence. *)
Definition getFactory (name : string) (d : gmap string Factory)
  : RegistryError + Factory :=
  match d !! name with
  | Some f => inr f
  | None => inl (NotFound name)
  end.

(** [DriverRegistry.clear()] *)
Definition clear (d : gmap string Factory) : gmap string Factory := ∅.

Inductive RegistryCall : Type :=
| Register (name : string) (f : Factory)
| Clear.

(** The registry after a call; a refused registration throws and leaves
    the map as it was. *)
Definition after (d : gmap string Factory) (c : RegistryCall)
  : gmap string Factory :=
  match c with
  | Register name f =>
      match register name f d with
      | inr d' => d'
      | inl _ => d
      end
  | Clear => clear d
  end.

Definition after_all (calls : list RegistryCall) (d : gmap string Factory)
  : gmap string Factory :=
  fold_left after calls d.

(** The factory of the earliest registration of [name] that no later
    [clear()] has wiped, reading the calls from the last one back:
    [later] is the answer found among the calls already read. *)
Fixpoint standing (name : string) (rev_calls : list RegistryCall)
    (later : option Factory) : option Factory :=
  match rev_calls with
  | [] => later
  | Clear :: _ => later
  | Register n f :: earlier =>
      standing name earlier (if String.eqb n name then Some f else later)
  end.

End Registry.
End Registry.

(** ** The options the facade hands to a driver *)

Module FacadeOptions.

(** The fields of [CacheConfig] that [createDriver] reads. *)
Record Globals : Type := mkGlobals {
  globalTtl : option Z
}.

(** The fields of a [StoreConfig] that [createDriver] reads, next to
    [driver] and [connection]. *)
Record StoreSettings : Type := mkSettings {
  cfg_keyPrefix : option string;
  cfg_defaultTtl : option Z;
  cfg_reconnect : option Redis.ReconnectOptions
}.

(** [config.defaultTtl ?? this.config?.globalTtl ?? 3600] *)
Definition options_defaultTtl (g : option Globals) (sc : StoreSettings) : Z :=
  default (default 3600 (g ≫= globalTtl)) (cfg_defaultTtl sc).

(** [case 'memory': return new MemoryDriver(config.connection, options)] *)
Definition createMemoryDriver (g : option Globals) (sc : StoreSettings)
    (connection : Memory.MemoryConfig) : Memory.MemoryDriver :=
  Memory.new_MemoryDriver connection
    {| Memory.opt_keyPrefix := cfg_keyPrefix sc;
       Memory.opt_defaultTtl := Some (options_defaultTtl g sc) |}.

(** [case 'redis': return new RedisDriver(config.connection, options)] *)
Definition createRedisDriver (g : option Globals) (sc : StoreSettings)
  : Redis.RedisDriver :=
  Redis.new_RedisDriver
    {| Redis.opt_keyPrefix := cfg_keyPrefix sc;
       Redis.opt_defaultTtl := Some (options_defaultTtl g sc);
       Redis.opt_reconnect :=
         match cfg_reconnect sc with
         | Some r => Some {| Redis.maxRetries := Redis.maxRetries r;
                             Redis.retryDelay := Redis.retryDelay r;
                             Redis.exponentialBackoff := Redis.exponentialBackoff r |}
         | None => None
         end |}.

(** The time-to-live by precedence: the call's, the store's, the
    global one, one hour. *)
Definition ttl_by_precedence (ttl : option Z) (g : option Globals) (sc : StoreSettings)
  : Z :=
  match ttl with
  | Some t => t
  | None =>
      match cfg_defaultTtl sc with
      | Some t => t
      | None =>
          match g with
          | Some gl => match globalTtl gl with Some t => t | None => 3600 end
          | None => 3600
          end
      end
  end.

(** [keyPrefix + key], the key alone without a prefix *)
Definition prefixed (sc : StoreSettings) (key : string) : string :=
  match cfg_keyPrefix sc with
  | Some p => (p ++ key)%string
  | None => key
  end.

End FacadeOptions.

(** * Properties of the in-process driver *)

Module MemoryFacts.
Import Memory.

(** ** The table *)

Lemma map_get_set_eq (k : string) (e : CacheEntry) (m : Table) :
  map_get k (map_set k e m) = Some e.
Proof.
  induction m as [|[k' e'] rest IH]; simpl.
  - now rewrite String.eqb_refl.
  - destruct (String.eqb k' k) eqn:E; simpl.
    + now rewrite String.eqb_refl.
    + now rewrite E.
Qed.

Lemma map_get_set_ne (k k' : string) (e : CacheEntry) (m : Table) :
  k ≠ k' -> map_get k' (map_set k e m) = map_get k' m.
Proof.
  intros Hne. induction m as [|[k0 e0] rest IH]; simpl.
  - destruct (String.eqb_spec k k'); congruence.
  - destruct (String.eqb_spec k0 k) as [->|Hk]; simpl.
    + destruct (String.eqb_spec k k'); congruence.
    + now rewrite IH.
Qed.

Lemma map_get_In (k : string) (e : CacheEntry) (m : Table) :
  map_get k m = Some e -> In (k, e) m.
Proof.
  induction m as [|[k' e'] rest IH]; simpl; [discriminate|].
  destruct (String.eqb_spec k' k) as [->|Hk]; intros H.
  - left. congruence.
  - right. auto.
Qed.

Lemma map_get_None_keys (k : string) (m : Table) :
  map_get k m = None <-> ~ In k (keys m).
Proof.
  induction m as [|[k' e'] rest IH]; simpl.
  - tauto.
  - destruct (String.eqb_spec k' k) as [->|Hk].
    + split; [discriminate | intros H; exfalso; apply H; now left].
    + rewrite IH. split; [intros H [?|?]; congruence || tauto | tauto].
Qed.

Lemma map_delete_keys_subset (k x : string) (m : Table) :
  In x (keys (map_delete k m)) -> In x (keys m).
Proof.
  induction m as [|[k' e'] rest IH]; simpl; [tauto|].
  destruct (String.eqb k' k); simpl; tauto.
Qed.

Lemma map_get_delete_eq (k : string) (m : Table) :
  wf m -> map_get k (map_delete k m) = None.
Proof.
  unfold wf. induction m as [|[k' e'] rest IH]; simpl; intros Hwf; [reflexivity|].
  apply NoDup_cons in Hwf as [Hnotin Hwf].
  destruct (String.eqb_spec k' k) as [->|Hk]; simpl.
  - apply map_get_None_keys. now rewrite <- list_elem_of_In.
  - destruct (String.eqb_spec k' k); [congruence | auto].
Qed.

Lemma map_get_delete_ne (k k' : string) (m : Table) :
  k ≠ k' -> map_get k' (map_delete k m) = map_get k' m.
Proof.
  intros Hne. induction m as [|[k0 e0] rest IH]; simpl; [reflexivity|].
  destruct (String.eqb_spec k0 k) as [->|Hk]; simpl.
  - destruct (String.eqb_spec k k'); congruence.
  - now rewrite IH.
Qed.

Lemma length_map_set (k : string) (e : CacheEntry) (m : Table) :
  length (map_set k e m) = if map_has k m then length m else S (length m).
Proof.
  unfold map_has. induction m as [|[k' e'] rest IH]; simpl; [reflexivity|].
  destruct (String.eqb k' k); simpl; [reflexivity|].
  rewrite IH. now destruct (map_get k rest).
Qed.

Lemma length_map_delete (k : string) (m : Table) :
  length (map_delete k m) = if map_has k m then pred (length m) else length m.
Proof.
  unfold map_has. induction m as [|[k' e'] rest IH]; simpl; [reflexivity|].
  destruct (String.eqb k' k); simpl; [reflexivity|].
  rewrite IH. destruct (map_get k rest) eqn:E; [|reflexivity].
  apply map_get_In in E. destruct rest; [contradiction | reflexivity].
Qed.

Lemma wf_map_delete (k : string) (m : Table) : wf m -> wf (map_delete k m).
Proof.
  unfold wf. induction m as [|[k' e'] rest IH]; simpl; intros Hwf; [assumption|].
  apply NoDup_cons in Hwf as [Hnotin Hwf].
  destruct (String.eqb k' k); simpl; [assumption|].
  apply NoDup_cons. split; [|auto].
  rewrite list_elem_of_In in *. intros Hin. apply Hnotin.
  eapply map_delete_keys_subset; eassumption.
Qed.

Lemma keys_map_set (k : string) (e : CacheEntry) (m : Table) :
  keys (map_set k e m) = if map_has k m then keys m else keys m ++ [k].
Proof.
  unfold map_has. induction m as [|[k' e'] rest IH]; simpl; [reflexivity|].
  destruct (String.eqb_spec k' k) as [->|Hk]; simpl; [reflexivity|].
  rewrite IH. now destruct (map_get k rest).
Qed.

Lemma wf_map_set (k : string) (e : CacheEntry) (m : Table) : wf m -> wf (map_set k e m).
Proof.
  unfold wf. intros Hwf. rewrite keys_map_set.
  unfold map_has. destruct (map_get k m) eqn:E; [assumption|].
  apply NoDup_app. split; [assumption|]. split.
  - intros x Hx Hx'. apply list_elem_of_singleton in Hx'. subst x.
    apply map_get_None_keys in E. apply E. now rewrite <- list_elem_of_In.
  - apply NoDup_singleton.
Qed.

(** ** What the operations keep *)

Lemma options_evict (now : Z) (d : MemoryDriver) :
  options (evictLeastRecentlyUsed now d) = options d.
Proof.
  unfold evictLeastRecentlyUsed.
  destruct (fst (scan_oldest (store d) (None, now))) as [k|]; [|reflexivity].
  now destruct (String.eqb k EmptyString).
Qed.

Lemma options_set (now te : Z) (key : string) (v : Value) (ttl : option Z) (d : MemoryDriver) :
  options (set now te key v ttl d) = options d.
Proof.
  unfold set; simpl. destruct (at_capacity _ d); [apply options_evict | reflexivity].
Qed.


Lemma getFullKey_options (d d' : MemoryDriver) (key : string) :
  options d' = options d -> getFullKey d' key = getFullKey d key.
Proof. unfold getFullKey. now intros ->. Qed.

(** The entry [set] leaves under its key. *)
Lemma map_get_after_set (now te : Z) (key : string) (v : Value) (ttl : option Z)
    (d : MemoryDriver) :
  map_get (getFullKey d key) (store (set now te key v ttl d))
  = Some {| value := v; expiresAt := expiry now (effectiveTtl ttl d);
            createdAt := now; accessedAt := now |}.
Proof. unfold set; simpl. apply map_get_set_eq. Qed.

Lemma wf_evict (now : Z) (d : MemoryDriver) :
  wf (store d) -> wf (store (evictLeastRecentlyUsed now d)).
Proof.
  intros Hwf. unfold evictLeastRecentlyUsed.
  destruct (fst (scan_oldest (store d) (None, now))) as [k|]; [|assumption].
  destruct (String.eqb k EmptyString); [assumption|].
  simpl. now apply wf_map_delete.
Qed.

Lemma wf_set (now te : Z) (key : string) (v : Value) (ttl : option Z) (d : MemoryDriver) :
  wf (store d) -> wf (store (set now te key v ttl d)).
Proof.
  intros Hwf. unfold set; simpl. apply wf_map_set.
  destruct (at_capacity _ d); [now apply wf_evict | assumption].
Qed.

Lemma wf_get (tc tt : Z) (key : string) (d : MemoryDriver) :
  wf (store d) -> wf (store (snd (get tc tt key d))).
Proof.
  intros Hwf. unfold get. destruct (map_get _ (store d)) as [e|]; [|assumption].
  destruct (expired tc e); simpl; [now apply wf_map_delete | now apply wf_map_set].
Qed.

Lemma wf_new (c : MemoryConfig) (o : DriverOptions) : wf (store (new_MemoryDriver c o)).
Proof. apply NoDup_nil. constructor. Qed.

Lemma wf_delete (key : string) (d : MemoryDriver) :
  wf (store d) -> wf (store (snd (delete key d))).
Proof.
  intros Hwf. unfold delete. destruct (map_has _ (store d)); simpl; [|assumption].
  now apply wf_map_delete.
Qed.

Lemma wf_exists (now : Z) (key : string) (d : MemoryDriver) :
  wf (store d) -> wf (store (snd (exists_ now key d))).
Proof.
  intros Hwf. unfold exists_. destruct (map_get _ (store d)) as [e|]; [|assumption].
  destruct (expired now e); simpl; [now apply wf_map_delete | assumption].
Qed.

Lemma wf_increment (tc tt ts te : Z) (key : string) (amount : option Z) (d : MemoryDriver) :
  wf (store d) -> wf (store (snd (increment tc tt ts te key amount d))).
Proof.
  intros Hwf. unfold increment.
  pose proof (wf_get tc tt key d Hwf) as Hg.
  destruct (get tc tt key d) as [cur d1]. cbn [fst snd] in *. now apply wf_set.
Qed.

(** ** Counters on a missing key *)

(** On the in-process driver a counter on a missing key creates it:
    for every key and amount [n], [increment(key, n)] on a driver whose
    table has no entry for the key returns exactly [n] and leaves the
    key present with the number [n] as its value; [decrement(key, n)]
    returns exactly [-n] and leaves the key present with value [-n]. *)
Theorem counter_on_absent_key
    (d : MemoryDriver) (key : string) (n : Z) (t_check t_touch t_set t_evict : Z) :
  map_get (getFullKey d key) (store d) = None ->
  (let r := increment t_check t_touch t_set t_evict key (Some n) d in
   fst r = n /\
   value <$> map_get (getFullKey (snd r) key) (store (snd r)) = Some (VNum n)) /\
  (let r := decrement t_check t_touch t_set t_evict key (Some n) d in
   fst r = - n /\
   value <$> map_get (getFullKey (snd r) key) (store (snd r)) = Some (VNum (- n))).
Proof.
  intros Habsent.
  assert (Hinc : forall m,
    let r := increment t_check t_touch t_set t_evict key (Some m) d in
    fst r = m /\
    value <$> map_get (getFullKey (snd r) key) (store (snd r)) = Some (VNum m)).
  { intros m. unfold increment, get. rewrite Habsent. cbn beta iota zeta.
    cbn [fst snd default from_option]. unfold id.
    split; [lia|].
    set (d1 := with_stats (miss (stats d)) d).
    rewrite (getFullKey_options d1 (set t_set t_evict key (VNum (0 + m)) None d1))
      by apply options_set.
    rewrite map_get_after_set. reflexivity. }
  split; [apply Hinc|].
  unfold decrement. cbn [default from_option]. apply Hinc.
Qed.

Lemma counter_on_absent_key_witness :
  let d := new_MemoryDriver (mkConfig (Some 2) None) (mkOptions (Some "app:") None) in
  map_get (getFullKey d "hits") (store d) = None /\
  fst (increment 10 10 10 10 "hits" (Some 5) d) = 5 /\
  fst (decrement 10 10 10 10 "hits" (Some 5) d) = -5.
Proof.
  split; [reflexivity|].
  pose proof (counter_on_absent_key
    (new_MemoryDriver (mkConfig (Some 2) None) (mkOptions (Some "app:") None))
    "hits" 5 10 10 10 10 eq_refl) as [[H1 _] [H2 _]].
  exact (conj H1 H2).
Defined.

(** ** Reads *)

Lemma expired_true (now : Z) (e : CacheEntry) :
  expired now e = true <-> exists t, expiresAt e = Some t /\ t < now.
Proof.
  unfold expired. destruct (expiresAt e) as [t|].
  - split.
    + intros H. exists t. split; [reflexivity | lia].
    + intros (t' & [= <-] & Hlt). lia.
  - split; [discriminate | intros (t' & [=] & _)].
Qed.

Lemma expired_false (now : Z) (e : CacheEntry) :
  expired now e = false <-> forall t, expiresAt e = Some t -> now <= t.
Proof.
  unfold expired. destruct (expiresAt e) as [t|].
  - split.
    + intros H t' [= <-]. lia.
    + intros H. specialize (H t eq_refl). lia.
  - split; [intros _ t' [=] | reflexivity].
Qed.

(** C4, as the code has it. For an entry [e] stored under the key:
    if [expiresAt] is defined and strictly in the past, [get] and
    [exists] both purge the entry and report absence ([null], [false]);
    otherwise [get] stores the current time in [accessedAt] and returns
    the stored value, while [exists] returns [true] and leaves the
    driver, [accessedAt] included, as it was. *)
Theorem read_of_present_entry
    (d : MemoryDriver) (key : string) (e : CacheEntry) (t_check t_touch : Z) :
  wf (store d) ->
  map_get (getFullKey d key) (store d) = Some e ->
  ((exists t, expiresAt e = Some t /\ t < t_check) ->
     (fst (get t_check t_touch key d) = VNull /\
      map_get (getFullKey d key) (store (snd (get t_check t_touch key d))) = None) /\
     (fst (exists_ t_check key d) = false /\
      map_get (getFullKey d key) (store (snd (exists_ t_check key d))) = None)) /\
  ((forall t, expiresAt e = Some t -> t_check <= t) ->
     (fst (get t_check t_touch key d) = value e /\
      map_get (getFullKey d key) (store (snd (get t_check t_touch key d)))
      = Some (touch t_touch e)) /\
     exists_ t_check key d = (true, d)).
Proof.
  intros Hwf Hget. split.
  - intros Hpast. apply expired_true in Hpast.
    unfold get, exists_. rewrite Hget, Hpast. simpl.
    rewrite map_get_delete_eq by assumption. auto.
  - intros Hlive. apply expired_false in Hlive.
    unfold get, exists_. rewrite Hget, Hlive. simpl.
    rewrite map_get_set_eq. auto.
Qed.

Lemma read_of_present_entry_witness :
  let d := set 1000 1000 "k" (VStr "v") (Some 1)
             (new_MemoryDriver (mkConfig None None) (mkOptions None None)) in
  fst (get 2001 2001 "k" d) = VNull /\ fst (exists_ 2001 "k" d) = false /\
  fst (get 2000 2000 "k" d) = VStr "v" /\ exists_ 2000 "k" d = (true, d).
Proof.
  set (d0 := new_MemoryDriver (mkConfig None None) (mkOptions None None)).
  assert (Hwf : wf (store (set 1000 1000 "k" (VStr "v") (Some 1) d0)))
    by (apply wf_set, wf_new).
  pose proof (read_of_present_entry (set 1000 1000 "k" (VStr "v") (Some 1) d0) "k"
                (mkEntry (VStr "v") (Some 2000) 1000 1000) 2001 2001 Hwf eq_refl)
    as [Hpast _].
  pose proof (read_of_present_entry (set 1000 1000 "k" (VStr "v") (Some 1) d0) "k"
                (mkEntry (VStr "v") (Some 2000) 1000 1000) 2000 2000 Hwf eq_refl)
    as [_ Hlive].
  destruct Hpast as [[Hg _] [He _]].
  { exists 2000. split; [reflexivity | lia]. }
  destruct Hlive as [[Hg' _] He'].
  { intros t [= <-]. lia. }
  exact (conj Hg (conj He (conj Hg' He'))).
Defined.

(** C4 as stated fails for [exists]: on an entry that has not expired
    it reports presence and leaves [accessedAt] at its old value, here
    1000 although the clock reads 2000. *)
Lemma exists_does_not_refresh_accessedAt :
  let d := set 1000 1000 "k" (VStr "v") None
             (new_MemoryDriver (mkConfig None None) (mkOptions None None)) in
  fst (exists_ 2000 "k" d) = true /\
  accessedAt <$> map_get "k" (store (snd (exists_ 2000 "k" d))) = Some 1000 /\
  accessedAt <$> map_get "k" (store (snd (exists_ 2000 "k" d))) <> Some 2000 /\
  accessedAt <$> map_get "k" (store (snd (get 2000 2000 "k" d))) = Some 2000.
Proof. repeat split; try reflexivity. discriminate. Qed.

(** ** Deleting what has expired *)

Lemma deleteMultiple_acc (ks : list string) (a : Z) (d : MemoryDriver) :
  fold_left deleteMultiple_step ks (a, d)
  = (a + fst (deleteMultiple ks d), snd (deleteMultiple ks d)).
Proof.
  unfold deleteMultiple. revert a d.
  induction ks as [|k ks IH]; intros a d; simpl.
  - f_equal. lia.
  - unfold deleteMultiple_step at 2 4 6. simpl.
    destruct (delete k d) as [b d'] eqn:E.
    rewrite (IH (if b then a + 1 else a) d'), (IH (if b then 0 + 1 else 0) d').
    simpl. f_equal. destruct b; lia.
Qed.

Lemma deleteMultiple_cons (k : string) (ks : list string) (d : MemoryDriver) :
  fst (deleteMultiple (k :: ks) d)
  = (if fst (delete k d) then 1 else 0) + fst (deleteMultiple ks (snd (delete k d))).
Proof.
  unfold deleteMultiple at 1. simpl. unfold deleteMultiple_step at 2. simpl.
  destruct (delete k d) as [b d']. rewrite deleteMultiple_acc. simpl.
  destruct b; lia.
Qed.

(** C9. When the entry of a key is still in the table but its
    [expiresAt] lies in the past, [delete] returns [true] and
    [deleteMultiple] counts the key, while [get] and [exists] at the
    same clock reading report absence. *)
Theorem delete_counts_expired_entry
    (d : MemoryDriver) (key : string) (e : CacheEntry) (t now t_touch : Z)
    (others : list string) :
  map_get (getFullKey d key) (store d) = Some e ->
  expiresAt e = Some t ->
  t < now ->
  fst (delete key d) = true /\
  fst (deleteMultiple [key] d) = 1 /\
  fst (deleteMultiple (key :: others) d)
  = 1 + fst (deleteMultiple others (snd (delete key d))) /\
  fst (get now t_touch key d) = VNull /\
  fst (exists_ now key d) = false.
Proof.
  intros Hget Hexp Hlt.
  assert (Hdel : fst (delete key d) = true).
  { unfold delete, map_has. now rewrite Hget. }
  assert (Hpast : expired now e = true).
  { apply expired_true. eauto. }
  repeat split.
  - exact Hdel.
  - rewrite deleteMultiple_cons, Hdel. reflexivity.
  - rewrite deleteMultiple_cons, Hdel. reflexivity.
  - unfold get. now rewrite Hget, Hpast.
  - unfold exists_. now rewrite Hget, Hpast.
Qed.

Lemma delete_counts_expired_entry_witness :
  let d := set 1000 1000 "k" (VStr "v") (Some 1)
             (new_MemoryDriver (mkConfig None None) (mkOptions None None)) in
  map_get (getFullKey d "k") (store d) = Some (mkEntry (VStr "v") (Some 2000) 1000 1000) /\
  2000 < 5000 /\
  fst (delete "k" d) = true /\
  fst (deleteMultiple ["k"; "other"] d) = 1 /\
  fst (get 5000 5000 "k" d) = VNull /\
  fst (exists_ 5000 "k" d) = false.
Proof.
  split; [reflexivity|]. split; [lia|].
  pose proof (delete_counts_expired_entry
    (set 1000 1000 "k" (VStr "v") (Some 1)
       (new_MemoryDriver (mkConfig None None) (mkOptions None None)))
    "k" (mkEntry (VStr "v") (Some 2000) 1000 1000) 2000 5000 5000 ["other"]
    eq_refl eq_refl ltac:(lia)) as (H1 & _ & H3 & H4 & H5).
  repeat split; assumption.
Defined.

(** ** Counters and expiry *)



(** ** Eviction *)

(** C1 fails on the code. With [maxSize = 1], two [set] calls on
    distinct keys made while the clock reads the same millisecond:
    [evictLeastRecentlyUsed] starts its scan from [Date.now()] and only
    takes an entry whose [accessedAt] is strictly below it, so nothing
    is evicted and the table ends with two entries. *)
Theorem no_eviction_within_one_millisecond :
  let d1 := set 1000 1000 "a" (VNum 1) None capacity_one in
  let d2 := set 1000 1000 "b" (VNum 2) None d1 in
  maxSize (config d2) = Some 1 /\
  at_capacity (getFullKey d1 "b") d1 = true /\
  evictLeastRecentlyUsed 1000 d1 = d1 /\
  length (store d2) = 2%nat /\
  map_has "a" (store d2) = true /\
  map_has "b" (store d2) = true.
Proof. repeat split; reflexivity. Qed.

(** The same function drops the key it found when that key is the
    empty string: [if (oldestKey)] is false for it. *)
Lemma empty_key_is_never_evicted :
  let d1 := set 1000 1000 "" (VNum 1) None capacity_one in
  let d2 := set 2000 2000 "b" (VNum 2) None d1 in
  fst (scan_oldest (store d1) (None, 2000)) = Some EmptyString /\
  length (store d2) = 2%nat.
Proof. split; reflexivity. Qed.

(** What the scan computes: the least [accessedAt] below the starting
    time, with a key that has it, or the starting pair when no entry
    lies below. *)
Lemma scan_oldest_spec (m : Table) (k0 : option string) (t0 : Z) :
  let r := scan_oldest m (k0, t0) in
  snd r <= t0 /\
  (forall k e, In (k, e) m -> snd r <= accessedAt e) /\
  (r = (k0, t0) \/
   exists k e, fst r = Some k /\ In (k, e) m /\ accessedAt e = snd r /\ snd r < t0).
Proof.
  unfold scan_oldest. revert k0 t0.
  induction m as [|[k1 e1] rest IH]; intros k0 t0; simpl.
  - split; [lia|]. split; [tauto | now left].
  - replace (scan_step (k0, t0) (k1, e1))
      with (if accessedAt e1 <? t0 then (Some k1, accessedAt e1) else (k0, t0))
      by reflexivity.
    destruct (Z.ltb_spec (accessedAt e1) t0) as [Hlt|Hge].
    + destruct (IH (Some k1) (accessedAt e1)) as (Hle & Hall & Hcase).
      split; [lia|]. split.
      * intros k e [[= <- <-]|Hin]; [assumption | eauto].
      * right. destruct Hcase as [Heq | (k & e & Hk & Hin & Hacc & Hlt')].
        -- exists k1, e1. rewrite Heq. simpl. auto.
        -- exists k, e. repeat split; auto. lia.
    + destruct (IH k0 t0) as (Hle & Hall & Hcase).
      split; [assumption|]. split.
      * intros k e [[= <- <-]|Hin]; [lia | eauto].
      * destruct Hcase as [Heq | (k & e & Hk & Hin & Hacc & Hlt')]; [now left|].
        right. exists k, e. auto.
Qed.

(** Where the eviction does what C1 says: once the clock has moved
    past the [accessedAt] of every entry and no stored key is empty, a
    [set] of a new key on a full table removes exactly one entry, one
    with the least [accessedAt], and the size stays at the bound. *)
Lemma eviction_when_clock_advanced
    (d : MemoryDriver) (key : string) (v : Value) (ttl : option Z)
    (now t_evict bound : Z) :
  wf (store d) ->
  maxSize (config d) = Some bound ->
  0 < bound ->
  Z.of_nat (length (store d)) = bound ->
  map_get (getFullKey d key) (store d) = None ->
  (forall k e, In (k, e) (store d) -> accessedAt e < t_evict /\ k <> EmptyString) ->
  exists k e,
    In (k, e) (store d) /\
    (forall k' e', In (k', e') (store d) -> accessedAt e <= accessedAt e') /\
    map_get k (store (set now t_evict key v ttl d)) = None /\
    (forall k', k' <> k -> k' <> getFullKey d key ->
       map_get k' (store (set now t_evict key v ttl d)) = map_get k' (store d)) /\
    Z.of_nat (length (store (set now t_evict key v ttl d))) = bound.
Proof.
  intros Hwf Hmax Hpos Hfull Habsent Hold.
  assert (Hcap : at_capacity (getFullKey d key) d = true).
  { unfold at_capacity, map_has. rewrite Hmax, Habsent.
    destruct (Z.eqb_spec bound 0); [lia|].
    destruct (Z.geb_spec (Z.of_nat (length (store d))) bound); [reflexivity | lia]. }
  destruct (scan_oldest_spec (store d) None t_evict) as (_ & Hall & Hcase).
  destruct Hcase as [Heq | (k & e & Hk & Hin & Hacc & Hlt)].
  { destruct (store d) as [|[k1 e1] rest] eqn:Es; [simpl in Hfull; lia|].
    exfalso. destruct (Hold k1 e1 (or_introl eq_refl)) as [Hlt _].
    specialize (Hall k1 e1 (or_introl eq_refl)). rewrite Heq in Hall. simpl in Hall. lia. }
  assert (Hne : k <> EmptyString) by (apply (Hold k e Hin)).
  assert (Hkey : k <> getFullKey d key).
  { intros ->. apply map_get_None_keys in Habsent. apply Habsent.
    unfold keys. change (getFullKey d key) with (fst (getFullKey d key, e)).
    now apply in_map. }
  assert (Hhas : map_has k (store d) = true).
  { unfold map_has. destruct (map_get k (store d)) eqn:E; [reflexivity|].
    apply map_get_None_keys in E. exfalso. apply E.
    unfold keys. change k with (fst (k, e)). now apply in_map. }
  assert (Hev : evictLeastRecentlyUsed t_evict d = with_store (map_delete k (store d)) d).
  { unfold evictLeastRecentlyUsed. rewrite Hk.
    destruct (String.eqb_spec k EmptyString); [contradiction | reflexivity]. }
  exists k, e. split; [assumption|]. split.
  { intros k' e' Hin'. rewrite Hacc. eauto. }
  unfold set. rewrite Hcap, Hev. simpl.
  split; [|split].
  - rewrite map_get_set_ne by congruence. now apply map_get_delete_eq.
  - intros k' Hk' Hk''. rewrite map_get_set_ne by congruence.
    now apply map_get_delete_ne.
  - rewrite length_map_set. unfold map_has at 1.
    rewrite map_get_delete_ne by assumption. rewrite Habsent.
    rewrite length_map_delete, Hhas.
    destruct (store d); [simpl in Hfull; lia | simpl in *; lia].
Qed.

End MemoryFacts.

(** * Counters of the distributed-object driver *)

Module MemcachedFacts.
Import Memcached.

(** C2, on the distributed-object driver.  The client answers [incr]
    and [decr] for a key the server does not hold with a result that is
    not a number.  [increment(key, n)] then returns [n] and
    [decrement(key, n)] returns [-n], as for a key that held zero, but
    the only call handed to the client is that [incr] or [decr]: no
    [set] follows, so the key is not created.  The sibling branch, taken
    when [incr] or [decr] fails with an error, does write the key with
    the signed amount, as its comment says for a key that does not
    exist. *)
Theorem counter_on_absent_key_creates_nothing
    (d : MemcachedDriver) (key : string) (n : Z) (setReply : Reply unit) :
  increment key (Some n) (Resolved NotNumber) setReply d
  = (if isReady d then (inr n, [CallIncr (getFullKey d key) n])
     else (inl CacheConnectionError, [])) /\
  decrement key (Some n) (Resolved NotNumber) setReply d
  = (if isReady d then (inr (- n), [CallDecr (getFullKey d key) n])
     else (inl CacheConnectionError, [])) /\
  increment key (Some n) Rejected (Resolved tt) d
  = (if isReady d
     then (inr n, [CallIncr (getFullKey d key) n;
                   CallSet (getFullKey d key) n (defaultTtl d)])
     else (inl CacheConnectionError, [])) /\
  decrement key (Some n) Rejected (Resolved tt) d
  = (if isReady d
     then (inr (- n), [CallDecr (getFullKey d key) n;
                       CallSet (getFullKey d key) (- n) (defaultTtl d)])
     else (inl CacheConnectionError, [])).
Proof.
  unfold increment, decrement, set_number.
  destruct (isReady d); simpl; repeat split.
Qed.

End MemcachedFacts.

(** * Time-to-live resolution in [set] *)

Module TtlFacts.

Lemma memory_expiry_positive (now ttl : Z) :
  0 < ttl -> Memory.expiry now ttl = Some (now + ttl * 1000).
Proof.
  intros H. unfold Memory.expiry.
  destruct (Z.eqb_spec ttl 0); [lia|].
  destruct (Z.gtb_spec ttl 0); [reflexivity | lia].
Qed.

Lemma memory_expiry_nonpositive (now ttl : Z) :
  ttl <= 0 -> Memory.expiry now ttl = None.
Proof.
  intros H. unfold Memory.expiry.
  destruct (Z.eqb_spec ttl 0); [reflexivity|].
  destruct (Z.gtb_spec ttl 0); [lia | reflexivity].
Qed.

(** C3, as the code has it. The time-to-live of a [set] is the
    configured default only when the argument is absent; an argument
    that is given, zero included, is taken as it is.  When the resolved
    value is zero or negative the entry gets no expiry (the in-process
    driver stores [expiresAt = null], the networked driver sends a plain
    SET); when it is positive the entry expires that many seconds after
    the write (SETEX with that many seconds). *)
Theorem ttl_resolution
    (md : Memory.MemoryDriver) (rd : Redis.RedisDriver)
    (key payload : string) (v : Memory.Value) (ttl : option Z) (now t_evict : Z) :
  Memory.effectiveTtl None md = Memory.defaultTtl (Memory.options md) /\
  Redis.effectiveTtl None rd = Redis.defaultTtl (Redis.options rd) /\
  (forall t, Memory.effectiveTtl (Some t) md = t /\ Redis.effectiveTtl (Some t) rd = t) /\
  (Memory.effectiveTtl ttl md <= 0 ->
   Memory.expiresAt <$>
     Memory.map_get (Memory.getFullKey md key)
       (Memory.store (Memory.set now t_evict key v ttl md)) = Some None) /\
  (0 < Memory.effectiveTtl ttl md ->
   Memory.expiresAt <$>
     Memory.map_get (Memory.getFullKey md key)
       (Memory.store (Memory.set now t_evict key v ttl md))
   = Some (Some (now + Memory.effectiveTtl ttl md * 1000))) /\
  (Redis.effectiveTtl ttl rd <= 0 ->
   Redis.set_command key payload ttl rd = Redis.SET (Redis.getFullKey rd key) payload) /\
  (0 < Redis.effectiveTtl ttl rd ->
   Redis.set_command key payload ttl rd
   = Redis.SETEX (Redis.getFullKey rd key) (Redis.effectiveTtl ttl rd) payload).
Proof.
  split; [reflexivity|]. split; [reflexivity|]. split; [intros t; split; reflexivity|].
  split; [|split; [|split]].
  - intros H. rewrite MemoryFacts.map_get_after_set. simpl.
    now rewrite memory_expiry_nonpositive.
  - intros H. rewrite MemoryFacts.map_get_after_set. simpl.
    now rewrite memory_expiry_positive.
  - intros H. unfold Redis.set_command.
    destruct (Z.eqb_spec (Redis.effectiveTtl ttl rd) 0) as [->|Hne]; [reflexivity|].
    destruct (Z.gtb_spec (Redis.effectiveTtl ttl rd) 0); [lia | reflexivity].
  - intros H. unfold Redis.set_command.
    destruct (Z.eqb_spec (Redis.effectiveTtl ttl rd) 0); [lia|].
    destruct (Z.gtb_spec (Redis.effectiveTtl ttl rd) 0); [reflexivity | lia].
Qed.

Lemma ttl_resolution_witness :
  Memory.effectiveTtl (Some (-1)) Memory.memory_hour <= 0 /\
  0 < Memory.effectiveTtl None Memory.memory_hour /\
  Memory.expiresAt <$>
    Memory.map_get "k" (Memory.store (Memory.set 1000 1000 "k" Memory.VNull (Some (-1)) Memory.memory_hour))
  = Some None /\
  Memory.expiresAt <$>
    Memory.map_get "k" (Memory.store (Memory.set 1000 1000 "k" Memory.VNull None Memory.memory_hour))
  = Some (Some 3601000) /\
  Redis.set_command "k" "null" (Some (-1)) Redis.redis_hour = Redis.SET "k" "null" /\
  Redis.set_command "k" "null" None Redis.redis_hour = Redis.SETEX "k" 3600 "null".
Proof.
  split; [simpl; lia|]. split; [simpl; lia|].
  pose proof (ttl_resolution Memory.memory_hour Redis.redis_hour "k" "null" Memory.VNull
                (Some (-1)) 1000 1000) as (_ & _ & _ & Hm & _ & Hr & _).
  pose proof (ttl_resolution Memory.memory_hour Redis.redis_hour "k" "null" Memory.VNull
                None 1000 1000) as (_ & _ & _ & _ & Hm' & _ & Hr').
  split; [apply Hm; simpl; lia|].
  split; [apply Hm'; simpl; lia|].
  split; [apply Hr; simpl; lia|].
  apply Hr'; simpl; lia.
Defined.

(** C3 as stated fails for a time-to-live of zero: with a default of
    3600 seconds the resolved value is 0, not 3600, and the entry is
    stored without expiry, whereas an absent argument gives the
    default. *)
Lemma zero_ttl_does_not_fall_back :
  Memory.effectiveTtl (Some 0) Memory.memory_hour = 0 /\
  Memory.effectiveTtl (Some 0) Memory.memory_hour <> Memory.defaultTtl (Memory.options Memory.memory_hour) /\
  Redis.effectiveTtl (Some 0) Redis.redis_hour <> Redis.defaultTtl (Redis.options Redis.redis_hour) /\
  Memory.map_get "k" (Memory.store (Memory.set 1000 1000 "k" Memory.VNull (Some 0) Memory.memory_hour))
  = Some (Memory.mkEntry Memory.VNull None 1000 1000) /\
  Memory.map_get "k" (Memory.store (Memory.set 1000 1000 "k" Memory.VNull None Memory.memory_hour))
  = Some (Memory.mkEntry Memory.VNull (Some 3601000) 1000 1000) /\
  Redis.set_command "k" "null" (Some 0) Redis.redis_hour = Redis.SET "k" "null" /\
  Redis.set_command "k" "null" None Redis.redis_hour = Redis.SETEX "k" 3600 "null".
Proof. repeat split; try reflexivity; discriminate. Qed.

End TtlFacts.

(** * Properties of the reconnection logic *)

Module ReconnectFacts.
Import Redis.

Ltac world w :=
  let d := fresh "d" in
  let ts := fresh "ts" in
  let nx := fresh "nx" in
  let opts := fresh "opts" in
  let tm := fresh "tm" in
  let att := fresh "att" in
  let conn := fresh "conn" in
  destruct w as [d ts nx]; destruct d as [opts tm att conn]; simpl in *.

Lemma filter_single (id : nat) (delay : Z) :
  filter (fun t => timer_id t ≠ id) [mkTimer id delay] = [].
Proof.
  rewrite filter_cons. simpl.
  destruct (decide (id ≠ id)); [contradiction | reflexivity].
Qed.

Lemma clearTimeout_single (id : nat) (delay : Z) (d : RedisDriver) (nx : nat) :
  clearTimeout id (mkWorld d [mkTimer id delay] nx) = mkWorld d [] nx.
Proof. unfold clearTimeout. simpl. now rewrite filter_single. Qed.

Lemma timer_pending_single (id id' : nat) (delay : Z) (d : RedisDriver) (nx : nat) :
  timer_pending id (mkWorld d [mkTimer id' delay] nx) = true -> id' = id.
Proof.
  unfold timer_pending. simpl. rewrite orb_false_r. apply Nat.eqb_eq.
Qed.

(** ** The steps keep the options and the invariants *)

Lemma options_scheduleReconnect (w : World) :
  options (driver (scheduleReconnect w)) = options (driver w).
Proof. world w. unfold scheduleReconnect. simpl. now destruct tm. Qed.

Lemma options_handleConnectionError (w : World) :
  options (driver (handleConnectionError w)) = options (driver w).
Proof.
  unfold handleConnectionError.
  destruct (isConnecting (driver w)); [reflexivity|].
  destruct (reconnect (options (driver w))) as [ro|]; [|reflexivity].
  destruct (_ >=? _); [reflexivity | apply options_scheduleReconnect].
Qed.

Lemma options_clearReconnectTimer (w : World) :
  options (driver (clearReconnectTimer w)) = options (driver w).
Proof. world w. unfold clearReconnectTimer. simpl. now destruct tm. Qed.

Lemma options_step (w : World) (e : Event) :
  options (driver (step w e)) = options (driver w).
Proof.
  destruct e as [ | | |id|ok| |ok|ok]; simpl.
  - apply options_handleConnectionError.
  - apply options_handleConnectionError.
  - unfold onConnect. now rewrite options_clearReconnectTimer.
  - destruct (timer_pending id w); [|reflexivity].
    unfold timerCallback_begin, disconnect. now rewrite options_clearReconnectTimer.
  - destruct (isConnecting (driver w)); [|reflexivity].
    destruct ok; simpl; [reflexivity|].
    now rewrite options_handleConnectionError.
  - unfold disconnect. apply options_clearReconnectTimer.
  - now destruct ok.
  - unfold disconnect. destruct ok; simpl; apply options_clearReconnectTimer.
Qed.

Lemma options_run (es : list Event) (w : World) :
  options (driver (run w es)) = options (driver w).
Proof.
  unfold run. revert w. induction es as [|e es IH]; intros w; simpl; [reflexivity|].
  now rewrite IH, options_step.
Qed.

Lemma bound_is_step (bound : Z) (w : World) (e : Event) :
  bound_is bound w -> bound_is bound (step w e).
Proof. unfold bound_is. now rewrite options_step. Qed.

Lemma timer_inv_scheduleReconnect (w : World) :
  timer_inv w -> timer_inv (scheduleReconnect w).
Proof.
  world w. unfold timer_inv, scheduleReconnect. simpl.
  destruct tm as [id|]; simpl; [tauto|].
  intros ->. simpl. eauto.
Qed.

Lemma timer_inv_handleConnectionError (w : World) :
  timer_inv w -> timer_inv (handleConnectionError w).
Proof.
  intros H. unfold handleConnectionError.
  destruct (isConnecting (driver w)); [assumption|].
  destruct (reconnect (options (driver w))) as [ro|]; [|assumption].
  destruct (_ >=? _); [assumption | now apply timer_inv_scheduleReconnect].
Qed.

Lemma timer_inv_clearReconnectTimer (w : World) :
  timer_inv w ->
  timers (clearReconnectTimer w) = [] /\
  reconnectTimer (driver (clearReconnectTimer w)) = None.
Proof.
  world w. unfold timer_inv, clearReconnectTimer. simpl.
  destruct tm as [id|]; simpl.
  - intros [delay ->]. unfold clearTimeout. simpl. rewrite filter_single. auto.
  - auto.
Qed.

Lemma timer_inv_cleared (w : World) :
  timer_inv w -> timer_inv (clearReconnectTimer w).
Proof.
  intros H. destruct (timer_inv_clearReconnectTimer w H) as [Ht Hd].
  unfold timer_inv. now rewrite Hd.
Qed.

Lemma timer_inv_step (w : World) (e : Event) :
  timer_inv w -> timer_inv (step w e).
Proof.
  intros H. destruct e as [ | | |id|ok| |ok|ok]; simpl.
  - now apply timer_inv_handleConnectionError.
  - now apply timer_inv_handleConnectionError.
  - unfold onConnect. apply timer_inv_cleared.
    world w. exact H.
  - destruct (timer_pending id w) eqn:Hp; [|assumption].
    world w. unfold timer_inv in H. simpl in H.
    destruct tm as [id'|].
    + destruct H as [delay ->].
      apply timer_pending_single in Hp. subst id'.
      rewrite clearTimeout_single. reflexivity.
    + subst ts. discriminate Hp.
  - destruct (isConnecting (driver w)); [|assumption].
    destruct ok; simpl.
    + world w. exact H.
    + apply timer_inv_handleConnectionError. world w. exact H.
  - now apply timer_inv_cleared.
  - destruct ok; simpl; [world w; exact H | exact H].
  - unfold disconnect. apply timer_inv_cleared in H.
    destruct ok; simpl; [|exact H].
    destruct (clearReconnectTimer w) as [d ts nx]. destruct d. exact H.
Qed.

Lemma timer_inv_run (es : list Event) (w : World) :
  timer_inv w -> timer_inv (run w es).
Proof.
  unfold run. revert w. induction es as [|e es IH]; intros w H; simpl; [assumption|].
  apply IH. now apply timer_inv_step.
Qed.

Lemma count_inv_scheduleReconnect (bound : Z) (w : World) :
  reconnectAttempts (driver w) < bound ->
  count_inv bound w -> count_inv bound (scheduleReconnect w).
Proof.
  world w. unfold count_inv, scheduleReconnect. simpl.
  destruct tm as [id|]; simpl; [tauto|]. intros Hlt [Hr _]. split; [lia | auto].
Qed.

Lemma count_inv_handleConnectionError (bound : Z) (w : World) :
  bound_is bound w ->
  count_inv bound w -> count_inv bound (handleConnectionError w).
Proof.
  intros (ro & Hro & Hb) H. unfold handleConnectionError.
  destruct (isConnecting (driver w)); [assumption|].
  rewrite Hro, Hb.
  destruct (Z.geb_spec (reconnectAttempts (driver w)) bound); [assumption|].
  now apply count_inv_scheduleReconnect.
Qed.

Lemma count_inv_reset (bound : Z) (w : World) :
  count_inv bound w ->
  count_inv bound (with_driver (with_attempts 0 (driver w)) w).
Proof.
  world w. unfold count_inv. simpl. intros [Hr Ht]. split; [lia|].
  intros Hsome. specialize (Ht Hsome). lia.
Qed.

Lemma count_inv_clearReconnectTimer (bound : Z) (w : World) :
  count_inv bound w -> count_inv bound (clearReconnectTimer w).
Proof.
  world w. unfold count_inv, clearReconnectTimer. simpl.
  destruct tm as [id|]; simpl; [|tauto]. intros [Hr _]. split; [lia | congruence].
Qed.

Lemma count_inv_connecting (bound : Z) (b : bool) (w : World) :
  count_inv bound w ->
  count_inv bound (with_driver (with_connecting b (driver w)) w).
Proof. world w. unfold count_inv. simpl. tauto. Qed.

Lemma count_inv_step (bound : Z) (w : World) (e : Event) :
  bound_is bound w -> timer_inv w ->
  count_inv bound w -> count_inv bound (step w e).
Proof.
  intros Hb Ht H. destruct e as [ | | |id|ok| |ok|ok]; simpl.
  - now apply count_inv_handleConnectionError.
  - now apply count_inv_handleConnectionError.
  - unfold onConnect. now apply count_inv_clearReconnectTimer, count_inv_reset.
  - destruct (timer_pending id w) eqn:Hp; [|assumption].
    world w. unfold timer_inv in Ht. unfold count_inv in *. simpl in *.
    destruct tm as [id'|].
    + destruct H as [Hr Hlt]. assert (att < bound) by (apply Hlt; congruence).
      unfold timerCallback_begin, disconnect, clearReconnectTimer. simpl.
      split; [lia | congruence].
    + subst ts. discriminate Hp.
  - destruct (isConnecting (driver w)); [|assumption].
    destruct ok; simpl.
    + apply (count_inv_connecting bound false
               (with_driver (with_attempts 0 (driver w)) w)).
      now apply count_inv_reset.
    + apply count_inv_handleConnectionError.
      * destruct Hb as (ro & Hro & Hb). exists ro. world w. auto.
      * now apply count_inv_connecting.
  - now apply count_inv_clearReconnectTimer.
  - destruct ok; simpl; [now apply count_inv_reset | assumption].
  - unfold disconnect. apply count_inv_clearReconnectTimer in H.
    destruct ok; simpl; [now apply count_inv_reset | assumption].
Qed.

Lemma invariants_run (bound : Z) (es : list Event) (w : World) :
  bound_is bound w -> timer_inv w -> count_inv bound w ->
  timer_inv (run w es) /\ count_inv bound (run w es).
Proof.
  unfold run. revert w. induction es as [|e es IH]; intros w Hb Ht Hc; simpl; [auto|].
  apply IH.
  - now apply bound_is_step.
  - now apply timer_inv_step.
  - now apply count_inv_step.
Qed.

Lemma invariants_new (o : DriverOptions) :
  let bound := resolved_maxRetries (default defaultReconnect (opt_reconnect o)) in
  bound_is bound (new_World o) /\ timer_inv (new_World o) /\
  (0 <= bound -> count_inv bound (new_World o)).
Proof.
  cbv zeta. split; [|split].
  - eexists. split; reflexivity.
  - reflexivity.
  - intros H. unfold count_inv. simpl. split; [lia | congruence].
Qed.

(** ** After the last retry *)

Lemma exhausted_handleConnectionError (bound : Z) (w : World) :
  bound_is bound w -> exhausted bound w -> handleConnectionError w = w.
Proof.
  intros (ro & Hro & Hb) (_ & _ & Hatt). unfold handleConnectionError.
  destruct (isConnecting (driver w)); [reflexivity|].
  rewrite Hro, Hb, Hatt.
  destruct (Z.geb_spec bound bound); [reflexivity | lia].
Qed.

Lemma exhausted_step (bound : Z) (w : World) (e : Event) :
  bound_is bound w -> is_failure e = true ->
  exhausted bound w -> exhausted bound (step w e).
Proof.
  intros Hb Hf H. destruct e as [ | | |id|ok| |ok|ok]; simpl in *; try discriminate.
  - now rewrite (exhausted_handleConnectionError bound).
  - now rewrite (exhausted_handleConnectionError bound).
  - destruct H as (Hts & Htm & Hatt).
    unfold timer_pending. rewrite Hts. simpl. repeat split; assumption.
  - destruct ok; [discriminate|].
    destruct (isConnecting (driver w)) eqn:Hc; [|assumption].
    unfold timerCallback_end.
    assert (Hex : exhausted bound (with_driver (with_connecting false (driver w)) w)).
    { world w. exact H. }
    rewrite (exhausted_handleConnectionError bound); [assumption| |assumption].
    destruct Hb as (ro & Hro & Hb). exists ro. world w. auto.
Qed.

Lemma exhausted_run (bound : Z) (fs : list Event) (w : World) :
  bound_is bound w -> forallb is_failure fs = true ->
  exhausted bound w -> exhausted bound (run w fs).
Proof.
  unfold run. revert w. induction fs as [|e fs IH]; intros w Hb Hf H; simpl; [assumption|].
  simpl in Hf. apply andb_true_iff in Hf as [He Hfs].
  apply IH; [now apply bound_is_step | assumption | now apply exhausted_step].
Qed.

(** ** The retry bound *)

(** C5. For a driver with a retry bound [maxRetries >= 0], after any
    sequence of events the attempt counter is at most [maxRetries];
    once it has reached the bound no timer is pending and no sequence
    of failure events schedules one or moves the counter.  With
    [maxRetries = 2], base delay 100 and exponential backoff, a lost
    connection followed by two failed attempts (scheduled after 100 and
    200 ms) leaves the counter at 2 and nothing scheduled. *)
Theorem attempts_never_exceed_maxRetries
    (o : DriverOptions) (events failures : list Event) :
  let bound := resolved_maxRetries (default defaultReconnect (opt_reconnect o)) in
  let w := run (new_World o) events in
  (0 <= bound -> reconnectAttempts (driver w) <= bound) /\
  (0 <= bound -> bound <= reconnectAttempts (driver w) ->
   forallb is_failure failures = true ->
   timers w = [] /\
   timers (run w failures) = [] /\
   reconnectAttempts (driver (run w failures)) = reconnectAttempts (driver w)) /\
  (let w3 := run (new_World two_retries) three_failures in
   timers (run (new_World two_retries) (take 1 three_failures)) = [mkTimer 0 100] /\
   timers (run (new_World two_retries) (take 3 three_failures)) = [mkTimer 1 200] /\
   reconnectAttempts (driver w3) = 2 /\
   reconnectTimer (driver w3) = None /\
   timers w3 = []).
Proof.
  cbv zeta.
  destruct (invariants_new o) as (Hb & Ht & Hc).
  split; [|split].
  - intros Hpos.
    destruct (invariants_run _ events _ Hb Ht (Hc Hpos)) as [_ [Hr _]]. lia.
  - intros Hpos Hreach Hfail.
    destruct (invariants_run _ events _ Hb Ht (Hc Hpos)) as [Ht' [Hr Hlt]].
    set (w := run (new_World o) events) in *.
    assert (Hb' : bound_is
              (resolved_maxRetries (default defaultReconnect (opt_reconnect o))) w).
    { unfold bound_is, w. rewrite options_run. exact Hb. }
    assert (Hnone : reconnectTimer (driver w) = None).
    { destruct (reconnectTimer (driver w)) eqn:E; [|reflexivity].
      assert (Some n <> None) as Hsome by congruence.
      specialize (Hlt Hsome). lia. }
    assert (Hex : exhausted
              (resolved_maxRetries (default defaultReconnect (opt_reconnect o))) w).
    { unfold exhausted. unfold timer_inv in Ht'. rewrite Hnone in Ht'.
      repeat split; [assumption | assumption | lia]. }
    destruct (exhausted_run _ failures w Hb' Hfail Hex) as (Hts & _ & Hatt).
    destruct Hex as (Hts0 & _ & Hatt0).
    repeat split; [assumption | assumption | congruence].
  - repeat split; reflexivity.
Qed.

Lemma attempts_never_exceed_maxRetries_witness :
  let bound := resolved_maxRetries (default defaultReconnect (opt_reconnect two_retries)) in
  let w := run (new_World two_retries) three_failures in
  0 <= bound /\
  bound <= reconnectAttempts (driver w) /\
  reconnectAttempts (driver w) <= bound /\
  timers (run w [ClientError; ClientEnd; TimerFires 2; ReconnectSettles false]) = [].
Proof.
  cbv zeta. split; [vm_compute; discriminate|]. split; [vm_compute; discriminate|].
  pose proof (attempts_never_exceed_maxRetries two_retries three_failures
                [ClientError; ClientEnd; TimerFires 2; ReconnectSettles false])
    as (Hle & Hstay & _).
  split.
  - apply Hle. vm_compute; discriminate.
  - apply Hstay; [vm_compute; discriminate | vm_compute; discriminate | reflexivity].
Defined.

(** ** The delay and the single timer *)

(** C7, as the code has it. When reconnection is configured, no
    reconnection attempt is in progress ([isConnecting] is false), the
    counter is below [maxRetries] and no timer is pending, handling a
    connection failure sets exactly one timer, with delay
    [baseDelay * 2^min(attempts, 6)] under exponential backoff and
    [baseDelay] without.  A failure handled while a timer is pending or
    while an attempt is in progress changes nothing, and after any
    sequence of events at most one timer is pending. *)
Theorem reconnect_delay_and_single_timer (w : World) (ro : ReconnectOptions) :
  reconnect (options (driver w)) = Some ro ->
  (isConnecting (driver w) = false ->
   reconnectAttempts (driver w) < default 5 (maxRetries ro) ->
   reconnectTimer (driver w) = None ->
   let baseDelay := default 1000 (retryDelay ro) in
   let delay :=
     if default true (exponentialBackoff ro)
     then baseDelay * 2 ^ Z.min (reconnectAttempts (driver w)) 6
     else baseDelay in
   handleConnectionError w
   = {| driver := with_timer (Some (nextTimer w)) (driver w);
        timers := timers w ++ [mkTimer (nextTimer w) delay];
        nextTimer := S (nextTimer w) |}) /\
  (reconnectTimer (driver w) <> None -> handleConnectionError w = w) /\
  (isConnecting (driver w) = true -> handleConnectionError w = w) /\
  (forall (o : DriverOptions) (events : list Event),
     (length (timers (run (new_World o) events)) <= 1)%nat).
Proof.
  intros Hro. split; [|split; [|split]].
  - intros Hc Hlt Hnone. cbv zeta.
    unfold handleConnectionError. rewrite Hc, Hro.
    unfold resolved_maxRetries.
    destruct (Z.geb_spec (reconnectAttempts (driver w)) (default 5 (maxRetries ro)));
      [lia|].
    unfold scheduleReconnect. rewrite Hnone.
    unfold setTimeout, reconnectDelay, resolved_backoff, resolved_baseDelay.
    rewrite Hro. reflexivity.
  - intros Hsome. unfold handleConnectionError.
    destruct (isConnecting (driver w)); [reflexivity|]. rewrite Hro.
    destruct (_ >=? _); [reflexivity|].
    unfold scheduleReconnect. destruct (reconnectTimer (driver w)); [reflexivity | congruence].
  - intros Hc. unfold handleConnectionError. now rewrite Hc.
  - intros o events.
    pose proof (timer_inv_run events (new_World o) eq_refl) as Ht.
    unfold timer_inv in Ht.
    destruct (reconnectTimer (driver (run (new_World o) events))).
    + destruct Ht as [delay ->]. simpl. lia.
    + rewrite Ht. simpl. lia.
Qed.

Lemma reconnect_delay_and_single_timer_witness :
  let w := run (new_World two_retries) (take 3 three_failures) in
  handleConnectionError (clearReconnectTimer w)
  = {| driver := with_timer (Some 2%nat) (driver w);
       timers := [mkTimer 2 200];
       nextTimer := 3 |} /\
  handleConnectionError w = w.
Proof.
  cbv zeta.
  pose proof (reconnect_delay_and_single_timer
                (clearReconnectTimer (run (new_World two_retries) (take 3 three_failures)))
                (mkReconnect (Some 2) (Some 100) (Some true)) eq_refl)
    as (Hsched & _ & _ & _).
  pose proof (reconnect_delay_and_single_timer
                (run (new_World two_retries) (take 3 three_failures))
                (mkReconnect (Some 2) (Some 100) (Some true)) eq_refl)
    as (_ & Hpending & _ & _).
  split.
  - apply Hsched; [reflexivity | vm_compute; reflexivity | reflexivity].
  - apply Hpending. vm_compute. discriminate.
Defined.

(** C7 as stated fails while a reconnection attempt is in progress:
    the timer has fired, the counter is 1 of 5, reconnection is
    configured and no timer is pending, yet a failure handled now
    schedules nothing. *)
Lemma failure_during_attempt_schedules_nothing :
  let w := run (new_World (mkOptions None None None)) [ClientError; TimerFires 0] in
  reconnect (options (driver w)) = Some defaultReconnect /\
  reconnectAttempts (driver w) = 1 /\
  reconnectAttempts (driver w) < resolved_maxRetries defaultReconnect /\
  isConnecting (driver w) = true /\
  timers w = [] /\
  timers (step w ClientError) = [] /\
  step w ClientError = w.
Proof. repeat split; reflexivity. Qed.

End ReconnectFacts.

(** * Properties of the facade *)

Module FacadeFacts.
Import Facade.

(** ** Before [initialize] *)

(** C8. While no default store is recorded, which is the state before
    [Cache.initialize] has been called, every operation of the facade
    fails with the configuration error "Cache not initialized" and
    leaves the facade, its log of backend calls included, as it was; so
    does every operation through a store proxy while no configuration
    is recorded. *)
Theorem operations_refused_before_initialize
    (c : Cache) (op : Operation) (storeName : string) :
  (defaultStore c = None -> Cache_call op c = (Failed notInitialized, c)) /\
  (config c = None -> Proxy_call storeName op c = (Failed notInitialized, c)) /\
  Cache_call op initial = (Failed notInitialized, initial) /\
  Proxy_call storeName op initial = (Failed notInitialized, initial) /\
  log initial = [].
Proof.
  split; [|split; [|repeat split]].
  - intros H. unfold Cache_call, getDefaultStore. now rewrite H.
  - intros H. unfold Proxy_call, getStoreInstance. now rewrite H.
Qed.

Lemma operations_refused_before_initialize_witness :
  defaultStore initial = None /\ config initial = None /\
  Cache_call (Get "k") initial
  = (Failed (CacheConfigurationError
               "Cache not initialized. Call Cache.initialize() first."), initial) /\
  Proxy_call "sessions" (Increment "n" None) initial
  = (Failed (CacheConfigurationError
               "Cache not initialized. Call Cache.initialize() first."), initial).
Proof.
  split; [reflexivity|]. split; [reflexivity|].
  pose proof (operations_refused_before_initialize initial (Get "k") "sessions")
    as (H1 & _).
  pose proof (operations_refused_before_initialize initial (Increment "n" None) "sessions")
    as (_ & H2 & _).
  exact (conj (H1 eq_refl) (H2 eq_refl)).
Defined.

(** ** Acquiring a store *)

Lemma initialize_calls_log_init (a : nat) (c : Cache) :
  initialize_calls a (with_log c (Initialize a)) = S (initialize_calls a c).
Proof.
  unfold initialize_calls, with_log. simpl.
  rewrite filter_app, length_app, filter_cons. simpl.
  rewrite Nat.eqb_refl. simpl. lia.
Qed.

Lemma initialize_calls_log_construct (a a' : nat) (s tag : string) (c : Cache) :
  initialize_calls a (with_log c (Construct s tag a')) = initialize_calls a c.
Proof.
  unfold initialize_calls, with_log. simpl.
  rewrite filter_app, length_app, filter_cons. simpl. lia.
Qed.

Lemma construct_calls_log_init (s : string) (a : nat) (c : Cache) :
  construct_calls s (with_log c (Initialize a)) = construct_calls s c.
Proof.
  unfold construct_calls, with_log. simpl.
  rewrite filter_app, length_app, filter_cons. simpl. lia.
Qed.

Lemma construct_calls_log_construct (s tag : string) (a : nat) (c : Cache) :
  construct_calls s (with_log c (Construct s tag a)) = S (construct_calls s c).
Proof.
  unfold construct_calls, with_log. simpl.
  rewrite filter_app, length_app, filter_cons. simpl.
  rewrite String.eqb_refl. simpl. lia.
Qed.

Lemma acquire_uninitialized (s : string) (a : nat) (c : Cache) :
  uninitialized_at s a c ->
  acquire s c = (Suspended a None, with_log c (Initialize a)) /\
  uninitialized_at s a (with_log c (Initialize a)).
Proof.
  intros Hun. split; [|exact Hun].
  destruct Hun as ((cfg & sc & Hcfg & Hsc) & Hst & inst & Hinst & Hflag).
  unfold acquire, getStoreInstance, config_stores_get. rewrite Hcfg, Hsc, Hst. simpl.
  rewrite Hinst, Hflag. reflexivity.
Qed.

Lemma acquire_initialized (s : string) (a : nat) (c : Cache) :
  initialized_at s a c -> acquire s c = (Done a, c).
Proof.
  intros ((cfg & sc & Hcfg & Hsc) & Hst & inst & Hinst & Hflag).
  unfold acquire, getStoreInstance, config_stores_get. rewrite Hcfg, Hsc, Hst. simpl.
  rewrite Hinst, Hflag. reflexivity.
Qed.

Lemma acquire_first (s : string) (cfg : CacheConfig) (sc : StoreConfig) (c : Cache) :
  config c = Some cfg -> cfg_stores cfg !! s = Some sc ->
  known_driver (driver sc) = true ->
  stores c !! s = None ->
  let a := length (heap c) in
  let c1 := with_log (with_log (snd (add_instance s c)) (Construct s (driver sc) a))
              (Initialize a) in
  acquire s c = (Suspended a None, c1) /\ uninitialized_at s a c1.
Proof.
  intros Hcfg Hsc Hknown Hnone. cbv zeta.
  split.
  - unfold acquire, getStoreInstance, config_stores_get.
    rewrite Hcfg, Hsc, Hnone, Hknown. simpl.
    rewrite list_lookup_middle by reflexivity. reflexivity.
  - unfold uninitialized_at. simpl. split; [eauto|]. split.
    + apply lookup_insert_eq.
    + exists (mkInstance s false). split; [|reflexivity].
      now apply list_lookup_middle.
Qed.

Lemma starts_while_uninitialized (s : string) (a n : nat) (tasks : list Task) (c : Cache) :
  uninitialized_at s a c ->
  let r := fold_left schedule (replicate n (Start s)) (tasks, c) in
  fst r = tasks ++ replicate n (Suspended a None) /\
  initialize_calls a (snd r) = (initialize_calls a c + n)%nat /\
  construct_calls s (snd r) = construct_calls s c.
Proof.
  revert tasks c. induction n as [|n IH]; intros tasks c Hun; simpl.
  - rewrite app_nil_r. repeat split; lia.
  - destruct (acquire_uninitialized s a c Hun) as [Hacq Hun'].
    rewrite Hacq.
    destruct (IH (tasks ++ [Suspended a None]) _ Hun') as (Ht & Hi & Hc).
    rewrite Ht, Hi, Hc, initialize_calls_log_init, construct_calls_log_init.
    rewrite <- app_assoc. simpl. repeat split; lia.
Qed.

Lemma starts_once_initialized (s : string) (a n : nat) (tasks : list Task) (c : Cache) :
  initialized_at s a c ->
  fold_left schedule (replicate n (Start s)) (tasks, c)
  = (tasks ++ replicate n (Done a), c).
Proof.
  intros Hin. revert tasks. induction n as [|n IH]; intros tasks; simpl.
  - now rewrite app_nil_r.
  - rewrite (acquire_initialized s a c Hin), IH, <- app_assoc. reflexivity.
Qed.

Lemma settle_marks_initialized (s : string) (a : nat) (c : Cache) :
  uninitialized_at s a c -> initialized_at s a (mark_initialized a c).
Proof.
  intros (Hcfg & Hst & inst & Hinst & _). unfold initialized_at. simpl.
  split; [assumption|]. split; [assumption|].
  exists (mkInstance (inst_name inst) true). split; [|reflexivity].
  rewrite list_lookup_alter_eq, Hinst. reflexivity.
Qed.

(** C6, as the code has it. For a configured store that has no
    instance yet: every call that starts before an earlier one has
    finished initializing finds the instance not initialized and calls
    [initialize()] on its driver again, so [n + 1] overlapping
    first-time calls construct one driver and invoke its [initialize()]
    [n + 1] times, all of them left awaiting. When the first call's
    initialization has completed before the others start, the driver is
    constructed once, [initialize()] is invoked exactly once and the
    later calls return the driver at once. *)
Theorem initialize_once_only_when_sequential
    (c : Cache) (cfg : CacheConfig) (sc : StoreConfig) (s : string) (n : nat) :
  config c = Some cfg ->
  cfg_stores cfg !! s = Some sc ->
  known_driver (driver sc) = true ->
  stores c !! s = None ->
  let a := length (heap c) in
  (let r := interleave (replicate (S n) (Start s)) c in
   fst r = replicate (S n) (Suspended a None) /\
   construct_calls s (snd r) = S (construct_calls s c) /\
   initialize_calls a (snd r) = (initialize_calls a c + S n)%nat) /\
  (let r := interleave ([Start s; Settle 0 true] ++ replicate n (Start s)) c in
   fst r = replicate (S n) (Done a) /\
   construct_calls s (snd r) = S (construct_calls s c) /\
   initialize_calls a (snd r) = S (initialize_calls a c)).
Proof.
  intros Hcfg Hsc Hknown Hnone. cbv zeta.
  destruct (acquire_first s cfg sc c Hcfg Hsc Hknown Hnone) as [Hacq Hun].
  set (a := length (heap c)) in *.
  set (c1 := with_log (with_log (snd (add_instance s c)) (Construct s (driver sc) a))
               (Initialize a)) in *.
  assert (Hi1 : initialize_calls a c1 = S (initialize_calls a c)).
  { unfold c1. now rewrite initialize_calls_log_init, initialize_calls_log_construct. }
  assert (Hc1 : construct_calls s c1 = S (construct_calls s c)).
  { unfold c1. now rewrite construct_calls_log_init, construct_calls_log_construct. }
  split.
  - unfold interleave. simpl. rewrite Hacq. simpl.
    destruct (starts_while_uninitialized s a n [Suspended a None] c1 Hun)
      as (Ht & Hi & Hc).
    rewrite Ht, Hi, Hc, Hi1, Hc1. repeat split; lia.
  - unfold interleave. simpl. rewrite Hacq. simpl.
    rewrite (starts_once_initialized s a n [Done a] (mark_initialized a c1))
      by now apply settle_marks_initialized.
    simpl. repeat split; assumption.
Qed.

Lemma initialize_once_only_when_sequential_witness :
  config ready = Some two_stores /\
  stores ready !! "s" = None /\
  initialize_calls 1 (snd (interleave [Start "s"; Start "s"; Start "s"] ready)) = 3%nat /\
  initialize_calls 1
    (snd (interleave [Start "s"; Settle 0 true; Start "s"; Start "s"] ready)) = 1%nat.
Proof.
  split; [reflexivity|]. split; [reflexivity|].
  pose proof (initialize_once_only_when_sequential ready two_stores
                (mkStoreConfig "memory") "s" 2 eq_refl eq_refl eq_refl eq_refl)
    as [(_ & _ & Hover) (_ & _ & Hseq)].
  exact (conj Hover Hseq).
Defined.

(** C6 as stated fails: two calls that acquire the uninitialized store
    "s" side by side both reach [driver.initialize()]; the one driver of
    "s" has it invoked twice. *)
Lemma two_concurrent_acquisitions_initialize_twice :
  let r := interleave [Start "s"; Start "s"] ready in
  fst r = [Suspended 1 None; Suspended 1 None] /\
  construct_calls "s" (snd r) = 1%nat /\
  initialize_calls 1 (snd r) = 2%nat /\
  initialize_calls 1 (snd r) <> 1%nat /\
  log (snd r)
  = [Construct "main" "memory" 0; Initialize 0;
     Construct "s" "memory" 1; Initialize 1; Initialize 1].
Proof. repeat split; try reflexivity. discriminate. Qed.

End FacadeFacts.

(** * Laws of the in-process driver *)

Module MemoryLaws.
Import Memory MemoryOps MemoryFacts.

(** ** Keys *)

Lemma append_inj_l (p a b : string) : (p ++ a = p ++ b)%string -> a = b.
Proof.
  induction p as [|c p IH]; simpl; intros H; [assumption|].
  injection H as H. auto.
Qed.

Lemma getFullKey_inj (d : MemoryDriver) (k k' : string) :
  getFullKey d k = getFullKey d k' -> k = k'.
Proof.
  unfold getFullKey. destruct (String.eqb _ EmptyString); [auto|].
  apply append_inj_l.
Qed.

Lemma options_delete (key : string) (d : MemoryDriver) :
  options (snd (delete key d)) = options d.
Proof. unfold delete. now destruct (map_has _ (store d)). Qed.

Lemma options_exists (now : Z) (key : string) (d : MemoryDriver) :
  options (snd (exists_ now key d)) = options d.
Proof.
  unfold exists_. destruct (map_get _ (store d)) as [e|]; [|reflexivity].
  now destruct (expired now e).
Qed.

Lemma config_evict (now : Z) (d : MemoryDriver) :
  config (evictLeastRecentlyUsed now d) = config d.
Proof.
  unfold evictLeastRecentlyUsed.
  destruct (fst (scan_oldest (store d) (None, now))) as [k|]; [|reflexivity].
  now destruct (String.eqb k EmptyString).
Qed.

Lemma expiry_positive (now ttl : Z) : 0 < ttl -> expiry now ttl = Some (now + ttl * 1000).
Proof.
  intros H. unfold expiry.
  destruct (Z.eqb_spec ttl 0); [lia|].
  destruct (Z.gtb_spec ttl 0); [reflexivity | lia].
Qed.

Lemma expiry_nonpositive (now ttl : Z) : ttl <= 0 -> expiry now ttl = None.
Proof.
  intros H. unfold expiry.
  destruct (Z.eqb_spec ttl 0); [reflexivity|].
  destruct (Z.gtb_spec ttl 0); [lia | reflexivity].
Qed.

(** ** Write, then read *)

(** X1. After [set(key, v, ttl)], a [get] or [exists] of the same
    key finds the value as long as the entry has no expiry (resolved
    time-to-live not positive) or the clock has not passed
    [now + ttl * 1000]; once the clock is past that time the same calls
    report absence.  This holds whatever the driver held before and
    whatever was evicted to make room. *)
Theorem set_then_get
    (d : MemoryDriver) (key : string) (v : Value) (ttl : option Z)
    (now t_evict t_check t_touch : Z) :
  let d1 := set now t_evict key v ttl d in
  let eff := effectiveTtl ttl d in
  (eff <= 0 \/ t_check <= now + eff * 1000 ->
   fst (get t_check t_touch key d1) = v /\ fst (exists_ t_check key d1) = true) /\
  (0 < eff -> now + eff * 1000 < t_check ->
   fst (get t_check t_touch key d1) = VNull /\ fst (exists_ t_check key d1) = false).
Proof.
  cbv zeta.
  pose proof (map_get_after_set now t_evict key v ttl d) as Hget.
  rewrite <- (getFullKey_options d (set now t_evict key v ttl d) key) in Hget
    by apply options_set.
  split.
  - intros Hlive. unfold get, exists_. rewrite Hget.
    assert (Hexp : expired t_check
              {| value := v; expiresAt := expiry now (effectiveTtl ttl d);
                 createdAt := now; accessedAt := now |} = false).
    { apply expired_false. simpl. intros t Ht.
      destruct (Z_le_gt_dec (effectiveTtl ttl d) 0) as [Hle|Hgt].
      - rewrite expiry_nonpositive in Ht by assumption. discriminate.
      - rewrite expiry_positive in Ht by lia. injection Ht as <-. lia. }
    rewrite Hexp. auto.
  - intros Hpos Hpast. unfold get, exists_. rewrite Hget.
    assert (Hexp : expired t_check
              {| value := v; expiresAt := expiry now (effectiveTtl ttl d);
                 createdAt := now; accessedAt := now |} = true).
    { apply expired_true. simpl. rewrite expiry_positive by assumption. eauto. }
    rewrite Hexp. auto.
Qed.

Lemma set_then_get_witness :
  let d1 := set 1000 1000 "k" (VStr "v") (Some 2) capacity_one in
  3000 <= 1000 + effectiveTtl (Some 2) capacity_one * 1000 /\
  0 < effectiveTtl (Some 2) capacity_one /\
  fst (get 3000 3000 "k" d1) = VStr "v" /\
  fst (get 3001 3001 "k" d1) = VNull.
Proof.
  split; [simpl; lia|]. split; [simpl; lia|].
  pose proof (set_then_get capacity_one "k" (VStr "v") (Some 2) 1000 1000 3000 3000)
    as [Hlive _].
  pose proof (set_then_get capacity_one "k" (VStr "v") (Some 2) 1000 1000 3001 3001)
    as [_ Hpast].
  split.
  - apply Hlive. right. simpl. lia.
  - apply Hpast; simpl; lia.
Defined.

(** ** One key at a time *)

(** X2. [get], [exists] and [delete] of one key leave the entry of
    every other key as it was. *)
Theorem other_keys_untouched
    (d : MemoryDriver) (k k' : string) (t_check t_touch now : Z) :
  k <> k' ->
  map_get (getFullKey d k') (store (snd (get t_check t_touch k d)))
  = map_get (getFullKey d k') (store d) /\
  map_get (getFullKey d k') (store (snd (exists_ now k d)))
  = map_get (getFullKey d k') (store d) /\
  map_get (getFullKey d k') (store (snd (delete k d)))
  = map_get (getFullKey d k') (store d).
Proof.
  intros Hne.
  assert (Hfk : getFullKey d k <> getFullKey d k').
  { intros H. apply Hne. eapply getFullKey_inj; eassumption. }
  split; [|split].
  - unfold get. destruct (map_get (getFullKey d k) (store d)) as [e|]; [|reflexivity].
    destruct (expired t_check e); simpl.
    + now apply map_get_delete_ne.
    + now apply map_get_set_ne.
  - unfold exists_. destruct (map_get (getFullKey d k) (store d)) as [e|]; [|reflexivity].
    destruct (expired now e); simpl; [now apply map_get_delete_ne | reflexivity].
  - unfold delete. destruct (map_has (getFullKey d k) (store d)); simpl; [|reflexivity].
    now apply map_get_delete_ne.
Qed.

Lemma other_keys_untouched_witness :
  let d := set 1 1 "b" (VNum 2) (Some 1) (set 1 1 "a" (VNum 1) None memory_hour) in
  "b" <> "a" /\
  map_get "a" (store (snd (get 5000 5000 "b" d))) = map_get "a" (store d) /\
  map_get "a" (store (snd (delete "b" d))) = map_get "a" (store d).
Proof.
  split; [discriminate|].
  pose proof (other_keys_untouched
                (set 1 1 "b" (VNum 2) (Some 1) (set 1 1 "a" (VNum 1) None memory_hour))
                "b" "a" 5000 5000 5000 ltac:(discriminate)) as (Hg & _ & Hd).
  exact (conj Hg Hd).
Defined.

Lemma length_evict (now : Z) (d : MemoryDriver) :
  (length (store (evictLeastRecentlyUsed now d)) <= length (store d))%nat.
Proof.
  unfold evictLeastRecentlyUsed.
  destruct (fst (scan_oldest (store d) (None, now))) as [k|]; [|lia].
  destruct (String.eqb k EmptyString); [lia|].
  simpl. rewrite length_map_delete. destruct (map_has k (store d)); lia.
Qed.

(** X3. [set] removes another key's entry only by eviction, and it
    evicts only when a capacity is configured, the table has reached
    it and the key is new.  In every other case each other key keeps
    its entry and the table grows by one exactly when the key was not
    there.  In all cases the table grows by at most one entry. *)
Theorem set_keeps_other_keys
    (d : MemoryDriver) (k : string) (v : Value) (ttl : option Z) (now t_evict : Z) :
  (maxSize (config d) = None \/
   map_has (getFullKey d k) (store d) = true \/
   (exists m, maxSize (config d) = Some m /\ Z.of_nat (length (store d)) < m) ->
   (forall k', k' <> k ->
      map_get (getFullKey d k') (store (set now t_evict k v ttl d))
      = map_get (getFullKey d k') (store d)) /\
   length (store (set now t_evict k v ttl d))
   = if map_has (getFullKey d k) (store d) then length (store d)
     else S (length (store d))) /\
  (length (store (set now t_evict k v ttl d)) <= S (length (store d)))%nat.
Proof.
  split.
  - intros Hcase.
    assert (Hcap : at_capacity (getFullKey d k) d = false).
    { unfold at_capacity. destruct Hcase as [-> | [-> | (m & -> & Hlt)]].
      - reflexivity.
      - destruct (maxSize (config d)); [|reflexivity]. simpl. apply andb_false_r.
      - destruct (Z.geb_spec (Z.of_nat (length (store d))) m); [lia|].
        simpl. now rewrite andb_false_r. }
    unfold set. rewrite Hcap. simpl. split.
    + intros k' Hne. apply map_get_set_ne. intros H. apply Hne. symmetry.
      eapply getFullKey_inj; eassumption.
    + apply length_map_set.
  - unfold set. simpl. rewrite length_map_set.
    destruct (at_capacity (getFullKey d k) d).
    + pose proof (length_evict t_evict d).
      destruct (map_has _ (store (evictLeastRecentlyUsed t_evict d))); lia.
    + destruct (map_has _ (store d)); lia.
Qed.

Lemma set_keeps_other_keys_witness :
  let d := set 1 1 "a" (VNum 1) None capacity_one in
  map_has (getFullKey d "a") (store d) = true /\
  map_get "a" (store (set 9 9 "a" (VNum 2) None d))
  = Some (mkEntry (VNum 2) (Some 3600009) 9 9) /\
  length (store (set 9 9 "a" (VNum 2) None d)) = 1%nat.
Proof.
  split; [reflexivity|]. split; [reflexivity|].
  pose proof (set_keeps_other_keys (set 1 1 "a" (VNum 1) None capacity_one)
                "a" (VNum 2) None 9 9) as [Hkeep _].
  destruct Hkeep as [_ Hlen]; [right; left; reflexivity|].
  exact Hlen.
Defined.

(** ** Deleting *)

(** X4. [delete] returns whether the table held the key, expired or
    not.  Afterwards the key is absent for [get] and [exists], a second
    [delete] returns [false], and deleting a key that is not there
    changes nothing at all. *)
Theorem delete_then_absent
    (d : MemoryDriver) (key : string) (t_check t_touch : Z) :
  wf (store d) ->
  let r := delete key d in
  fst r = map_has (getFullKey d key) (store d) /\
  fst (get t_check t_touch key (snd r)) = VNull /\
  fst (exists_ t_check key (snd r)) = false /\
  fst (delete key (snd r)) = false /\
  (fst r = false -> snd r = d).
Proof.
  intros Hwf. cbv zeta.
  assert (Habs : map_get (getFullKey (snd (delete key d)) key)
                   (store (snd (delete key d))) = None).
  { rewrite (getFullKey_options d) by apply options_delete.
    unfold delete, map_has.
    destruct (map_get (getFullKey d key) (store d)) eqn:E; simpl.
    - now apply map_get_delete_eq.
    - exact E. }
  split; [|split; [|split; [|split]]].
  - unfold delete. now destruct (map_has _ (store d)).
  - unfold get. now rewrite Habs.
  - unfold exists_. now rewrite Habs.
  - unfold delete at 1, map_has. now rewrite Habs.
  - unfold delete. destruct (map_has _ (store d)); [discriminate | reflexivity].
Qed.

Lemma delete_then_absent_witness :
  let d := set 1 1 "k" (VNum 1) None memory_hour in
  fst (delete "k" d) = true /\
  fst (get 2 2 "k" (snd (delete "k" d))) = VNull /\
  fst (delete "k" (snd (delete "k" d))) = false.
Proof.
  pose proof (delete_then_absent (set 1 1 "k" (VNum 1) None memory_hour) "k" 2 2
                (wf_set _ _ _ _ _ _ (wf_new _ _))) as (H1 & H2 & _ & H4 & _).
  exact (conj H1 (conj H2 H4)).
Defined.

Lemma snd_deleteMultiple_cons (k : string) (ks : list string) (d : MemoryDriver) :
  snd (deleteMultiple (k :: ks) d) = snd (deleteMultiple ks (snd (delete k d))).
Proof.
  unfold deleteMultiple at 1. simpl. unfold deleteMultiple_step at 2. simpl.
  destruct (delete k d) as [b d']. now rewrite deleteMultiple_acc.
Qed.

Lemma delete_accounting (k : string) (d : MemoryDriver) :
  let r := delete k d in
  Z.of_nat (length (store (snd r)))
  = Z.of_nat (length (store d)) - (if fst r then 1 else 0) /\
  Z.of_nat (deletes (stats (snd r)))
  = Z.of_nat (deletes (stats d)) + (if fst r then 1 else 0).
Proof.
  cbv zeta. unfold delete.
  destruct (map_has (getFullKey d k) (store d)) eqn:E; simpl; [|lia].
  rewrite length_map_delete, E. unfold map_has in E.
  destruct (map_get (getFullKey d k) (store d)) eqn:G; [|discriminate].
  apply map_get_In in G. destruct (store d); [contradiction | simpl; lia].
Qed.

(** X5. [deleteMultiple] returns exactly the number of entries it
    removed: the table shrinks by the count returned, the [deletes]
    statistic grows by it, the count lies between zero and the number
    of keys given, every key given is absent afterwards and every other
    key keeps its entry. *)
Theorem deleteMultiple_accounting (ks : list string) (d : MemoryDriver) :
  wf (store d) ->
  let r := deleteMultiple ks d in
  0 <= fst r <= Z.of_nat (length ks) /\
  Z.of_nat (length (store (snd r))) = Z.of_nat (length (store d)) - fst r /\
  Z.of_nat (deletes (stats (snd r))) = Z.of_nat (deletes (stats d)) + fst r /\
  (forall k, In k ks -> map_get (getFullKey d k) (store (snd r)) = None) /\
  (forall k, ~ In k ks ->
     map_get (getFullKey d k) (store (snd r)) = map_get (getFullKey d k) (store d)).
Proof.
  cbv zeta. revert d. induction ks as [|k ks IH]; intros d Hwf.
  - unfold deleteMultiple. simpl. repeat split; try lia; tauto.
  - rewrite deleteMultiple_cons, snd_deleteMultiple_cons.
    pose proof (delete_accounting k d) as [Hlen Hdel]. cbv zeta in Hlen, Hdel.
    pose proof (wf_delete k d Hwf) as Hwf'.
    destruct (IH (snd (delete k d)) Hwf') as (Hr & Hl & Hs & Habs & Hkeep).
    assert (Hfk : forall x, getFullKey (snd (delete k d)) x = getFullKey d x).
    { intros x. apply getFullKey_options, options_delete. }
    split; [|split; [|split; [|split]]].
    + simpl length. destruct (fst (delete k d)); lia.
    + rewrite Hl, Hlen. lia.
    + rewrite Hs, Hdel. lia.
    + intros x Hin. destruct (in_dec String.string_dec x ks) as [Hx|Hx].
      * rewrite <- Hfk. now apply Habs.
      * destruct Hin as [<-|Hin]; [|contradiction].
        rewrite <- Hfk, (Hkeep k Hx), Hfk.
        pose proof (delete_then_absent d k 0 0 Hwf) as (_ & _ & _ & H4 & _).
        unfold delete at 1, map_has in H4. rewrite Hfk in H4.
        destruct (map_get (getFullKey d k) (store (snd (delete k d))));
          [discriminate | reflexivity].
    + intros x Hnot.
      assert (Hxk : k <> x) by (intros ->; apply Hnot; now left).
      assert (Hx : ~ In x ks) by (intros H; apply Hnot; now right).
      rewrite <- Hfk, (Hkeep x Hx), Hfk.
      apply (other_keys_untouched d k x 0 0 0 Hxk).
Qed.

Lemma deleteMultiple_accounting_witness :
  let d := set 1 1 "b" (VNum 2) None (set 1 1 "a" (VNum 1) None memory_hour) in
  fst (deleteMultiple ["a"; "zz"; "a"] d) = 1 /\
  length (store (snd (deleteMultiple ["a"; "zz"; "a"] d))) = 1%nat.
Proof.
  pose proof (deleteMultiple_accounting ["a"; "zz"; "a"]
                (set 1 1 "b" (VNum 2) None (set 1 1 "a" (VNum 1) None memory_hour))
                (wf_set _ _ _ _ _ _ (wf_set _ _ _ _ _ _ (wf_new _ _))))
    as (_ & Hlen & _).
  split; [reflexivity|].
  apply Nat2Z.inj. rewrite Hlen. reflexivity.
Defined.

(** ** The sweep *)

Lemma filter_ext_in {A : Type} (P Q : A -> Prop)
    `{forall x, Decision (P x)} `{forall x, Decision (Q x)} (l : list A) :
  (forall x, In x l -> (P x <-> Q x)) -> filter P l = filter Q l.
Proof.
  induction l as [|x l IH]; intros Hext; [reflexivity|].
  rewrite !filter_cons.
  assert (HPQ : P x <-> Q x) by (apply Hext; now left).
  rewrite IH by (intros y Hy; apply Hext; now right).
  destruct (decide (P x)), (decide (Q x)); tauto.
Qed.

Lemma filter_all {A : Type} (P : A -> Prop) `{forall x, Decision (P x)} (l : list A) :
  (forall x, In x l -> P x) -> filter P l = l.
Proof.
  induction l as [|x l IH]; intros Hall; [reflexivity|].
  rewrite filter_cons. destruct (decide (P x)) as [|Hn].
  - f_equal. apply IH. intros y Hy. apply Hall. now right.
  - exfalso. apply Hn, Hall. now left.
Qed.

Lemma map_delete_filter (k : string) (m : list (string * CacheEntry)) :
  wf m -> map_delete k m = filter (fun ke => fst ke <> k) m.
Proof.
  unfold wf. induction m as [|[k' e'] rest IH]; intros Hwf; [reflexivity|].
  simpl in Hwf. apply NoDup_cons in Hwf as [Hnotin Hwf].
  cbn [map_delete]. rewrite filter_cons. cbn [fst].
  destruct (String.eqb_spec k' k) as [->|Hk].
  - destruct (decide (k <> k)); [contradiction|].
    symmetry. apply filter_all. intros [kx ex] Hin. simpl. intros ->.
    apply Hnotin. rewrite list_elem_of_In. unfold keys.
    change k with (fst (k, ex)). now apply in_map.
  - destruct (decide (k' <> k)); [|contradiction]. now rewrite IH.
Qed.

Lemma wf_filter (P : string * CacheEntry -> Prop) `{forall x, Decision (P x)}
    (m : list (string * CacheEntry)) :
  wf m -> wf (filter P m).
Proof.
  unfold wf. induction m as [|[k e] rest IH]; intros Hwf; [assumption|].
  simpl in Hwf. apply NoDup_cons in Hwf as [Hnotin Hwf].
  rewrite filter_cons. destruct (decide (P (k, e))); [|auto].
  simpl. apply NoDup_cons. split; [|auto].
  intros Hin. apply Hnotin. rewrite list_elem_of_In in *.
  unfold keys in *. apply in_map_iff in Hin as ([k1 e1] & Hk & Hin).
  simpl in Hk. subst k1. apply list_elem_of_In, list_elem_of_filter in Hin as [_ Hin].
  apply list_elem_of_In in Hin. change k with (fst (k, e1)). now apply in_map.
Qed.

Lemma fold_delete_filter (ks : list string) (m : list (string * CacheEntry)) :
  wf m ->
  fold_left (fun m k => map_delete k m) ks m = filter (fun ke => fst ke ∉ ks) m.
Proof.
  revert m. induction ks as [|k ks IH]; intros m Hwf; simpl.
  - symmetry. apply filter_all. intros x _. apply not_elem_of_nil.
  - rewrite IH by now apply wf_map_delete.
    rewrite map_delete_filter by assumption.
    rewrite list_filter_filter. apply filter_ext_in.
    intros [kx ex] _. simpl. rewrite not_elem_of_cons. tauto.
Qed.

Lemma wf_In_unique (m : Table) (k : string) (e e' : CacheEntry) :
  wf m -> In (k, e) m -> In (k, e') m -> e = e'.
Proof.
  unfold wf. induction m as [|[k1 e1] rest IH]; intros Hwf Hin Hin'; [contradiction|].
  simpl in Hwf. apply NoDup_cons in Hwf as [Hnotin Hwf].
  assert (Hkeys : forall x, In (k1, x) rest -> False).
  { intros x Hx. apply Hnotin. rewrite list_elem_of_In. unfold keys.
    change k1 with (fst (k1, x)). now apply in_map. }
  destruct Hin as [Heq|Hin], Hin' as [Heq'|Hin'].
  - congruence.
  - injection Heq as -> ->. exfalso. eauto.
  - injection Heq' as -> ->. exfalso. eauto.
  - auto.
Qed.

(** X6. The periodic sweep keeps exactly the entries that have not
    expired at its clock reading, in their order: no expired entry
    survives it and no live entry is lost or changed. *)
Theorem cleanup_sweeps_expired (now : Z) (d : MemoryDriver) :
  wf (store d) ->
  store (cleanup now d) = filter (fun ke => expired now (snd ke) = false) (store d) /\
  (forall k e, map_get k (store (cleanup now d)) = Some e -> expired now e = false) /\
  (forall k e, map_get k (store d) = Some e -> expired now e = false ->
     map_get k (store (cleanup now d)) = Some e) /\
  wf (store (cleanup now d)).
Proof.
  intros Hwf. unfold Table in *.
  assert (Heq : store (cleanup now d)
                = filter (fun ke => expired now (snd ke) = false) (store d)).
  { unfold cleanup. simpl. unfold Table in *. rewrite fold_delete_filter by assumption.
    apply filter_ext_in. intros [k e] Hin. simpl. split.
    - intros Hn. destruct (expired now e) eqn:E; [|reflexivity].
      exfalso. apply Hn. apply list_elem_of_In. unfold keys. change k with (fst (k, e)).
      apply in_map. apply list_elem_of_In, list_elem_of_filter.
      split; [exact E | now apply list_elem_of_In].
    - intros Hlive Hk. apply list_elem_of_In in Hk. unfold keys in Hk.
      apply in_map_iff in Hk as ([k1 e1] & Hk1 & Hin1). simpl in Hk1. subst k1.
      apply list_elem_of_In, list_elem_of_filter in Hin1 as [Hexp Hin1].
      simpl in Hexp. apply list_elem_of_In in Hin1.
      rewrite (wf_In_unique (store d) k e e1 Hwf Hin Hin1) in Hlive. congruence. }
  split; [exact Heq|]. split; [|split].
  - intros k e Hget. rewrite Heq in Hget. apply map_get_In in Hget.
    now apply list_elem_of_In, list_elem_of_filter in Hget as [Hl _].
  - intros k e Hget Hlive. rewrite Heq.
    assert (Hwf' : wf (filter (fun ke => expired now (snd ke) = false) (store d)))
      by now apply wf_filter.
    destruct (map_get k (filter (fun ke => expired now (snd ke) = false) (store d)))
      as [e'|] eqn:E.
    + apply map_get_In, list_elem_of_In, list_elem_of_filter in E as [_ Hin'].
      apply list_elem_of_In in Hin'. apply map_get_In in Hget.
      now rewrite (wf_In_unique (store d) k e e' Hwf Hget Hin').
    + exfalso. apply map_get_None_keys in E. apply E. unfold keys.
      change k with (fst (k, e)). apply in_map.
      apply list_elem_of_In, list_elem_of_filter. split; [exact Hlive|].
      now apply list_elem_of_In, map_get_In.
  - rewrite Heq. now apply wf_filter.
Qed.

Lemma cleanup_sweeps_expired_witness :
  let d := set 5 5 "c" (VNum 3) (Some 1)
             (set 5 5 "b" (VNum 2) None (set 5 5 "a" (VNum 1) (Some 1) memory_hour)) in
  keys (store (cleanup 2000 d)) = ["b"].
Proof.
  pose proof (cleanup_sweeps_expired 2000
    (set 5 5 "c" (VNum 3) (Some 1)
       (set 5 5 "b" (VNum 2) None (set 5 5 "a" (VNum 1) (Some 1) memory_hour)))
    (wf_set _ _ _ _ _ _ (wf_set _ _ _ _ _ _ (wf_set _ _ _ _ _ _ (wf_new _ _)))))
    as [Heq _].
  cbv zeta. rewrite Heq. reflexivity.
Defined.

(** ** What every run keeps *)

Lemma starts_with_append (p k : string) : starts_with p (p ++ k) = true.
Proof.
  induction p as [|a p IH]; simpl; [reflexivity|].
  now rewrite Ascii.eqb_refl, IH.
Qed.

Lemma starts_with_getFullKey (d : MemoryDriver) (key : string) :
  starts_with (keyPrefix (options d)) (getFullKey d key) = true.
Proof.
  unfold getFullKey. destruct (String.eqb_spec (keyPrefix (options d)) EmptyString) as [->|_].
  - reflexivity.
  - apply starts_with_append.
Qed.

Lemma keeps_refl (d : MemoryDriver) : keeps d d.
Proof. unfold keeps. auto. Qed.

Lemma keeps_trans (d1 d2 d3 : MemoryDriver) : keeps d1 d2 -> keeps d2 d3 -> keeps d1 d3.
Proof.
  intros (Ho & Hc & Hw & Hk) (Ho' & Hc' & Hw' & Hk'). unfold keeps.
  split; [congruence|]. split; [congruence|]. split; [auto|].
  intros k Hin. destruct (Hk' k Hin) as [Hin'|Hp].
  - auto.
  - right. now rewrite <- Ho.
Qed.

Lemma keeps_map_delete (k : string) (d : MemoryDriver) :
  keeps d (with_store (map_delete k (store d)) d).
Proof.
  unfold keeps. simpl. split; [reflexivity|]. split; [reflexivity|].
  split; [apply wf_map_delete|].
  intros x Hin. left. eapply map_delete_keys_subset; eassumption.
Qed.

Lemma keeps_map_set (key : string) (e : CacheEntry) (d : MemoryDriver) :
  keeps d (with_store (map_set (getFullKey d key) e (store d)) d).
Proof.
  unfold keeps. simpl. split; [reflexivity|]. split; [reflexivity|].
  split; [apply wf_map_set|].
  intros x Hin. rewrite keys_map_set in Hin.
  destruct (map_has (getFullKey d key) (store d)); [now left|].
  apply in_app_or in Hin as [Hin|[<-|[]]]; [now left|].
  right. apply starts_with_getFullKey.
Qed.

Lemma keeps_with_stats (s : Stats) (d d' : MemoryDriver) :
  keeps d d' -> keeps d (with_stats s d').
Proof. unfold keeps. simpl. tauto. Qed.

Lemma keeps_get (t_check t_touch : Z) (key : string) (d : MemoryDriver) :
  keeps d (snd (get t_check t_touch key d)).
Proof.
  unfold get. destruct (map_get _ (store d)) as [e|]; simpl.
  - destruct (expired t_check e); simpl; apply keeps_with_stats.
    + apply keeps_map_delete.
    + apply keeps_map_set.
  - apply keeps_with_stats, keeps_refl.
Qed.

Lemma keeps_evict (now : Z) (d : MemoryDriver) : keeps d (evictLeastRecentlyUsed now d).
Proof.
  unfold evictLeastRecentlyUsed.
  destruct (fst (scan_oldest (store d) (None, now))) as [k|]; [|apply keeps_refl].
  destruct (String.eqb k EmptyString); [apply keeps_refl | apply keeps_map_delete].
Qed.

Lemma keeps_set (now t_evict : Z) (key : string) (v : Value) (ttl : option Z)
    (d : MemoryDriver) :
  keeps d (set now t_evict key v ttl d).
Proof.
  unfold set.
  set (d1 := if at_capacity (getFullKey d key) d
             then evictLeastRecentlyUsed t_evict d else d).
  assert (H1 : keeps d d1).
  { unfold d1. destruct (at_capacity _ d); [apply keeps_evict | apply keeps_refl]. }
  apply keeps_with_stats. eapply keeps_trans; [exact H1|].
  replace (getFullKey d key) with (getFullKey d1 key)
    by (apply getFullKey_options; apply H1).
  apply keeps_map_set.
Qed.

Lemma keeps_delete (key : string) (d : MemoryDriver) : keeps d (snd (delete key d)).
Proof.
  unfold delete. destruct (map_has _ (store d)); simpl.
  - apply keeps_with_stats, keeps_map_delete.
  - apply keeps_refl.
Qed.

Lemma keeps_exists (now : Z) (key : string) (d : MemoryDriver) :
  keeps d (snd (exists_ now key d)).
Proof.
  unfold exists_. destruct (map_get _ (store d)) as [e|]; [|apply keeps_refl].
  destruct (expired now e); [apply keeps_map_delete | apply keeps_refl].
Qed.

Lemma keeps_clear (d : MemoryDriver) : keeps d (clear d).
Proof.
  unfold keeps, clear. simpl. split; [reflexivity|]. split; [reflexivity|].
  split; [intros _; apply NoDup_nil; constructor | intros k []].
Qed.

Lemma keeps_increment (t1 t2 t3 t4 : Z) (key : string) (amount : option Z) (d : MemoryDriver) :
  keeps d (snd (increment t1 t2 t3 t4 key amount d)).
Proof.
  unfold increment. pose proof (keeps_get t1 t2 key d) as Hg.
  destruct (get t1 t2 key d) as [cur d1]. cbn [fst snd] in *.
  eapply keeps_trans; [exact Hg | apply keeps_set].
Qed.

Lemma keeps_deleteMultiple (ks : list string) (d : MemoryDriver) :
  keeps d (snd (deleteMultiple ks d)).
Proof.
  revert d. induction ks as [|k ks IH]; intros d.
  - apply keeps_refl.
  - rewrite snd_deleteMultiple_cons.
    eapply keeps_trans; [apply keeps_delete | apply IH].
Qed.

Lemma keeps_getMultiple (clock : nat -> Z * Z) (ks : list string) (i : nat)
    (result : option PlainObject) (d : MemoryDriver) :
  keeps d (snd (getMultiple_from i clock ks result d)).
Proof.
  revert i result d. induction ks as [|k ks IH]; intros i result d; simpl.
  - apply keeps_refl.
  - pose proof (keeps_get (fst (clock i)) (snd (clock i)) k d) as Hg.
    destruct (get (fst (clock i)) (snd (clock i)) k d) as [v d1]. cbn [snd] in Hg.
    eapply keeps_trans; [exact Hg | apply IH].
Qed.

Lemma keeps_setMultiple (clock : nat -> Z * Z) (entries : list (string * Value))
    (ttl : option Z) (i : nat) (d : MemoryDriver) :
  keeps d (setMultiple_from i clock entries ttl d).
Proof.
  revert i d. induction entries as [|[k v] entries IH]; intros i d; simpl.
  - apply keeps_refl.
  - eapply keeps_trans; [apply keeps_set | apply IH].
Qed.

Lemma keeps_cleanup (now : Z) (d : MemoryDriver) : keeps d (cleanup now d).
Proof.
  unfold cleanup.
  generalize (keys (filter (fun ke => expired now (snd ke) = true) (store d))).
  intros ks. revert d. induction ks as [|k ks IH]; intros d; simpl.
  - destruct d; apply keeps_refl.
  - eapply keeps_trans; [apply (keeps_map_delete k d)|].
    specialize (IH (with_store (map_delete k (store d)) d)). exact IH.
Qed.

Lemma keeps_after (d : MemoryDriver) (c : Call) : keeps d (after d c).
Proof.
  destruct c; simpl.
  - apply keeps_get.
  - apply keeps_set.
  - apply keeps_delete.
  - apply keeps_exists.
  - apply keeps_clear.
  - apply keeps_getMultiple.
  - apply keeps_setMultiple.
  - apply keeps_deleteMultiple.
  - apply keeps_increment.
  - apply keeps_increment.
  - apply keeps_cleanup.
Qed.

Lemma keeps_after_all (calls : list Call) (d : MemoryDriver) :
  keeps d (after_all d calls).
Proof.
  unfold after_all. revert d.
  induction calls as [|call calls IH]; intros d; simpl.
  - apply keeps_refl.
  - eapply keeps_trans; [apply keeps_after | apply IH].
Qed.

(** X7. Whatever sequence of calls is made on a new driver, the
    table never holds a key twice, every stored key carries the
    configured prefix, and the configuration and the resolved options
    stay those of the constructor. *)
Theorem every_run_keeps_the_table_sound
    (c : MemoryConfig) (o : DriverOptions) (calls : list Call) :
  let d := after_all (new_MemoryDriver c o) calls in
  wf (store d) /\
  Forall (fun k => starts_with (keyPrefix (options d)) k = true) (keys (store d)) /\
  config d = c /\
  options d = options (new_MemoryDriver c o).
Proof.
  cbv zeta.
  destruct (keeps_after_all calls (new_MemoryDriver c o)) as (Ho & Hc & Hw & Hk).
  split; [apply Hw, wf_new|]. split; [|split; assumption].
  apply Forall_forall. intros k Hin. apply list_elem_of_In in Hin.
  rewrite Ho. destruct (Hk k Hin) as [[]|Hp]. exact Hp.
Qed.

(** ** Statistics *)

















(** ** Bulk write, then bulk read *)

Lemma setMultiple_other (clock : nat -> Z * Z) (entries : list (string * Value))
    (ttl : option Z) (i : nat) (d : MemoryDriver) (k : string) :
  maxSize (config d) = None ->
  ~ In k (map fst entries) ->
  map_get (getFullKey d k) (store (setMultiple_from i clock entries ttl d))
  = map_get (getFullKey d k) (store d).
Proof.
  revert i d. induction entries as [|[k0 v0] entries IH]; intros i d Hmax Hnot; simpl.
  - reflexivity.
  - simpl in Hnot.
    pose proof (keeps_set (fst (clock i)) (snd (clock i)) k0 v0 ttl d) as (Ho & Hc & _).
    rewrite <- (getFullKey_options d _ k Ho).
    rewrite IH by (try congruence; tauto).
    rewrite (getFullKey_options d _ k Ho).
    destruct (set_keeps_other_keys d k0 v0 ttl (fst (clock i)) (snd (clock i)))
      as [Hkeep _].
    destruct Hkeep as [Hother _]; [now left|].
    apply Hother. intros ->. tauto.
Qed.

Lemma setMultiple_written (clock : nat -> Z * Z) (entries : list (string * Value))
    (ttl : option Z) (i : nat) (d : MemoryDriver) (k : string) (v : Value) :
  maxSize (config d) = None ->
  NoDup (map fst entries) ->
  In (k, v) entries ->
  exists j,
    map_get (getFullKey d k) (store (setMultiple_from i clock entries ttl d))
    = Some {| value := v;
              expiresAt := expiry (fst (clock j)) (effectiveTtl ttl d);
              createdAt := fst (clock j); accessedAt := fst (clock j) |}.
Proof.
  revert i d. induction entries as [|[k0 v0] entries IH]; intros i d Hmax Hnd Hin;
    [contradiction|].
  simpl in Hnd. apply NoDup_cons in Hnd as [Hnotin Hnd]. simpl.
  pose proof (keeps_set (fst (clock i)) (snd (clock i)) k0 v0 ttl d) as (Ho & Hc & _).
  destruct Hin as [[= -> ->]|Hin].
  - exists i. rewrite <- (getFullKey_options d _ k Ho).
    rewrite setMultiple_other.
    + rewrite (getFullKey_options d _ k Ho). apply map_get_after_set.
    + congruence.
    + now rewrite <- list_elem_of_In.
  - assert (Hmax' : maxSize (config (set (fst (clock i)) (snd (clock i)) k0 v0 ttl d)) = None)
      by congruence.
    destruct (IH (S i) _ Hmax' Hnd Hin) as [j Hj].
    exists j. rewrite <- (getFullKey_options d _ k Ho), Hj.
    unfold effectiveTtl. now rewrite Ho.
Qed.

(** A [get] of any key keeps what is readable under a key after it,
    and reads the value when the key is that one. *)
Lemma readable_after_get (clock : nat -> Z * Z) (d : MemoryDriver) (k0 k : string)
    (v : Value) (i : nat) :
  readable clock d k v ->
  readable clock (snd (get (fst (clock i)) (snd (clock i)) k0 d)) k v /\
  (k0 = k -> fst (get (fst (clock i)) (snd (clock i)) k0 d) = v).
Proof.
  intros (e & Hget & Hv & Hlive). unfold get, readable.
  destruct (String.eqb_spec (getFullKey d k0) (getFullKey d k)) as [Heq|Hne].
  - rewrite Heq, Hget, (Hlive i). cbn [fst snd]. split; [|auto].
    replace (getFullKey _ k) with (getFullKey d k) by reflexivity.
    cbn [store with_stats with_store]. rewrite map_get_set_eq.
    exists (touch (snd (clock i)) e). auto.
  - split; [|intros ->; contradiction].
    destruct (map_get (getFullKey d k0) (store d)) as [e0|].
    + destruct (expired (fst (clock i)) e0); cbn [fst snd];
        replace (getFullKey _ k) with (getFullKey d k) by reflexivity;
        cbn [store with_stats with_store].
      * rewrite map_get_delete_ne by assumption. eauto.
      * rewrite map_get_set_ne by assumption. eauto.
    + cbn [fst snd]. eauto.
Qed.

(** A [get] of any key leaves a key that the table does not hold
    absent, and answers [null] when the key is that one. *)
Lemma absent_after_get (t_check t_touch : Z) (d : MemoryDriver) (k0 k : string) :
  map_get (getFullKey d k) (store d) = None ->
  map_get (getFullKey (snd (get t_check t_touch k0 d)) k)
    (store (snd (get t_check t_touch k0 d))) = None /\
  (k0 = k -> fst (get t_check t_touch k0 d) = VNull).
Proof.
  intros Habs. unfold get. split.
  - destruct (map_get (getFullKey d k0) (store d)) as [e0|] eqn:E0; [|exact Habs].
    destruct (expired t_check e0); cbn [fst snd];
      replace (getFullKey _ k) with (getFullKey d k) by reflexivity;
      cbn [store with_stats with_store].
    + apply map_get_None_keys. intros Hin. apply map_delete_keys_subset in Hin.
      now apply map_get_None_keys in Habs.
    + rewrite map_get_set_ne; [exact Habs|]. intros Heq. congruence.
  - intros ->. now rewrite Habs.
Qed.

(** What [getMultiple] answers when ["__proto__"] is not among the keys
    and the answer so far has its ordinary prototype. *)
Lemma getMultiple_from_plain (clock : nat -> Z * Z) (ks : list string) :
  ~ In "__proto__" ks ->
  forall (i : nat) (o : PlainObject) (d : MemoryDriver),
  prototype o = ObjectPrototype ->
  exists o',
    fst (getMultiple_from i clock ks (Some o) d) = Some o' /\
    prototype o' = ObjectPrototype /\
    (forall k, is_Some (own o' !! k) <-> In k ks \/ is_Some (own o !! k)) /\
    (forall k, ~ In k ks -> own o' !! k = own o !! k) /\
    (forall k, In k ks -> map_get (getFullKey d k) (store d) = None ->
       own o' !! k = Some VNull) /\
    (forall k v, In k ks -> readable clock d k v -> own o' !! k = Some v).
Proof.
  induction ks as [|k0 ks IH]; intros Hproto i o d Hp.
  - exists o. simpl. split; [reflexivity|]. split; [exact Hp|].
    split; [intros k; tauto|]. split; [reflexivity|]. split; intros; contradiction.
  - simpl in Hproto.
    assert (Hk0 : String.eqb k0 "__proto__" = false).
    { apply String.eqb_neq. intros ->. tauto. }
    cbn [getMultiple_from].
    pose proof (fun k => absent_after_get (fst (clock i)) (snd (clock i)) d k0 k) as Habs.
    pose proof (fun k v => readable_after_get clock d k0 k v i) as Hread.
    destruct (get (fst (clock i)) (snd (clock i)) k0 d) as [v0 d1]. cbn [fst snd] in *.
    assert (Has : Some o ≫= assign k0 v0
                  = Some {| own := <[k0 := v0]> (own o); prototype := ObjectPrototype |}).
    { simpl. unfold assign. now rewrite Hp, Hk0. }
    rewrite Has.
    assert (Hrest : ~ In "__proto__" ks) by tauto.
    destruct (IH Hrest (S i)
                {| own := <[k0 := v0]> (own o); prototype := ObjectPrototype |}
                d1 eq_refl)
      as (o' & Ho' & Hp' & Hdom & Hother & Hnull & Hval).
    cbn [own] in *.
    exists o'. split; [exact Ho'|]. split; [exact Hp'|].
    split; [|split; [|split]].
    + intros k. rewrite Hdom, lookup_insert_is_Some. simpl.
      destruct (String.string_dec k0 k); intuition.
    + intros k Hnot. simpl in Hnot. rewrite Hother by tauto.
      apply lookup_insert_ne. tauto.
    + intros k Hin Hk.
      destruct (in_dec String.string_dec k ks) as [Hin'|Hnot].
      * apply Hnull; [assumption|]. exact (proj1 (Habs k Hk)).
      * destruct Hin as [->|Hin]; [|contradiction].
        rewrite Hother by assumption. rewrite lookup_insert_eq.
        f_equal. exact (proj2 (Habs k Hk) eq_refl).
    + intros k v Hin Hk.
      destruct (in_dec String.string_dec k ks) as [Hin'|Hnot].
      * apply Hval; [assumption|]. exact (proj1 (Hread k v Hk)).
      * destruct Hin as [->|Hin]; [|contradiction].
        rewrite Hother by assumption. rewrite lookup_insert_eq.
        f_equal. exact (proj2 (Hread k v Hk) eq_refl).
Qed.

(** X9. [setMultiple(entries, ttl)] followed by [getMultiple(keys)]
    answers, for every key of [keys] that [entries] wrote, the value
    written, whatever other keys are read with it, provided the entries
    carry distinct keys (as the entries of an object do), no capacity
    is configured (nothing is evicted), the reads come before any of
    the writes expires, and ["__proto__"] is not among the keys read
    (an assignment to that name of the answer adds no entry). *)
Theorem setMultiple_then_getMultiple
    (d : MemoryDriver) (entries : list (string * Value)) (ttl : option Z)
    (wclock rclock : nat -> Z * Z) (ks : list string) (k : string) (v : Value) :
  NoDup (map fst entries) ->
  maxSize (config d) = None ->
  (effectiveTtl ttl d <= 0 \/
   forall i j, fst (rclock i) <= fst (wclock j) + effectiveTtl ttl d * 1000) ->
  ~ In "__proto__" ks ->
  In k ks -> In (k, v) entries ->
  exists o,
    fst (getMultiple rclock ks (setMultiple wclock entries ttl d)) = Some o /\
    own o !! k = Some v.
Proof.
  intros Hnd Hmax Htime Hproto Hk Hin.
  assert (Hopt : options (setMultiple wclock entries ttl d) = options d).
  { apply keeps_setMultiple. }
  assert (Hread : readable rclock (setMultiple wclock entries ttl d) k v).
  { destruct (setMultiple_written wclock entries ttl 0 d k v Hmax Hnd Hin) as [j Hj].
    unfold readable. rewrite (getFullKey_options d _ k Hopt).
    eexists. split; [exact Hj|]. split; [reflexivity|].
    intros i. apply expired_false. simpl. intros t Ht.
    destruct (Z_le_gt_dec (effectiveTtl ttl d) 0) as [Hle|Hgt].
    - rewrite expiry_nonpositive in Ht by assumption. discriminate.
    - rewrite expiry_positive in Ht by lia. injection Ht as <-.
      destruct Htime as [Hle|Hall]; [lia | apply Hall]. }
  destruct (getMultiple_from_plain rclock ks Hproto 0 emptyObject
              (setMultiple wclock entries ttl d) eq_refl)
    as (o & Ho & _ & _ & _ & _ & Hval).
  exists o. split; [exact Ho|]. now apply Hval.
Qed.

Lemma setMultiple_then_getMultiple_witness :
  let d := setMultiple (fun _ => (10, 10)) [("a", VNum 1); ("b", VStr "two")] (Some 5)
             memory_hour in
  exists o,
    fst (getMultiple (fun _ => (5010, 5010)) ["b"; "missing"; "a"] d) = Some o /\
    own o !! "b" = Some (VStr "two").
Proof.
  apply (setMultiple_then_getMultiple memory_hour [("a", VNum 1); ("b", VStr "two")]
           (Some 5) (fun _ => (10, 10)) (fun _ => (5010, 5010)) ["b"; "missing"; "a"]
           "b" (VStr "two")).
  - apply NoDup_cons. split; [|apply NoDup_singleton].
    intros H. apply list_elem_of_singleton in H. discriminate.
  - reflexivity.
  - right. intros i j. simpl. lia.
  - intros [H|[H|[H|[]]]]; discriminate.
  - now left.
  - right. now left.
Defined.

(** X10. When ["__proto__"] is not among the keys asked for, the answer
    of [getMultiple] is a plain object that has an entry for exactly
    those keys, and [null] under each of them that the table does not
    hold, whatever it holds under the others.  Asked for ["__proto__"]
    alone, the answer has no entry: the assignment reaches the setter
    of [Object.prototype]. *)
Theorem getMultiple_answers_every_key
    (clock : nat -> Z * Z) (ks : list string) (d : MemoryDriver) :
  (~ In "__proto__" ks ->
   exists o,
     fst (getMultiple clock ks d) = Some o /\
     prototype o = ObjectPrototype /\
     (forall k, In k ks <-> is_Some (own o !! k)) /\
     (forall k, In k ks -> map_get (getFullKey d k) (store d) = None ->
        own o !! k = Some VNull)) /\
  (exists o, fst (getMultiple clock ["__proto__"] d) = Some o /\ own o = ∅).
Proof.
  split.
  - intros Hproto.
    destruct (getMultiple_from_plain clock ks Hproto 0 emptyObject d eq_refl)
      as (o & Ho & Hp & Hdom & _ & Hnull & _).
    exists o. split; [exact Ho|]. split; [exact Hp|]. split; [|exact Hnull].
    intros k. rewrite Hdom. simpl. rewrite lookup_empty. split; [auto|].
    intros [H|H]; [assumption | now apply is_Some_None in H].
  - unfold getMultiple. cbn [getMultiple_from].
    destruct (get (fst (clock 0%nat)) (snd (clock 0%nat)) "__proto__" d) as [v d1].
    cbn [fst]. destruct v; simpl; eauto.
Qed.

Lemma getMultiple_answers_every_key_witness :
  let d := set 1 1 "x" (VNum 7) None memory_hour in
  exists o,
    fst (getMultiple (fun _ => (1, 1)) ["x"; "y"] d) = Some o /\
    own o !! "y" = Some VNull.
Proof.
  cbv zeta.
  destruct (getMultiple_answers_every_key (fun _ => (1, 1)) ["x"; "y"]
              (set 1 1 "x" (VNum 7) None memory_hour)) as [H _].
  destruct H as (o & Ho & _ & _ & Hnull).
  - intros [H|[H|[]]]; discriminate.
  - exists o. split; [exact Ho|]. apply Hnull; [right; now left | reflexivity].
Defined.

(** ** The sweep timer *)

Lemma validateConfig_spec (c : MemoryConfig) :
  validateConfig c <> None <->
  (exists m, maxSize c = Some m /\ m <= 0) \/
  (exists i, cleanupInterval c = Some i /\ i <= 0).
Proof.
  unfold validateConfig.
  destruct (maxSize c) as [m|], (cleanupInterval c) as [i|];
    repeat match goal with
           | |- context [?a <=? 0] => destruct (Z.leb_spec a 0)
           end;
    split; try congruence; try (intros _; eauto; fail);
    try (intros [(x & [= <-] & Hx)|(x & [= <-] & Hx)]; lia);
    try (intros [(x & [=] & Hx)|(x & [= <-] & Hx)]; lia);
    try (intros [(x & [= <-] & Hx)|(x & [=] & Hx)]; lia);
    try (intros [(x & [=] & Hx)|(x & [=] & Hx)]).
Qed.

(** X11. [initialize()] fails exactly when [maxSize] or
    [cleanupInterval] is given and is zero or negative, and then starts
    no timer; otherwise it starts one sweep interval of
    [(cleanupInterval ?? 60) * 1000] milliseconds, a positive
    period. *)
Theorem initialize_validates (c : MemoryConfig) (l : Lifecycle) :
  ((exists message, initialize c l = inl message) <->
   (exists m, maxSize c = Some m /\ m <= 0) \/
   (exists i, cleanupInterval c = Some i /\ i <= 0)) /\
  ((exists message, initialize c l = inl message) ->
   lifecycle_step c l LInitialize = l) /\
  (forall l', initialize c l = inr l' ->
     0 < default 60 (cleanupInterval c) * 1000 /\
     intervals l' = intervals l ++ [(nextInterval l, default 60 (cleanupInterval c) * 1000)] /\
     cleanupHandle l' = Some (nextInterval l)).
Proof.
  pose proof (validateConfig_spec c) as Hspec.
  unfold lifecycle_step, initialize.
  destruct (validateConfig c) as [msg|] eqn:E.
  - split; [|split].
    + split; [intros _; apply Hspec; congruence | eauto].
    + reflexivity.
    + intros l' [=].
  - split; [|split].
    + split; [intros [m [=]] | intros H; apply Hspec in H; congruence].
    + intros [m [=]].
    + intros l' [= <-]. simpl. split; [|auto].
      destruct (cleanupInterval c) as [i|] eqn:Ei; simpl; [|lia].
      destruct (Z_le_gt_dec i 0); [|lia].
      exfalso. assert (@None string <> None); [|congruence].
      apply Hspec. right. eauto.
Qed.

Lemma initialize_validates_witness :
  initialize (mkConfig (Some 0) None) fresh = inl "maxSize must be greater than 0" /\
  lifecycle_step (mkConfig (Some 0) None) fresh LInitialize = fresh /\
  (exists l', initialize (mkConfig (Some 10) (Some 5)) fresh = inr l' /\
              intervals l' = [(0%nat, 5000)]).
Proof.
  pose proof (initialize_validates (mkConfig (Some 0) None) fresh) as (_ & Hsame & _).
  pose proof (initialize_validates (mkConfig (Some 10) (Some 5)) fresh) as (_ & _ & Hok).
  split; [reflexivity|]. split; [apply Hsame; eauto|].
  eexists. split; [reflexivity|]. apply (Hok _ eq_refl).
Defined.

Lemma filter_single_interval (h : nat) (period : Z) :
  filter (fun t : nat * Z => fst t <> h) [(h, period)] = [].
Proof.
  rewrite filter_cons. simpl. destruct (decide (h <> h)); [contradiction | reflexivity].
Qed.

Lemma single_timer_step (c : MemoryConfig) (l : Lifecycle) (call : LifecycleCall) :
  is_initialize call = false ->
  single_timer c l -> single_timer c (lifecycle_step c l call).
Proof.
  intros Hcall H. destruct call; [discriminate| |]; simpl.
  - unfold disconnect, single_timer in *.
    destruct (cleanupHandle l) as [h|] eqn:E; simpl.
    + rewrite H. apply filter_single_interval.
    + now rewrite E.
  - unfold reconnect, single_timer in *.
    destruct (cleanupHandle l) as [h|] eqn:E; simpl.
    + now rewrite E.
    + now rewrite H.
Qed.

(** X12. After one successful [initialize()], any sequence of
    [disconnect()] and [reconnect()] calls leaves at most one sweep
    interval running, the one whose handle the driver keeps:
    [disconnect()] leaves none, and [reconnect()] starts one only when
    none is running. *)
Theorem one_sweep_timer (c : MemoryConfig) (calls : list LifecycleCall) :
  validateConfig c = None ->
  forallb (fun call => negb (is_initialize call)) calls = true ->
  let l := lifecycle_run c (lifecycle_step c fresh LInitialize) calls in
  single_timer c l /\
  (length (intervals l) <= 1)%nat /\
  intervals (disconnect l) = [] /\
  length (intervals (reconnect c l)) = 1%nat.
Proof.
  intros Hvalid Hcalls. cbv zeta.
  assert (H0 : single_timer c (lifecycle_step c fresh LInitialize)).
  { unfold lifecycle_step, initialize. rewrite Hvalid. reflexivity. }
  assert (H : single_timer c (lifecycle_run c (lifecycle_step c fresh LInitialize) calls)).
  { unfold lifecycle_run. revert H0. generalize (lifecycle_step c fresh LInitialize).
    induction calls as [|call calls IH]; intros l H0; simpl; [assumption|].
    simpl in Hcalls. apply andb_true_iff in Hcalls as [Hc Hcalls].
    apply negb_true_iff in Hc. apply IH; [assumption|].
    now apply single_timer_step. }
  split; [exact H|].
  set (l := lifecycle_run c (lifecycle_step c fresh LInitialize) calls) in *.
  unfold single_timer in H.
  split; [|split].
  - rewrite H. destruct (cleanupHandle l); simpl; lia.
  - unfold disconnect. destruct (cleanupHandle l) as [h|] eqn:E; simpl.
    + rewrite H. apply filter_single_interval.
    + exact H.
  - unfold reconnect. destruct (cleanupHandle l) as [h|] eqn:E; simpl.
    + now rewrite H.
    + rewrite H. reflexivity.
Qed.

Lemma one_sweep_timer_witness :
  let l := lifecycle_run (mkConfig None (Some 1))
             (lifecycle_step (mkConfig None (Some 1)) fresh LInitialize)
             [LReconnect; LDisconnect; LDisconnect; LReconnect; LReconnect] in
  intervals l = [(1%nat, 1000)].
Proof.
  pose proof (one_sweep_timer (mkConfig None (Some 1))
                [LReconnect; LDisconnect; LDisconnect; LReconnect; LReconnect]
                eq_refl eq_refl) as (Hs & _).
  exact Hs.
Defined.

Lemma orphan_step (c : MemoryConfig) (h : nat) (period : Z) (l : Lifecycle)
    (call : LifecycleCall) :
  orphan h period l -> orphan h period (lifecycle_step c l call).
Proof.
  intros (Hin & Hne & Hlt).
  assert (Hstart : orphan h period (startCleanupTimer c l)).
  { unfold orphan, startCleanupTimer. simpl. split; [|split].
    - apply in_or_app. now left.
    - intros [= Heq]. lia.
    - lia. }
  destruct call; simpl.
  - unfold initialize. destruct (validateConfig c); [|exact Hstart].
    unfold orphan. auto.
  - unfold disconnect. destruct (cleanupHandle l) as [h'|] eqn:E; [|unfold orphan; rewrite E; auto].
    unfold orphan. simpl. split; [|split; [discriminate | assumption]].
    apply list_elem_of_In, list_elem_of_filter. simpl.
    split; [congruence | now apply list_elem_of_In].
  - unfold reconnect. destruct (cleanupHandle l) as [h'|] eqn:E; [|exact Hstart].
    unfold orphan. rewrite E. auto.
Qed.

(** X13. A second [initialize()] on a driver whose sweep timer is
    running starts another interval and overwrites the handle of the
    first, which no later [disconnect()], [reconnect()] or
    [initialize()] ever clears: it runs for good. *)
Theorem second_initialize_leaks_the_timer
    (c : MemoryConfig) (l : Lifecycle) (h : nat) (period : Z)
    (calls : list LifecycleCall) :
  validateConfig c = None ->
  cleanupHandle l = Some h ->
  In (h, period) (intervals l) ->
  (h < nextInterval l)%nat ->
  let l' := lifecycle_run c (lifecycle_step c l LInitialize) calls in
  In (h, period) (intervals l') /\ cleanupHandle l' <> Some h.
Proof.
  intros Hvalid Hh Hin Hlt. cbv zeta.
  assert (H0 : orphan h period (lifecycle_step c l LInitialize)).
  { unfold lifecycle_step, initialize, orphan, startCleanupTimer. rewrite Hvalid. simpl.
    split; [apply in_or_app; now left|]. split; [intros [= Heq]; lia | lia]. }
  assert (H : orphan h period (lifecycle_run c (lifecycle_step c l LInitialize) calls)).
  { unfold lifecycle_run. revert H0. generalize (lifecycle_step c l LInitialize).
    induction calls as [|call calls IH]; intros l0 H0; simpl; [assumption|].
    apply IH. now apply orphan_step. }
  destruct H as (H1 & H2 & _). auto.
Qed.

Lemma second_initialize_leaks_the_timer_witness :
  let c := mkConfig None None in
  let l := lifecycle_step c fresh LInitialize in
  intervals (lifecycle_run c (lifecycle_step c l LInitialize) [LDisconnect])
  = [(0%nat, 60000)] /\
  In (0%nat, 60000)
    (intervals (lifecycle_run c (lifecycle_step c l LInitialize)
                  [LDisconnect; LReconnect; LDisconnect])).
Proof.
  split; [reflexivity|].
  apply (second_initialize_leaks_the_timer (mkConfig None None)
           (lifecycle_step (mkConfig None None) fresh LInitialize) 0 60000
           [LDisconnect; LReconnect; LDisconnect] eq_refl eq_refl).
  - now left.
  - simpl. lia.
Defined.

End MemoryLaws.

(** * Laws of the reconnection logic *)

Module ReconnectLaws.
Import Redis RedisShutdown RedisBounds ReconnectFacts.

Lemma clearReconnectTimer_fields (w : World) :
  options (driver (clearReconnectTimer w)) = options (driver w) /\
  reconnectAttempts (driver (clearReconnectTimer w)) = reconnectAttempts (driver w) /\
  isConnecting (driver (clearReconnectTimer w)) = isConnecting (driver w) /\
  nextTimer (clearReconnectTimer w) = nextTimer w.
Proof.
  destruct w as [d ts nx]; destruct d as [opts tm att conn].
  unfold clearReconnectTimer. simpl. now destruct tm.
Qed.

(** X14. In every state the driver can reach, a ['connect'] event
    leaves no timer pending and the attempt counter at zero.
    [disconnect()] clears the pending timer, and nothing is pending
    when it returns if the driver held no open client.  But an open
    client emits ['end'] while it is disconnected, and the driver
    handles it as a lost connection: when no attempt is in progress and
    the attempt counter is below [maxRetries], [disconnect()] returns
    with a new reconnection timer pending, set with the usual delay;
    otherwise with none. *)
Theorem disconnect_of_an_open_client_schedules_a_reconnect
    (o : DriverOptions) (events : list Event) :
  let w := run (new_World o) events in
  let bound := resolved_maxRetries (default defaultReconnect (opt_reconnect o)) in
  (timers (step w ClientConnect) = [] /\
   reconnectTimer (driver (step w ClientConnect)) = None /\
   reconnectAttempts (driver (step w ClientConnect)) = 0) /\
  (timers (disconnect_call false w) = [] /\
   reconnectTimer (driver (disconnect_call false w)) = None) /\
  (let w' := disconnect_call true w in
   if isConnecting (driver w) || (reconnectAttempts (driver w) >=? bound)
   then timers w' = [] /\ reconnectTimer (driver w') = None
   else timers w' = [mkTimer (nextTimer w) (reconnectDelay (driver w))] /\
        reconnectTimer (driver w') = Some (nextTimer w)).
Proof.
  cbv zeta.
  pose proof (timer_inv_run events (new_World o) eq_refl) as Hinv.
  pose proof (options_run events (new_World o)) as Hopt.
  set (w := run (new_World o) events) in *.
  assert (Hreset : timer_inv (with_driver (with_attempts 0 (driver w)) w)).
  { destruct w as [d ts nx]; destruct d; exact Hinv. }
  destruct (timer_inv_clearReconnectTimer _ Hreset) as [Hc1 Hc2].
  destruct (timer_inv_clearReconnectTimer _ Hinv) as [Hd1 Hd2].
  destruct (clearReconnectTimer_fields w) as (Ho & Ha & Hi & Hn).
  split; [|split].
  - simpl. unfold onConnect. split; [exact Hc1|]. split; [exact Hc2|].
    destruct w as [d ts nx]; destruct d as [opts tm att conn]. simpl.
    unfold clearReconnectTimer. simpl. now destruct tm.
  - unfold disconnect_call, disconnect. auto.
  - unfold disconnect_call, disconnect. cbn [step].
    unfold handleConnectionError. rewrite Hi, Ho, Ha, Hopt. cbn [new_World driver
      new_RedisDriver options reconnect].
    destruct (isConnecting (driver w)); cbn [orb]; [auto|].
    destruct (reconnectAttempts (driver w) >=? _); [auto|].
    unfold scheduleReconnect. rewrite Hd2. unfold setTimeout.
    cbn [driver timers with_driver with_timer reconnectTimer]. rewrite Hd1, Hn.
    split; [|reflexivity]. cbn [app]. f_equal. f_equal.
    unfold reconnectDelay, resolved_backoff, resolved_baseDelay. now rewrite Ho, Ha.
Qed.

Lemma Forall_filter_sub {A : Type} (P Q : A -> Prop) `{forall x, Decision (Q x)}
    (l : list A) :
  Forall P l -> Forall P (filter Q l).
Proof.
  rewrite !Forall_forall. intros Hall x Hx.
  apply list_elem_of_filter in Hx as [_ Hx]. auto.
Qed.

Lemma delay_bounds (d : RedisDriver) :
  0 <= reconnectAttempts d ->
  0 <= resolved_baseDelay d ->
  resolved_baseDelay d <= reconnectDelay d <= 64 * resolved_baseDelay d.
Proof.
  intros Hatt Hb. unfold reconnectDelay. destruct (resolved_backoff d); [|lia].
  assert (H : 1 <= 2 ^ Z.min (reconnectAttempts d) 6 <= 64).
  { assert (Hm : 0 <= Z.min (reconnectAttempts d) 6 <= 6) by lia.
    split.
    - apply (Z.pow_le_mono_r 2 0); lia.
    - change 64 with (2 ^ 6). apply Z.pow_le_mono_r; lia. }
  nia.
Qed.

Lemma delays_within_scheduleReconnect (b : Z) (w : World) :
  resolved_baseDelay (driver w) = b -> 0 <= b ->
  delays_within b w -> delays_within b (scheduleReconnect w).
Proof.
  intros Hb Hpos [Hatt Hall]. unfold scheduleReconnect.
  destruct (reconnectTimer (driver w)); [now split|].
  unfold delays_within. simpl. split; [assumption|].
  apply Forall_app. split; [assumption|].
  apply Forall_singleton. simpl. rewrite <- Hb. apply delay_bounds; lia.
Qed.

Lemma delays_within_handleConnectionError (b : Z) (w : World) :
  resolved_baseDelay (driver w) = b -> 0 <= b ->
  delays_within b w -> delays_within b (handleConnectionError w).
Proof.
  intros Hb Hpos H. unfold handleConnectionError.
  destruct (isConnecting (driver w)); [assumption|].
  destruct (reconnect (options (driver w))); [|assumption].
  destruct (_ >=? _); [assumption | now apply delays_within_scheduleReconnect].
Qed.

Lemma delays_within_clearReconnectTimer (b : Z) (w : World) :
  delays_within b w -> delays_within b (clearReconnectTimer w).
Proof.
  intros [Hatt Hall]. unfold clearReconnectTimer, delays_within.
  destruct (reconnectTimer (driver w)) as [id|]; simpl; [|now split].
  split; [assumption|]. now apply Forall_filter_sub.
Qed.

Lemma delays_within_change (b : Z) (w : World) (d : RedisDriver) :
  0 <= reconnectAttempts d ->
  delays_within b w -> delays_within b (with_driver d w).
Proof. intros Hd [_ Hall]. unfold delays_within. simpl. auto. Qed.

Lemma baseDelay_options (d d' : RedisDriver) :
  options d' = options d -> resolved_baseDelay d' = resolved_baseDelay d.
Proof. unfold resolved_baseDelay. now intros ->. Qed.

Lemma delays_within_step (b : Z) (w : World) (e : Event) :
  resolved_baseDelay (driver w) = b -> 0 <= b ->
  delays_within b w -> delays_within b (step w e).
Proof.
  intros Hb Hpos H.
  assert (Hatt : 0 <= reconnectAttempts (driver w)) by apply H.
  destruct e as [ | | |id|ok| |ok|ok]; simpl.
  - now apply delays_within_handleConnectionError.
  - now apply delays_within_handleConnectionError.
  - unfold onConnect. apply delays_within_clearReconnectTimer.
    apply delays_within_change; [simpl; lia | assumption].
  - destruct (timer_pending id w); [|assumption].
    unfold timerCallback_begin, disconnect.
    apply delays_within_clearReconnectTimer.
    apply delays_within_change; [simpl; lia|].
    destruct H as [_ Hall]. split; [simpl; lia|]. simpl. now apply Forall_filter_sub.
  - destruct (isConnecting (driver w)); [|assumption].
    destruct ok; simpl.
    + apply delays_within_change; [simpl; lia|].
      apply delays_within_change; [simpl; lia | assumption].
    + apply delays_within_handleConnectionError; [exact Hb | assumption |].
      apply delays_within_change; [simpl; lia | assumption].
  - unfold disconnect. now apply delays_within_clearReconnectTimer.
  - destruct ok; simpl; [|assumption].
    apply delays_within_change; [simpl; lia | assumption].
  - unfold disconnect. apply delays_within_clearReconnectTimer in H.
    destruct ok; simpl; [|assumption].
    apply delays_within_change; [simpl; lia | assumption].
Qed.

(** X15. For a base delay that is not negative, every reconnection
    timer the driver ever sets waits at least the base delay and at
    most 64 times the base delay, and exactly the base delay when
    exponential backoff is off. *)
Theorem reconnect_delay_is_bounded (o : DriverOptions) (events : list Event) :
  let w := run (new_World o) events in
  let b := resolved_baseDelay (driver (new_World o)) in
  0 <= b ->
  Forall (fun t => b <= timer_delay t <= 64 * b) (timers w) /\
  b <= reconnectDelay (driver w) <= 64 * b /\
  (resolved_backoff (driver w) = false -> reconnectDelay (driver w) = b).
Proof.
  cbv zeta. intros Hpos.
  assert (Hgen : forall es w0,
            resolved_baseDelay (driver w0) = resolved_baseDelay (driver (new_World o)) ->
            delays_within (resolved_baseDelay (driver (new_World o))) w0 ->
            delays_within (resolved_baseDelay (driver (new_World o))) (run w0 es)).
  { unfold run. induction es as [|e es IH]; intros w0 Hb H; simpl; [assumption|].
    apply IH.
    - rewrite <- Hb. apply baseDelay_options, options_step.
    - now apply delays_within_step. }
  assert (H0 : delays_within (resolved_baseDelay (driver (new_World o))) (new_World o)).
  { split; [simpl; lia | constructor]. }
  destruct (Hgen events (new_World o) eq_refl H0) as [Hatt Hall].
  assert (Hb : resolved_baseDelay (driver (run (new_World o) events))
               = resolved_baseDelay (driver (new_World o))).
  { apply baseDelay_options, options_run. }
  split; [exact Hall|]. split.
  - rewrite <- Hb. apply delay_bounds; [assumption | now rewrite Hb].
  - intros Hoff. unfold reconnectDelay. now rewrite Hoff.
Qed.

Lemma reconnect_delay_is_bounded_witness :
  let o := mkOptions None None (Some (mkReconnect (Some 20) (Some 100) (Some true))) in
  let w := run (new_World o)
             [ClientError; TimerFires 0; ReconnectSettles false; TimerFires 1;
              ReconnectSettles false; TimerFires 2; ReconnectSettles false;
              TimerFires 3; ReconnectSettles false; TimerFires 4; ReconnectSettles false;
              TimerFires 5; ReconnectSettles false; TimerFires 6; ReconnectSettles false;
              TimerFires 7; ReconnectSettles false] in
  0 <= resolved_baseDelay (driver (new_World o)) /\
  timers w = [mkTimer 8 6400] /\
  Forall (fun t => 100 <= timer_delay t <= 6400) (timers w).
Proof.
  cbv zeta. split; [vm_compute; discriminate|]. split; [reflexivity|].
  apply (reconnect_delay_is_bounded
           (mkOptions None None (Some (mkReconnect (Some 20) (Some 100) (Some true))))).
  vm_compute; discriminate.
Defined.

End ReconnectLaws.

(** * Laws of the distributed-object driver *)

Module MemcachedLaws.
Import MemcachedReconnect.

Ltac world w :=
  let d := fresh "d" in
  let ro := fresh "ro" in
  let tm := fresh "tm" in
  let att := fresh "att" in
  let ts := fresh "ts" in
  let nx := fresh "nx" in
  destruct w as [d ro tm att ts nx].

Lemma sound_scheduleReconnect (bound : Z) (w : World) :
  reconnectAttempts w < bound -> sound bound w -> sound bound (scheduleReconnect w).
Proof.
  world w. unfold sound, scheduleReconnect. simpl.
  destruct tm as [id|]; simpl; [tauto|].
  intros Hlt (Hro & -> & Hr). simpl. split; [assumption|]. split; [eauto | lia].
Qed.

Lemma sound_handleConnectionError (bound : Z) (w : World) :
  sound bound w -> sound bound (handleConnectionError w).
Proof.
  intros H. unfold handleConnectionError.
  destruct H as ((ro & Hro & Hb) & Ht & Hr) eqn:E. rewrite Hro, Hb.
  destruct (Z.geb_spec (reconnectAttempts w) bound); [exact H|].
  now apply sound_scheduleReconnect.
Qed.

Lemma filter_timer_single (id : nat) (delay : Z) :
  filter (fun t => Redis.timer_id t ≠ id) [Redis.mkTimer id delay] = [].
Proof.
  rewrite filter_cons. simpl.
  destruct (decide (id ≠ id)); [contradiction | reflexivity].
Qed.

Lemma sound_clearReconnectTimer (bound : Z) (w : World) :
  sound bound w -> sound bound (clearReconnectTimer w).
Proof.
  world w. unfold sound, clearReconnectTimer. simpl.
  destruct tm as [id|]; simpl; [|tauto].
  intros (Hro & ([delay ->] & Hlt) & Hr). rewrite filter_timer_single. auto.
Qed.

Lemma sound_with_connection (bound : Z) (a b : bool) (w : World) :
  sound bound w -> sound bound (with_connection a b w).
Proof. world w. exact id. Qed.

Lemma sound_reset (bound : Z) (w : World) :
  sound bound w -> sound bound (with_attempts 0 w).
Proof.
  world w. unfold sound. simpl. intros (Hro & Ht & Hr).
  split; [assumption|]. split; [|lia].
  destruct tm; [|assumption]. destruct Ht as [Hd Hlt]. split; [assumption | lia].
Qed.

Lemma sound_step (bound : Z) (w : World) (e : Event) :
  sound bound w -> sound bound (step w e).
Proof.
  intros H. destruct e as [ | |id|ok| |ok]; simpl.
  - now apply sound_handleConnectionError, sound_with_connection.
  - now apply sound_clearReconnectTimer, sound_reset, sound_with_connection.
  - destruct (timer_pending id w) eqn:Hp; [|assumption].
    world w. unfold sound, timer_pending in *. simpl in *.
    destruct H as (Hro & Ht & Hr).
    destruct tm as [id'|].
    + destruct Ht as [[delay ->] Hlt]. simpl in Hp. rewrite orb_false_r in Hp.
      apply Nat.eqb_eq in Hp. subst id'. rewrite filter_timer_single.
      unfold timerCallback_begin, disconnect, clearReconnectTimer. simpl.
      split; [assumption|]. split; [reflexivity | lia].
    + subst ts. discriminate Hp.
  - unfold timerCallback_end. destruct ok.
    + now apply sound_reset, sound_with_connection.
    + now apply sound_handleConnectionError.
  - unfold disconnect. now apply sound_with_connection, sound_clearReconnectTimer.
  - unfold initialize. destruct ok.
    + now apply sound_reset, sound_with_connection, sound_with_connection.
    + now apply sound_with_connection.
Qed.

Lemma sound_run (bound : Z) (es : list Event) (w : World) :
  sound bound w -> sound bound (run w es).
Proof.
  unfold run. revert w. induction es as [|e es IH]; intros w H; simpl; [assumption|].
  apply IH. now apply sound_step.
Qed.

(** X16. The distributed-object driver, whose error handler has no
    guard for an attempt in progress, keeps the same bounds: for a
    retry bound [maxRetries >= 0], after any sequence of events the
    attempt counter lies between 0 and [maxRetries], at most one
    reconnection timer is pending, and none is pending once the counter
    has reached the bound. *)
Theorem memcached_attempts_bounded (o : Redis.DriverOptions) (events : list Event) :
  let bound := default 5 (Redis.maxRetries (default Redis.defaultReconnect (Redis.opt_reconnect o))) in
  let w := run (new_World o) events in
  0 <= bound ->
  0 <= reconnectAttempts w <= bound /\
  (length (timers w) <= 1)%nat /\
  (bound <= reconnectAttempts w -> timers w = []).
Proof.
  cbv zeta. intros Hpos.
  assert (H0 : sound (default 5 (Redis.maxRetries
                        (default Redis.defaultReconnect (Redis.opt_reconnect o))))
                 (new_World o)).
  { unfold sound. simpl. split; [eauto|]. split; [reflexivity | lia]. }
  destruct (sound_run _ events _ H0) as (_ & Ht & Hr).
  split; [exact Hr|].
  destruct (reconnectTimer (run (new_World o) events)).
  - destruct Ht as [[delay ->] Hlt]. simpl. split; [lia|]. intros. lia.
  - rewrite Ht. simpl. split; [lia | reflexivity].
Qed.

Lemma memcached_attempts_bounded_witness :
  let w := run (new_World Redis.two_retries)
             [ServerFailure; TimerFires 0; ServerFailure; ReconnectSettles false;
              TimerFires 1; ReconnectSettles false; ServerFailure] in
  0 <= default 5 (Redis.maxRetries
                    (default Redis.defaultReconnect (Redis.opt_reconnect Redis.two_retries))) /\
  reconnectAttempts w = 2 /\ timers w = [].
Proof.
  cbv zeta. split; [vm_compute; discriminate|]. split; [reflexivity|].
  pose proof (memcached_attempts_bounded Redis.two_retries
                [ServerFailure; TimerFires 0; ServerFailure; ReconnectSettles false;
                 TimerFires 1; ReconnectSettles false; ServerFailure]) as H.
  cbv zeta in H. destruct H as (_ & _ & Hnone); [vm_compute; discriminate|].
  apply Hnone. vm_compute. discriminate.
Defined.

Lemma driver_handleConnectionError (w : World) :
  driver (handleConnectionError w) = driver w.
Proof.
  unfold handleConnectionError. destruct (reconnect w); [|reflexivity].
  destruct (_ >=? _); [reflexivity|].
  unfold scheduleReconnect. now destruct (reconnectTimer w).
Qed.

Lemma down_step (w : World) (e : Event) :
  keeps_down e = true ->
  Memcached.isConnected (driver w) = false ->
  Memcached.isConnected (driver (step w e)) = false.
Proof.
  intros He Hdown. destruct e as [ | |id|ok| |ok]; simpl in *; try discriminate.
  - now rewrite driver_handleConnectionError.
  - destruct (timer_pending id w); [reflexivity | assumption].
  - destruct ok; [discriminate|]. unfold timerCallback_end.
    now rewrite driver_handleConnectionError.
  - reflexivity.
  - destruct ok; [discriminate|]. exact Hdown.
Qed.

(** X17. A ['failure'] event of the client takes the driver down:
    until a ['reconnect'] event or a successful [initialize()], through
    any further failures, timer firings, failed attempts and
    [disconnect()] calls, the driver is not ready and [increment] and
    [decrement] fail with a connection error without handing anything
    to the client. *)
Theorem failure_takes_the_driver_down
    (w : World) (events : list Event) (key : string) (amount : option Z)
    (reply : Memcached.Reply Memcached.CounterResult)
    (setReply : Memcached.Reply unit) :
  forallb keeps_down events = true ->
  let w' := run (step w ServerFailure) events in
  Memcached.isReady (driver w') = false /\
  Memcached.increment key amount reply setReply (driver w')
  = (inl Memcached.CacheConnectionError, []) /\
  Memcached.decrement key amount reply setReply (driver w')
  = (inl Memcached.CacheConnectionError, []) /\
  Memcached.isReady (driver (step w' (CallInitialize true))) = true.
Proof.
  intros Hev. cbv zeta.
  assert (H0 : Memcached.isConnected (driver (step w ServerFailure)) = false).
  { simpl. now rewrite driver_handleConnectionError. }
  assert (H : Memcached.isConnected (driver (run (step w ServerFailure) events)) = false).
  { unfold run. revert H0 Hev. generalize (step w ServerFailure).
    induction events as [|e es IH]; intros w0 H0 Hev; simpl; [assumption|].
    simpl in Hev. apply andb_true_iff in Hev as [He Hes].
    apply IH; [now apply down_step | assumption]. }
  assert (Hready : Memcached.isReady (driver (run (step w ServerFailure) events)) = false).
  { unfold Memcached.isReady. now rewrite H. }
  split; [exact Hready|].
  unfold Memcached.increment, Memcached.decrement. rewrite Hready. simpl.
  repeat split.
Qed.

Lemma failure_takes_the_driver_down_witness :
  let w := run (new_World Redis.two_retries) [CallInitialize true] in
  Memcached.isReady (driver w) = true /\
  Memcached.increment "n" None (Memcached.Resolved (Memcached.IsNumber 7))
    (Memcached.Resolved tt)
    (driver (run (step w ServerFailure) [TimerFires 0; ReconnectSettles false]))
  = (inl Memcached.CacheConnectionError, []).
Proof.
  split; [reflexivity|].
  pose proof (failure_takes_the_driver_down
                (run (new_World Redis.two_retries) [CallInitialize true])
                [TimerFires 0; ReconnectSettles false] "n" None
                (Memcached.Resolved (Memcached.IsNumber 7)) (Memcached.Resolved tt)
                eq_refl) as (_ & H & _).
  exact H.
Defined.

End MemcachedLaws.

(** * Laws of the facade *)

Module FacadeLaws.
Import Facade FacadeShutdown FacadeFacts.

Lemma is_target_spec (c : Cache) (a : nat) :
  is_target c a = true <->
  exists inst, heap c !! a = Some inst /\ stores c !! inst_name inst = Some a /\
               initialized inst = true.
Proof.
  unfold is_target. destruct (heap c !! a) as [inst|].
  - rewrite andb_true_iff, bool_decide_eq_true. split.
    + intros [H1 H2]. eauto.
    + intros (inst' & [= <-] & H1 & H2). auto.
  - split; [discriminate | intros (inst & [=] & _)].
Qed.

(** X18. [Cache.disconnect()] calls [disconnect()] once on the driver
    of every store instance that is held and marked initialized, and on
    no other.  When all of them succeed the facade is back to its state
    before [initialize]: no configuration, no stores, no default store,
    and every operation is refused with "not initialized".  When one of
    them fails nothing is cleared: the configuration, the stores and
    the default store stay as they were. *)
Theorem disconnect_resets_the_facade (c : Cache) (op : Operation) (s : string) :
  let done := Cache_disconnect true c in
  let failed := Cache_disconnect false c in
  (config done = None /\ stores done = ∅ /\ defaultStore done = None) /\
  Cache_call op done = (Failed notInitialized, done) /\
  Proxy_call s op done = (Failed notInitialized, done) /\
  log done = log c ++ map Disconnect (disconnect_targets c) /\
  NoDup (disconnect_targets c) /\
  (forall a, In a (disconnect_targets c) <->
     exists inst, heap c !! a = Some inst /\ stores c !! inst_name inst = Some a /\
                  initialized inst = true) /\
  (config failed = config c /\ stores failed = stores c /\
   defaultStore failed = defaultStore c /\ log failed = log done).
Proof.
  cbv zeta. split; [repeat split|]. split; [reflexivity|]. split; [reflexivity|].
  split; [reflexivity|]. split; [|split; [|repeat split]].
  - unfold disconnect_targets. apply NoDup_filter, NoDup_seq.
  - intros a. unfold disconnect_targets.
    rewrite <- list_elem_of_In, list_elem_of_filter, is_target_spec.
    split; [tauto|]. intros (inst & Hh & Hs & Hi). split; [eauto|].
    apply list_elem_of_In, in_seq. apply lookup_lt_Some in Hh. lia.
Qed.

(** ** Configuration errors *)

(** X19. Configuration errors leave the facade as it was: no instance
    is recorded and no backend is touched.  A store name that the
    configuration does not list is refused with "store not found",
    unless it is the name of a member of [Object.prototype]
    (["toString"], ["constructor"], ["__proto__"], ...): the lookup in
    the plain object [config.stores] then finds that member and the
    call fails in [createDriver] with "Unknown driver type: undefined".
    A listed store whose driver type is none of "memory", "redis" and
    "memcached" fails with "Unknown driver type" and its tag.
    [Cache.initialize] with a default store that is not listed (and is
    no such member) fails with "store not found" but keeps the
    configuration it was given: later operations fail with the same
    error, except when the default name is the empty string, for which
    they fail with "not initialized". *)
Theorem configuration_errors_touch_nothing
    (c : Cache) (cfg : CacheConfig) (s : string) (op : Operation) :
  (config c = Some cfg -> cfg_stores cfg !! s = None ->
   s ∉ object_prototype_names ->
   Proxy_call s op c = (Failed (storeNotFound s), c)) /\
  (config c = Some cfg -> cfg_stores cfg !! s = None ->
   s ∈ object_prototype_names -> stores c !! s = None ->
   Proxy_call s op c = (Failed (unknownDriver "undefined"), c)) /\
  (forall sc, config c = Some cfg -> cfg_stores cfg !! s = Some sc ->
     stores c !! s = None -> known_driver (driver sc) = false ->
     Proxy_call s op c = (Failed (unknownDriver (driver sc)), c)) /\
  (cfg_stores cfg !! default_ cfg = None ->
   default_ cfg ∉ object_prototype_names ->
   let r := Cache_initialize cfg c in
   fst r = Failed (storeNotFound (default_ cfg)) /\
   log (snd r) = log c /\
   config (snd r) = Some cfg /\
   Cache_call op (snd r)
   = (Failed (if String.eqb (default_ cfg) EmptyString then notInitialized
              else storeNotFound (default_ cfg)), snd r)).
Proof.
  split; [|split; [|split]].
  - intros Hc Hs Hp. unfold Proxy_call, getStoreInstance, config_stores_get.
    rewrite Hc, Hs. now rewrite bool_decide_eq_false_2.
  - intros Hc Hs Hp Hn. unfold Proxy_call, getStoreInstance, config_stores_get.
    rewrite Hc, Hs, Hn. now rewrite bool_decide_eq_true_2.
  - intros sc Hc Hs Hn Hk. unfold Proxy_call, getStoreInstance, config_stores_get.
    now rewrite Hc, Hs, Hn, Hk.
  - intros Hs Hp. cbv zeta.
    unfold Cache_initialize, acquire, Cache_call, getDefaultStore, getStoreInstance,
      config_stores_get.
    simpl. rewrite Hs, bool_decide_eq_false_2 by assumption. simpl.
    repeat split.
    destruct (String.eqb (default_ cfg) EmptyString); [reflexivity|].
    rewrite Hs, bool_decide_eq_false_2 by assumption. reflexivity.
Qed.

Lemma configuration_errors_touch_nothing_witness :
  Proxy_call "sessions" (Get "k") ready
  = (Failed (CacheConfigurationError "Store 'sessions' not found in configuration."), ready) /\
  Proxy_call "toString" (Get "k") ready
  = (Failed (CacheConfigurationError "Unknown driver type: undefined"), ready) /\
  fst (Cache_initialize (mkCacheConfig "gone" ∅) initial)
  = Failed (CacheConfigurationError "Store 'gone' not found in configuration.").
Proof.
  pose proof (configuration_errors_touch_nothing ready two_stores "sessions" (Get "k"))
    as (H1 & _).
  pose proof (configuration_errors_touch_nothing ready two_stores "toString" (Get "k"))
    as (_ & H2 & _).
  pose proof (configuration_errors_touch_nothing initial (mkCacheConfig "gone" ∅)
                "x" (Get "k")) as (_ & _ & _ & H4).
  split; [|split].
  - apply H1; [reflexivity | reflexivity | apply (bool_decide_eq_false_1 _); reflexivity].
  - apply H2; [reflexivity | reflexivity | apply (bool_decide_eq_true_1 _); reflexivity
              | reflexivity].
  - apply H4; [reflexivity | apply (bool_decide_eq_false_1 _); reflexivity].
Defined.

(** ** Initialization that fails *)

(** X20. When the [initialize()] of a store's driver fails, the call
    fails with an initialization error that names the store, and the
    instance stays held but not marked initialized: the next call for
    that store constructs nothing new and invokes [initialize()] on the
    same driver once more. *)
Theorem failed_initialization_is_retried
    (c : Cache) (cfg : CacheConfig) (sc : StoreConfig) (s : string) :
  config c = Some cfg ->
  cfg_stores cfg !! s = Some sc ->
  known_driver (driver sc) = true ->
  stores c !! s = None ->
  let a := length (heap c) in
  let first := acquire s c in
  let failed := resume (fst first) false (snd first) in
  let second := acquire s (snd failed) in
  fst first = Suspended a None /\
  fst failed = Failed (CacheInitializationError s) /\
  snd failed = snd first /\
  fst second = Suspended a None /\
  construct_calls s (snd second) = S (construct_calls s c) /\
  initialize_calls a (snd second) = S (S (initialize_calls a c)).
Proof.
  intros Hcfg Hsc Hknown Hnone. cbv zeta.
  destruct (acquire_first s cfg sc c Hcfg Hsc Hknown Hnone) as [Hacq Hun].
  rewrite Hacq. cbn [fst snd].
  set (a := length (heap c)) in *.
  set (c1 := with_log (with_log (snd (add_instance s c)) (Construct s (driver sc) a))
               (Initialize a)) in *.
  assert (Hname : heap c1 !! a = Some (mkInstance s false)).
  { unfold c1. simpl. now apply list_lookup_middle. }
  assert (Hres : resume (Suspended a None) false c1
                 = (Failed (CacheInitializationError s), c1)).
  { unfold resume, initializeStore_resume. cbv beta iota. rewrite Hname. reflexivity. }
  rewrite Hres. cbn [fst snd].
  destruct (acquire_uninitialized s a c1 Hun) as [Hacq2 _].
  rewrite Hacq2. cbn [fst snd].
  rewrite construct_calls_log_init, initialize_calls_log_init.
  unfold c1.
  rewrite construct_calls_log_init, construct_calls_log_construct.
  rewrite initialize_calls_log_init, initialize_calls_log_construct.
  repeat split.
Qed.

Lemma failed_initialization_is_retried_witness :
  let first := acquire "s" ready in
  let failed := resume (fst first) false (snd first) in
  fst failed = Failed (CacheInitializationError "s") /\
  initialize_calls 1 (snd (acquire "s" (snd failed))) = 2%nat.
Proof.
  pose proof (failed_initialization_is_retried ready two_stores (mkStoreConfig "memory")
                "s" eq_refl eq_refl eq_refl eq_refl) as (_ & H2 & _ & _ & _ & H6).
  exact (conj H2 H6).
Defined.

(** ** Operations on an initialized store *)

(** X21. Once a store is initialized, every operation of a proxy of
    that store is handed, with its arguments, to the driver of that one
    instance, at once and exactly once: no driver is constructed, no
    [initialize()] is invoked, and the facade's fields do not change.
    The same holds for the operations of the facade itself when the
    store is the default store and its name is not the empty string;
    with the empty string as the name of the default store the facade
    refuses every operation with "not initialized", the store being
    initialized or not. *)
Theorem operations_reach_the_initialized_driver
    (c : Cache) (s : string) (a : nat) (op : Operation) :
  initialized_at s a c ->
  Proxy_call s op c = (Done a, with_log c (Invoke a op)) /\
  (defaultStore c = Some s -> s <> EmptyString ->
   Cache_call op c = (Done a, with_log c (Invoke a op))) /\
  (defaultStore c = Some s -> s = EmptyString ->
   Cache_call op c = (Failed notInitialized, c)) /\
  initialize_calls a (with_log c (Invoke a op)) = initialize_calls a c /\
  construct_calls s (with_log c (Invoke a op)) = construct_calls s c /\
  initialized_at s a (with_log c (Invoke a op)).
Proof.
  intros Hin.
  assert (Hget : getStoreInstance s c = (Returned a, c)).
  { destruct Hin as ((cfg & sc & Hcfg & Hsc) & Hst & inst & Hinst & Hflag).
    unfold getStoreInstance, config_stores_get. rewrite Hcfg, Hsc, Hst. simpl.
    now rewrite Hinst, Hflag. }
  split; [|split; [|split; [|split; [|split]]]].
  - unfold Proxy_call. now rewrite Hget.
  - intros Hd Hne. unfold Cache_call, getDefaultStore. rewrite Hd.
    destruct (String.eqb_spec s EmptyString); [contradiction|]. now rewrite Hget.
  - intros Hd ->. unfold Cache_call, getDefaultStore. now rewrite Hd.
  - unfold initialize_calls, with_log. simpl.
    rewrite filter_app, length_app, filter_cons. simpl. lia.
  - unfold construct_calls, with_log. simpl.
    rewrite filter_app, length_app, filter_cons. simpl. lia.
  - exact Hin.
Qed.

Lemma operations_reach_the_initialized_driver_witness :
  initialized_at "main" 0 ready /\
  Cache_call (Set_ "k" (Memory.VNum 1) (Some 60)) ready
  = (Done 0, with_log ready (Invoke 0 (Set_ "k" (Memory.VNum 1) (Some 60)))).
Proof.
  assert (H : initialized_at "main" 0 ready).
  { unfold initialized_at. split; [|split].
    - exists two_stores, (mkStoreConfig "memory"). split; reflexivity.
    - reflexivity.
    - exists (mkInstance "main" true). split; reflexivity. }
  split; [exact H|].
  pose proof (operations_reach_the_initialized_driver ready "main" 0
                (Set_ "k" (Memory.VNum 1) (Some 60)) H) as (_ & Hcall & _).
  apply Hcall; [reflexivity | discriminate].
Defined.

(** ** One driver for each store *)

Lemma construct_calls_with_log (s : string) (c : Cache) (call : BackendCall) :
  construct_calls s (with_log c call)
  = (construct_calls s c + if is_construct s call then 1 else 0)%nat.
Proof.
  unfold construct_calls, with_log. simpl.
  rewrite filter_app, length_app, filter_cons. simpl.
  destruct (is_construct s call); simpl; [|lia].
  destruct (decide (true = true)); [reflexivity | contradiction].
Qed.

(** What a call of [getStoreInstance] does to the fields: nothing, or
    one new instance for a name that had none. *)
Lemma getStoreInstance_cases (s' : string) (c : Cache) :
  let c' := snd (getStoreInstance s' c) in
  config c' = config c /\
  ((stores c' = stores c /\ heap c' = heap c /\
    forall s, construct_calls s c' = construct_calls s c) \/
   (stores c !! s' = None /\
    stores c' = <[s' := length (heap c)]> (stores c) /\
    heap c' = heap c ++ [mkInstance s' false] /\
    forall s, construct_calls s c'
              = (construct_calls s c + if String.eqb s' s then 1 else 0)%nat)).
Proof.
  cbv zeta. unfold getStoreInstance.
  destruct (config c) as [cfg|] eqn:Hcfg; [|simpl; rewrite Hcfg; auto].
  destruct (config_stores_get cfg s') as [entry|]; [|simpl; rewrite Hcfg; auto].
  destruct (stores c !! s') as [a|] eqn:Hst.
  - destruct (heap c !! a) as [inst|]; [|simpl; rewrite Hcfg; auto].
    destruct (initialized inst); simpl; rewrite Hcfg; split; auto.
    left. repeat split. intros s. rewrite construct_calls_with_log. simpl. lia.
  - destruct entry as [sc|]; [|simpl; rewrite Hcfg; auto].
    destruct (known_driver (driver sc)); [|simpl; rewrite Hcfg; auto].
    cbn [add_instance with_log fst snd heap].
    rewrite list_lookup_middle by reflexivity. cbn [initialized].
    simpl. rewrite Hcfg. split; [reflexivity|]. right.
    repeat split. intros s. rewrite !construct_calls_with_log. simpl.
    unfold construct_calls. simpl. lia.
Qed.

Lemma resume_fields (t : Task) (ok : bool) (c : Cache) :
  let c' := snd (resume t ok c) in
  config c' = config c /\ stores c' = stores c /\
  length (heap c') = length (heap c) /\
  forall s, construct_calls s c' = construct_calls s c.
Proof.
  cbv zeta. destruct t as [e|a then_|a]; simpl; [auto| |auto].
  unfold initializeStore_resume. destruct ok; simpl; [|auto].
  destruct then_ as [op|]; simpl.
  - repeat split; [now rewrite length_alter|].
    intros s. unfold construct_calls. simpl.
    rewrite filter_app, length_app, filter_cons. simpl. lia.
  - repeat split. now rewrite length_alter.
Qed.

Lemma acquire_snd (s' : string) (c : Cache) :
  snd (acquire s' c) = snd (getStoreInstance s' c).
Proof.
  unfold acquire, continue_with.
  destruct (getStoreInstance s' c) as [[e|a|a] c1]; reflexivity.
Qed.

Lemma schedule_snd (tasks : list Task) (c : Cache) (act : Action) :
  snd (schedule (tasks, c) act)
  = match act with
    | Start s' => snd (getStoreInstance s' c)
    | Settle i ok =>
        match tasks !! i with
        | Some t => snd (resume t ok c)
        | None => c
        end
    end.
Proof.
  destruct act as [s'|i ok]; simpl.
  - rewrite <- acquire_snd. now destruct (acquire s' c).
  - destruct (tasks !! i) as [t|]; [|reflexivity]. now destruct (resume t ok c).
Qed.

Lemma one_driver_step (s : string) (c0 c : Cache) (tasks : list Task) (act : Action) :
  one_driver_since s c0 c -> one_driver_since s c0 (snd (schedule (tasks, c) act)).
Proof.
  unfold one_driver_since. intros H. rewrite schedule_snd.
  destruct act as [s'|i ok].
  - destruct (getStoreInstance_cases s' c) as [_ [(Hs & _ & Hc)|(Hn & Hs & _ & Hc)]].
    + now rewrite Hs, Hc.
    + rewrite Hs, Hc, H. destruct (String.eqb_spec s' s) as [->|Hne].
      * rewrite lookup_insert_eq, Hn. lia.
      * rewrite lookup_insert_ne by assumption. lia.
  - destruct (tasks !! i) as [t|]; [|assumption].
    destruct (resume_fields t ok c) as (_ & Hs & _ & Hc). now rewrite Hs, Hc.
Qed.

(** X22. However calls for stores are started and however their
    initializations settle, the facade constructs at most one driver
    for a store name, and has constructed one exactly when it holds an
    instance for the name. *)
Theorem one_driver_per_store
    (c : Cache) (s : string) (tasks : list Task) (acts : list Action) :
  stores c !! s = None ->
  let final := snd (fold_left schedule acts (tasks, c)) in
  (construct_calls s final <= S (construct_calls s c))%nat /\
  (construct_calls s final = S (construct_calls s c) <-> is_Some (stores final !! s)).
Proof.
  intros Hnone. cbv zeta.
  assert (H : one_driver_since s c (snd (fold_left schedule acts (tasks, c)))).
  { assert (H0 : one_driver_since s c c).
    { unfold one_driver_since. rewrite Hnone. lia. }
    revert H0. generalize c at 2 4 as c1. revert tasks.
    induction acts as [|act acts IH]; intros tasks c1 H0; cbn [fold_left];
      [assumption|].
    pose proof (one_driver_step s c c1 tasks act H0) as H1.
    destruct (schedule (tasks, c1) act) as [tasks' c2]. now apply IH. }
  unfold one_driver_since in H.
  set (final := snd (fold_left schedule acts (tasks, c))) in *.
  rewrite H. destruct (stores final !! s) as [a|].
  - split; [lia|]. split; [eauto | lia].
  - split; [lia|]. split; [lia | intros [x [=]]].
Qed.

Lemma one_driver_per_store_witness :
  let final := snd (interleave [Start "s"; Start "s"; Settle 0 false; Start "s";
                                Settle 1 true; Start "s"] ready) in
  stores ready !! "s" = None /\
  construct_calls "s" final = 1%nat.
Proof.
  split; [reflexivity|].
  pose proof (one_driver_per_store ready "s" []
                [Start "s"; Start "s"; Settle 0 false; Start "s"; Settle 1 true; Start "s"]
                eq_refl) as [_ Hiff].
  apply Hiff. vm_compute. eauto.
Defined.

(** ** Initializing twice *)

Lemma unreachable_getStoreInstance (a : nat) (s' : string) (c : Cache) :
  unreachable a c -> unreachable a (snd (getStoreInstance s' c)).
Proof.
  intros [Hlt Hno]. unfold unreachable.
  destruct (getStoreInstance_cases s' c) as [_ [(Hs & Hh & _)|(_ & Hs & Hh & _)]].
  - rewrite Hs, Hh. auto.
  - rewrite Hs, Hh, length_app. simpl. split; [lia|].
    intros s. destruct (String.eqb_spec s' s) as [->|Hne].
    + rewrite lookup_insert_eq. intros [= Heq]. lia.
    + rewrite lookup_insert_ne by assumption. apply Hno.
Qed.

Lemma unreachable_step (a : nat) (c : Cache) (tasks : list Task) (act : Action) :
  unreachable a c -> unreachable a (snd (schedule (tasks, c) act)).
Proof.
  intros H. rewrite schedule_snd. destruct act as [s'|i ok].
  - now apply unreachable_getStoreInstance.
  - destruct (tasks !! i) as [t|]; [|assumption].
    destruct (resume_fields t ok c) as (_ & Hs & Hl & _).
    destruct H as [Hlt Hno]. unfold unreachable. rewrite Hs, Hl. auto.
Qed.

Lemma unreachable_not_target (a : nat) (c : Cache) :
  unreachable a c -> ~ In a (disconnect_targets c).
Proof.
  intros [_ Hno] Hin. unfold disconnect_targets in Hin.
  apply list_elem_of_In, list_elem_of_filter in Hin as [Ht _].
  apply is_target_spec in Ht as (inst & _ & Hs & _). exact (Hno _ Hs).
Qed.

Lemma getStoreInstance_disconnects_nothing (s' : string) (c : Cache) (b : nat) :
  In (Disconnect b) (log (snd (getStoreInstance s' c))) -> In (Disconnect b) (log c).
Proof.
  unfold getStoreInstance.
  destruct (config c) as [cfg|]; [|auto].
  destruct (config_stores_get cfg s') as [entry|]; [|auto].
  destruct (stores c !! s') as [a|].
  - destruct (heap c !! a) as [inst|]; [|auto].
    destruct (initialized inst); simpl; [auto|].
    intros H. apply in_app_or in H as [H|[H|[]]]; [assumption | discriminate].
  - destruct entry as [sc|]; [|auto].
    destruct (known_driver (driver sc)); [|auto].
    cbn [add_instance with_log fst snd heap].
    rewrite list_lookup_middle by reflexivity. simpl.
    intros H. apply in_app_or in H as [H|[H|[]]]; [|discriminate].
    apply in_app_or in H as [H|[H|[]]]; [assumption | discriminate].
Qed.

(** X23. [Cache.initialize] called on a facade that already holds
    store instances disconnects none of their drivers and drops every
    reference to them: whatever calls follow, no later
    [Cache.disconnect()] reaches those drivers. *)
Theorem reinitialize_orphans_the_drivers
    (c : Cache) (cfg : CacheConfig) (a : nat) (acts : list Action) :
  (a < length (heap c))%nat ->
  let r := Cache_initialize cfg c in
  let final := snd (fold_left schedule acts ([fst r], snd r)) in
  (forall b, In (Disconnect b) (log (snd r)) -> In (Disconnect b) (log c)) /\
  ~ In a (disconnect_targets final) /\
  (forall s, stores final !! s <> Some a).
Proof.
  intros Hlt. cbv zeta. unfold Cache_initialize.
  set (c1 := {| config := Some cfg; stores := ∅; defaultStore := Some (default_ cfg);
                heap := heap c; log := log c |}).
  assert (H1 : unreachable a c1).
  { split; [exact Hlt|]. intros s. simpl. now rewrite lookup_empty. }
  assert (H2 : unreachable a (snd (acquire (default_ cfg) c1))).
  { rewrite acquire_snd. now apply unreachable_getStoreInstance. }
  split.
  - intros b. rewrite acquire_snd. apply (getStoreInstance_disconnects_nothing _ c1).
  - assert (H : unreachable a
                  (snd (fold_left schedule acts
                          ([fst (acquire (default_ cfg) c1)], snd (acquire (default_ cfg) c1))))).
    { revert H2. generalize (snd (acquire (default_ cfg) c1)).
      generalize [fst (acquire (default_ cfg) c1)].
      induction acts as [|act acts IH]; intros tasks c2 H2; cbn [fold_left];
        [assumption|].
      pose proof (unreachable_step a c2 tasks act H2) as H3.
      destruct (schedule (tasks, c2) act) as [tasks' c3]. now apply IH. }
    split; [now apply unreachable_not_target | apply H].
Qed.

Lemma reinitialize_orphans_the_drivers_witness :
  let r := Cache_initialize two_stores ready in
  let final := snd (fold_left schedule [Settle 0 true] ([fst r], snd r)) in
  log (Cache_disconnect true final)
  = [Construct "main" "memory" 0; Initialize 0;
     Construct "main" "memory" 1; Initialize 1; Disconnect 1] /\
  ~ In 0%nat (disconnect_targets final).
Proof.
  split; [reflexivity|].
  apply (reinitialize_orphans_the_drivers ready two_stores 0 [Settle 0 true]).
  vm_compute. lia.
Defined.

End FacadeLaws.

(** * Properties of the driver registry *)

Module RegistryLaws.
Import Registry.

Section RegistryLaws.
Context {Factory : Type}.
Implicit Types (d : gmap string Factory) (f : Factory).

Lemma after_lookup d (c : RegistryCall) (name : string) :
  after d c !! name
  = match c with
    | Clear => None
    | Register n f =>
        match d !! name with
        | Some g => Some g
        | None => if String.eqb n name then Some f else None
        end
    end.
Proof.
  destruct c as [n f|]; simpl; [|apply lookup_empty].
  unfold register, has.
  destruct (String.eqb_spec n name) as [->|Hne].
  - destruct (d !! name) as [g|] eqn:E; [exact E|]. apply lookup_insert_eq.
  - destruct (d !! n) as [g|] eqn:E.
    + now destruct (d !! name).
    + rewrite lookup_insert_ne by assumption. now destruct (d !! name).
Qed.

Lemma after_all_lookup (calls : list RegistryCall) (name : string) :
  forall later : option Factory,
  standing name (rev calls) later
  = match after_all calls (∅ : gmap string Factory) !! name with
    | Some g => Some g
    | None => later
    end.
Proof.
  induction calls as [|c calls IH] using rev_ind; intros later.
  - simpl. now rewrite lookup_empty.
  - rewrite rev_app_distr. unfold after_all. rewrite fold_left_app. simpl.
    fold (after_all calls (∅ : gmap string Factory)).
    rewrite after_lookup. destruct c as [n f|]; simpl; [|reflexivity].
    rewrite IH. destruct (after_all calls ∅ !! name) as [g|]; [reflexivity|].
    now destruct (String.eqb n name).
Qed.

(** X24. After any sequence of [register] and [clear] calls on the
    empty registry, [getFactory(name)] returns the factory of the
    earliest registration of [name] made since the last [clear()] (a
    later registration of the same name is refused and replaces
    nothing) and throws when there is none; [has(name)] is true exactly
    when [getFactory(name)] returns; and [register(name, f)] is refused
    exactly when [has(name)] is true. *)
Theorem first_registration_stands (calls : list RegistryCall) (name : string) f :
  let d := after_all calls (∅ : gmap string Factory) in
  getFactory name d
  = match standing name (rev calls) None with
    | Some g => inr g
    | None => inl (NotFound name)
    end /\
  has name d = match getFactory name d with inr _ => true | inl _ => false end /\
  register name f d
  = (if has name d then inl (AlreadyRegistered name) else inr (<[name := f]> d)) /\
  after d (Register name f) = (if has name d then d else <[name := f]> d) /\
  has name (after d Clear) = false.
Proof.
  cbv zeta. rewrite (after_all_lookup calls name None).
  unfold getFactory, has.
  split; [now destruct (after_all calls ∅ !! name)|].
  split; [now destruct (after_all calls ∅ !! name)|].
  split; [reflexivity|].
  split.
  - simpl. unfold register, has.
    now destruct (after_all calls ∅ !! name).
  - simpl. unfold clear. now rewrite lookup_empty.
Qed.

End RegistryLaws.
End RegistryLaws.

(** * Properties of the options the facade builds *)

Module FacadeOptionsLaws.
Import FacadeOptions.

(** X25. A driver built by the facade's [createDriver] resolves the
    time-to-live of a [set] by precedence: the argument of the call,
    else the store's [defaultTtl], else [globalTtl], else 3600, a value
    of zero at any level included (it is not replaced by the next
    level).  The in-process driver stores the entry under prefix + key
    with that expiry (none when the resolved value is not positive);
    the networked driver sends SETEX with that many seconds, SET when
    it is not positive. *)
Theorem ttl_precedence_through_createDriver
    (g : option Globals) (sc : StoreSettings) (connection : Memory.MemoryConfig)
    (key payload : string) (v : Memory.Value) (ttl : option Z) (now t_evict : Z) :
  let t := ttl_by_precedence ttl g sc in
  let m := createMemoryDriver g sc connection in
  let r := createRedisDriver g sc in
  Memory.map_get (prefixed sc key) (Memory.store (Memory.set now t_evict key v ttl m))
  = Some {| Memory.value := v;
            Memory.expiresAt := if 0 <? t then Some (now + t * 1000) else None;
            Memory.createdAt := now; Memory.accessedAt := now |} /\
  Redis.set_command key payload ttl r
  = (if 0 <? t then Redis.SETEX (prefixed sc key) t payload
     else Redis.SET (prefixed sc key) payload).
Proof.
  cbv zeta.
  assert (Ht : match ttl with Some t => t | None => options_defaultTtl g sc end
               = ttl_by_precedence ttl g sc).
  { unfold ttl_by_precedence, options_defaultTtl.
    destruct ttl as [t|]; [reflexivity|].
    destruct (cfg_defaultTtl sc) as [t|]; [reflexivity|].
    destruct g as [[[t|]]|]; reflexivity. }
  assert (Hx : forall t : Z, negb (t =? 0) && (t >? 0) = (0 <? t)).
  { intros t. destruct (Z.eqb_spec t 0), (Z.ltb_spec 0 t), (Z.gtb_spec t 0);
      simpl; try reflexivity; lia. }
  split.
  - assert (Hk : Memory.getFullKey (createMemoryDriver g sc connection) key
                 = prefixed sc key).
    { unfold Memory.getFullKey, createMemoryDriver, prefixed. simpl.
      destruct (cfg_keyPrefix sc) as [p|]; simpl; [|reflexivity].
      destruct (String.eqb_spec p EmptyString) as [->|]; reflexivity. }
    rewrite <- Hk, MemoryFacts.map_get_after_set.
    unfold Memory.expiry. rewrite Hx.
    change (Memory.effectiveTtl ttl (createMemoryDriver g sc connection))
      with (match ttl with Some t => t | None => options_defaultTtl g sc end).
    rewrite Ht. reflexivity.
  - unfold Redis.set_command, Redis.effectiveTtl, Redis.getFullKey.
    assert (Hk : (if String.eqb (default EmptyString (cfg_keyPrefix sc)) EmptyString
                  then key else (default EmptyString (cfg_keyPrefix sc) ++ key)%string)
                 = prefixed sc key).
    { unfold prefixed. destruct (cfg_keyPrefix sc) as [p|]; simpl; [|reflexivity].
      destruct (String.eqb_spec p EmptyString) as [->|]; reflexivity. }
    cbn [createRedisDriver Redis.new_RedisDriver Redis.options Redis.keyPrefix
         Redis.defaultTtl Redis.opt_keyPrefix Redis.opt_defaultTtl].
    rewrite Hk, Hx.
    change (default 3600 (Some (options_defaultTtl g sc))) with (options_defaultTtl g sc).
    rewrite Ht. reflexivity.
Qed.

End FacadeOptionsLaws.
